(** * Hycast: the P2P manager, the address order, the data-segment size and
    the linked set, embedded from the C++ sources and checked against the
    specification.

    Layout: the embedding comes first (one module per source file), the
    theorems follow.  Integers of a fixed width are [Z] with the wrap-around
    written out; [std::unordered_map] is [gmap]; code that throws returns
    a result that carries the exception. *)

From Stdlib Require Import ZArith Lia Bool List String Ascii.
From stdpp Require Import base decidable option list gmap strings fin_maps.
Import ListNotations.

Local Open Scope Z_scope.

(* ===================================================================== *)
(** * Part I: the embedding                                                *)
(* ===================================================================== *)

(** ** Fixed-width integers *)

Definition u16 (x : Z) : Z := x mod 2 ^ 16.
Definition u32 (x : Z) : Z := x mod 2 ^ 32.
Definition u64 (x : Z) : Z := x mod 2 ^ 64.

(** ** src/main/HycastProto.h *)

Module HycastProto.

(** [class DataSeg] *)
Module DataSeg.

(** [static const SegSize CANON_DATASEG_SIZE = 1500 - 20 - 20 - 4 - 4 - 4 - 4]
    (Ethernet - IP header - TCP header - PduId - prodIndex - offset -
    prodSize), stored in a [uint16_t]. *)
Definition CANON_DATASEG_SIZE : Z := u16 (1500 - 20 - 20 - 4 - 4 - 4 - 4).

(** [DataSeg::size(ProdSize prodSize, SegOffset offset)].  Both arguments are
    [uint32_t], so the difference wraps modulo 2^32; it is then stored in the
    [SegSize] (= [uint16_t]) variable [nbytes], which keeps the low 16 bits. *)
Definition size (prodSize offset : Z) : Z :=
  let nbytes := u16 (u32 (prodSize - offset)) in
  if nbytes >? CANON_DATASEG_SIZE then CANON_DATASEG_SIZE else nbytes.

End DataSeg.

(** [struct DataSegId]. *)
Record DataSegId := mkDataSegId { prodIndex : Z; offset : Z }.

(** [struct NoteReq]: the tagged union [{UNSET, PROD_INDEX, DATA_SEG}]. *)
Inductive NoteReq :=
| NR_UNSET
| NR_PROD_INDEX (prodIndex : Z)
| NR_DATA_SEG (dataSegId : DataSegId).

(** [operator==] and [hash()] of both types: they are keys of hash maps. *)
#[global] Instance DataSegId_eq_dec : EqDecision DataSegId.
Proof. solve_decision. Defined.

#[global] Instance NoteReq_eq_dec : EqDecision NoteReq.
Proof. solve_decision. Defined.

#[global] Instance DataSegId_countable : Countable DataSegId.
Proof.
  apply (inj_countable' (fun d => (prodIndex d, offset d))
                        (fun p => mkDataSegId (fst p) (snd p))).
  by intros [].
Defined.

#[global] Instance NoteReq_countable : Countable NoteReq.
Proof.
  apply (inj_countable'
           (fun r => match r with
                     | NR_UNSET => inl tt
                     | NR_PROD_INDEX i => inr (inl i)
                     | NR_DATA_SEG d => inr (inr d)
                     end)
           (fun x => match x with
                     | inl _ => NR_UNSET
                     | inr (inl i) => NR_PROD_INDEX i
                     | inr (inr d) => NR_DATA_SEG d
                     end)).
  by intros [].
Defined.

End HycastProto.

(** ** src/main/net_io/InAddr.cpp *)

Module InAddr.

(** [ntohl] on the host the code is built for.  [s_addr] holds the four
    address bytes in network order; read as a host integer on a little-endian
    host its low byte is the first address byte, and [ntohl] reverses the four
    bytes.  On a big-endian host [ntohl] is the identity. *)
Definition bswap32 (x : Z) : Z :=
  Z.shiftl (Z.land x 255) 24
  + Z.shiftl (Z.land (Z.shiftr x 8) 255) 16
  + Z.shiftl (Z.land (Z.shiftr x 16) 255) 8
  + Z.land (Z.shiftr x 24) 255.

Definition ntohl (big_endian_host : bool) (x : Z) : Z :=
  if big_endian_host then x else bswap32 x.

(** [::memcmp(a, b, n)] on byte arrays: the sign of the difference of the
    first pair of bytes that differ, [0] when the first [n] bytes agree. *)
Fixpoint memcmp (a b : list Z) (n : nat) : Z :=
  match n, a, b with
  | S n', x :: a', y :: b' => if x =? y then memcmp a' b' n' else x - y
  | _, _, _ => 0
  end.

(** The three implementations of [InAddr::Impl]. *)
Inductive Impl :=
| In4Addr (s_addr : Z)            (* struct in_addr: 32 bits *)
| In6Addr (addr : list Z)         (* struct in6_addr: 16 bytes *)
| NameAddr (name : string).

(** The values a constructor of [InAddr] can build: a 32-bit [s_addr],
    sixteen bytes, any name. *)
Definition is_byte (b : Z) : bool := (0 <=? b) && (b <? 256).

Definition wf (a : Impl) : bool :=
  match a with
  | In4Addr s => (0 <=? s) && (s <? 2 ^ 32)
  | In6Addr bs => (length bs =? 16)%nat && forallb is_byte bs
  | NameAddr _ => true
  end.

Section Host.
Variable big_endian_host : bool.

(** The overloads [operator<(const In4Addr&)], [operator<(const In6Addr&)]
    and [operator<(const NameAddr&)], each dispatched on the dynamic type
    of [this]. *)
Definition lt_In4Addr (this : Impl) (rhs_s_addr : Z) : bool :=
  match this with
  | In4Addr s => ntohl big_endian_host s <? ntohl big_endian_host rhs_s_addr
  | In6Addr _ => false
  | NameAddr _ => false
  end.

Definition lt_In6Addr (this : Impl) (rhs_addr : list Z) : bool :=
  match this with
  | In4Addr _ => true
  | In6Addr a => memcmp a rhs_addr 16 <? 0
  | NameAddr _ => false
  end.

Definition lt_NameAddr (this : Impl) (rhs_name : string) : bool :=
  match this with
  | In4Addr _ => true
  | In6Addr _ => true
  | NameAddr n => String.ltb n rhs_name
  end.

(** The overloads of [operator==]. *)
Definition eq_In4Addr (this : Impl) (rhs_s_addr : Z) : bool :=
  match this with
  | In4Addr s => s =? rhs_s_addr
  | _ => false
  end.

Definition eq_In6Addr (this : Impl) (rhs_addr : list Z) : bool :=
  match this with
  | In6Addr a => memcmp a rhs_addr 16 =? 0
  | _ => false
  end.

Definition eq_NameAddr (this : Impl) (rhs_name : string) : bool :=
  match this with
  | NameAddr n => String.eqb n rhs_name
  | _ => false
  end.

(** [operator<(const InAddr::Impl& rhs)]: in each class the body is
    [!(rhs < *this) && !(rhs == *this)], where [*this] has the static type of
    the class, so the call goes back to [rhs] with the matching overload. *)
Definition Impl_lt (this rhs : Impl) : bool :=
  match this with
  | In4Addr s => negb (lt_In4Addr rhs s) && negb (eq_In4Addr rhs s)
  | In6Addr a => negb (lt_In6Addr rhs a) && negb (eq_In6Addr rhs a)
  | NameAddr n => negb (lt_NameAddr rhs n) && negb (eq_NameAddr rhs n)
  end.

(** [operator==(const InAddr::Impl& rhs)]: [rhs == *this]. *)
Definition Impl_eq (this rhs : Impl) : bool :=
  match this with
  | In4Addr s => eq_In4Addr rhs s
  | In6Addr a => eq_In6Addr rhs a
  | NameAddr n => eq_NameAddr rhs n
  end.

(** [InAddr::operator<] and [InAddr::operator==] forward to the
    implementation behind [pImpl]; an [InAddr] is modelled by that
    implementation (a default-constructed [InAddr] holds none and cannot be
    compared). *)
Definition lt (a b : Impl) : bool := Impl_lt a b.
Definition eq (a b : Impl) : bool := Impl_eq a b.

(** The order as the specification words it: lexicographic on (tag, payload)
    with tags v4 < v6 < name. *)
Definition tag (a : Impl) : Z :=
  match a with In4Addr _ => 0 | In6Addr _ => 1 | NameAddr _ => 2 end.

Fixpoint bytes_lt (a b : list Z) : bool :=
  match a, b with
  | x :: a', y :: b' => (x <? y) || ((x =? y) && bytes_lt a' b')
  | [], _ :: _ => true
  | _, [] => false
  end.

Definition spec_lt (a b : Impl) : bool :=
  match a, b with
  | In4Addr x, In4Addr y => ntohl big_endian_host x <? ntohl big_endian_host y
  | In6Addr x, In6Addr y => bytes_lt x y
  | NameAddr x, NameAddr y => String.ltb x y
  | _, _ => tag a <? tag b
  end.

End Host.

(** Sample addresses: 127.0.0.1 as a little-endian host holds it, ::1 and a
    host name. *)
Definition addr4 : Impl := In4Addr 16777343.
Definition addr6 : Impl := In6Addr [0;0;0;0;0;0;0;0;0;0;0;0;0;0;0;1].
Definition addrName : Impl := NameAddr "localhost".

End InAddr.

(** ** error.h: the exceptions the sources throw *)

Inductive Exception :=
| INVALID_ARGUMENT (what : string)
| LOGIC_ERROR (what : string)
| RUNTIME_ERROR (what : string)
| SYSTEM_ERROR (what : string) (status : Z)
| OUT_OF_RANGE                          (* [std::out_of_range] of [at()] *)
| EXISTS_ERROR                          (* duplicate peer *)
| NESTED (outer inner : Exception)      (* [std::throw_with_nested] *)
| TASK_ERROR (id : Z)                   (* any other [std::exception] *)
| STD_EXCEPTION.                        (* an object of class [std::exception] itself *)

(** ** src/main/misc/LinkedSet.cpp *)

Module LinkedSet.

Section WithValue.
Context {VALUE : Type}.

(** [struct Entry]; the constructor sets [next] to [0]. *)
Record Entry := mkEntry { value : VALUE; prev : Z; next : Z }.

(** [class Impl]: [Index] is [unsigned short], [0] is the null index. *)
Record Impl := mkImpl {
  map : gmap Z Entry;
  head : Z;
  tail : Z;
  nextIndex : Z
}.

(** [Impl()] *)
Definition new : Impl := mkImpl ∅ 0 0 0.

(** [size()] *)
Definition size (s : Impl) : nat := base.size (map s).

(** [map[k].next = n] and [map[k].prev = p].  The keys written this way are
    links of entries of the map; [alter] leaves the map alone for a key it
    does not hold. *)
Definition set_next (k n : Z) (m : gmap Z Entry) : gmap Z Entry :=
  alter (fun e => mkEntry (value e) (prev e) n) k m.

Definition set_prev (k p : Z) (m : gmap Z Entry) : gmap Z Entry :=
  alter (fun e => mkEntry (value e) p (next e)) k m.

(** [add]: called as [add(key, value)] by the handle class.  [map.insert]
    leaves an existing entry alone and reports it through [pair.second]. *)
Definition add (key : Z) (v : VALUE) (s : Impl) : Exception + (VALUE * Impl) :=
  if key =? 0 then inl (INVALID_ARGUMENT "Key is invalid")
  else
    match map s !! key with
    | Some e => inr (value e, s)
    | None =>
        let m := <[key := mkEntry v (tail s) 0]> (map s) in
        if negb (tail s =? 0)
        then inr (v, mkImpl (set_next (tail s) key m) (head s) key (nextIndex s))
        else inr (v, mkImpl m key key (nextIndex s))
    end.

(** [find]: [None] is [nullptr]. *)
Definition find (key : Z) (s : Impl) : option VALUE :=
  value <$> map s !! key.

(** [remove] *)
Definition remove (key : Z) (s : Impl) : Exception + (VALUE * Impl) :=
  match map s !! key with
  | None => inl (INVALID_ARGUMENT "No such entry")
  | Some entry =>
      let '(m1, head1) :=
        if negb (prev entry =? 0)
        then (set_next (prev entry) (next entry) (map s), head s)
        else (map s, next entry) in
      let '(m2, tail1) :=
        if negb (next entry =? 0)
        then (set_prev (next entry) (prev entry) m1, tail s)
        else (m1, prev entry) in
      inr (value entry, mkImpl m2 head1 tail1 (nextIndex s))
  end.

(** [getHead()] and [getTail()] *)
Definition getHead (s : Impl) : Z := head s.
Definition getTail (s : Impl) : Z := tail s.

(** The keys met from [getHead()] along the [next] links, as a caller of the
    class walks the list; [fuel] bounds the walk. *)
Fixpoint walk (fuel : nat) (m : gmap Z Entry) (k : Z) : list Z :=
  match fuel with
  | O => []
  | S fuel' =>
      if k =? 0 then []
      else match m !! k with
           | Some e => k :: walk fuel' m (next e)
           | None => []
           end
  end.

Definition keys (s : Impl) : list Z := walk (S (size s)) (map s) (getHead s).

(** The list the links describe.  [chain m p l]: the keys of [l] are entries
    of [m], none is the null index, the first has [p] for its [prev], each
    has its successor in [l] for its [next] and its predecessor for its
    [prev], and the last has [0] for its [next]. *)
Fixpoint chain (m : gmap Z Entry) (p : Z) (l : list Z) : Prop :=
  match l with
  | [] => True
  | k :: l' =>
      k <> 0
      /\ (exists e, m !! k = Some e /\ prev e = p /\ next e = List.hd 0 l')
      /\ chain m k l'
  end.

(** [linked s l]: the list of [s], from its head to its tail, is [l]. *)
Definition linked (s : Impl) (l : list Z) : Prop :=
  NoDup l /\ head s = List.hd 0 l /\ tail s = List.last l 0
  /\ chain (map s) 0 l.

(** The values of [Index] ([unsigned short]).  The map and the links of the
    class hold values of [Index]; [add], [find] and [remove] above are the
    class for keys that are values of [Index], and a key of a wider [KEY]
    would be narrowed on its way into the map and the links. *)
Definition is_Index (k : Z) : Prop := 0 <= k < 2 ^ 16.

(** A set whose head, tail, keys and links are values of [Index]. *)
Definition within_Index (s : Impl) : Prop :=
  is_Index (head s) /\ is_Index (tail s)
  /\ map_Forall (fun k e => is_Index k /\ is_Index (prev e) /\ is_Index (next e))
                (map s).

(** Calls of [add] in sequence, stopping at the first that throws. *)
Fixpoint add_all (kvs : list (Z * VALUE)) (s : Impl) : Exception + Impl :=
  match kvs with
  | [] => inr s
  | (key, v) :: kvs' =>
      match add key v s with
      | inl ex => inl ex
      | inr (_, s') => add_all kvs' s'
      end
  end.

End WithValue.

Arguments Entry : clear implicits.
Arguments Impl : clear implicits.

(** Sample sets: the keys 1, 2, 3 added in this order to an empty set. *)
Definition sample123 : Impl string :=
  match add_all [(1, "a"); (2, "b"); (3, "c")]%string new with
  | inr s => s
  | inl _ => new
  end.

End LinkedSet.

(** ** Peer.h, Bookkeeper.h and PeerSet.h

    These headers and their implementations are not among the sources; the
    manager in P2pMgr.cpp calls them.  What the manager needs of them is
    modelled here from the specification. *)

(** Modelled from the spec: the [Peer] handle (spec 4.2: [rmtAddr()],
    [isPathToPub()], equality on the remote socket address).  A handle that
    tests false is [None] where the code tests it. *)
Record Peer (SockAddr : Type) := mkPeer {
  rmtAddr : SockAddr;
  isPathToPub : bool
}.
Arguments mkPeer {SockAddr}.
Arguments rmtAddr {SockAddr}.
Arguments isPathToPub {SockAddr}.

(** The PDUs the manager causes to be sent to a remote peer. *)
Inductive Pdu :=
| Notice (item : HycastProto.NoteReq)
| Request (item : HycastProto.NoteReq).

Module Bookkeeper.
Import HycastProto.

Section WithSockAddr.
Context {SockAddr : Type} `{Countable SockAddr}.

(** Modelled from the spec: the state of [Bookkeeper] (spec 4.3): the per-peer
    counters in insertion order, [requested[peer]] (the outstanding requests
    dispatched to a peer) and [alternates[item]] (the peers that announced the
    item but were not picked, in arrival order).  The path counts are taken
    over the current entries. *)
Record t := mk {
  counts : list (Peer SockAddr * nat);
  requestedMap : gmap SockAddr (list NoteReq);
  alternates : gmap NoteReq (list (Peer SockAddr))
}.

(** Modelled from the spec: the bookkeeper of a new manager knows no peer. *)
Definition new : t := mk [] ∅ ∅.

(** Modelled from the spec: the peer (by its remote address) has an entry. *)
Definition knows (peer : Peer SockAddr) (bk : t) : bool :=
  existsb (fun pc => bool_decide (rmtAddr (fst pc) = rmtAddr peer)) (counts bk).

(** Modelled from the spec: [Bookkeeper::add(peer)] enters the peer with a zero counter. *)
Definition add (peer : Peer SockAddr) (bk : t) : t :=
  if knows peer bk then bk
  else mk (counts bk ++ [(peer, O)]) (requestedMap bk) (alternates bk).

(** Modelled from the spec: [Bookkeeper::erase(peer)] purges all entries of the peer. *)
Definition erase (peer : Peer SockAddr) (bk : t) : t :=
  mk (List.filter (fun pc => negb (bool_decide (rmtAddr (fst pc) = rmtAddr peer)))
                  (counts bk))
     (delete (rmtAddr peer) (requestedMap bk))
     (List.filter (fun q => negb (bool_decide (rmtAddr q = rmtAddr peer)))
        <$> alternates bk).

(** Modelled from the spec: [Bookkeeper::resetCounts()] zeroes all counters. *)
Definition resetCounts (bk : t) : t :=
  mk (List.map (fun pc => (fst pc, O)) (counts bk)) (requestedMap bk)
     (alternates bk).

(** Modelled from the spec: [SubBookkeeper::getPubPathCounts], the
    counts over the current peers by their path-to-publisher flag. *)
Definition getPubPathCounts (bk : t) : Z * Z :=
  (Z.of_nat (length (List.filter (fun pc => isPathToPub (fst pc)) (counts bk))),
   Z.of_nat (length (List.filter (fun pc => negb (isPathToPub (fst pc)))
                                 (counts bk)))).

(** Modelled from the spec: the peer with the lowest counter; on ties the one
    inserted first. *)
Fixpoint worst (l : list (Peer SockAddr * nat)) : option (Peer SockAddr * nat) :=
  match l with
  | [] => None
  | pc :: l' =>
      match worst l' with
      | Some qd => if (snd qd <? snd pc)%nat then Some qd else Some pc
      | None => Some pc
      end
  end.

(** Modelled from the spec: [Bookkeeper::getWorstPeer()]; [None] is a peer
    that tests false. *)
Definition getWorstPeer (bk : t) : option (Peer SockAddr) :=
  fst <$> worst (counts bk).

(** Modelled from the spec: [SubBookkeeper::getWorstPeer(hasPathFlag)]
    restricts to the peers matching the given path flag. *)
Definition getWorstPeerWith (pubPath : bool) (bk : t) : option (Peer SockAddr) :=
  fst <$> worst (List.filter (fun pc => Bool.eqb (isPathToPub (fst pc)) pubPath)
                             (counts bk)).

(** Modelled from the spec: [SubBookkeeper::getRequested(peer)] is [requested[peer]], empty
    for a peer without requests. *)
Definition getRequested (peer : Peer SockAddr) (bk : t) : list NoteReq :=
  default [] (requestedMap bk !! rmtAddr peer).

(** Modelled from the spec: some peer currently has the item as an
    outstanding request. *)
Definition outstanding (item : NoteReq) (bk : t) : bool :=
  bool_decide (map_Exists (fun _ l => item ∈ l) (requestedMap bk)).

(** Modelled from the spec: [SubBookkeeper::requested(peer, item)] records an
    assignment. *)
Definition requested (peer : Peer SockAddr) (item : NoteReq) (bk : t) : t :=
  let l := getRequested peer bk in
  mk (counts bk)
     (<[rmtAddr peer := if bool_decide (item ∈ l) then l else l ++ [item]]>
        (requestedMap bk))
     (alternates bk).

(** Modelled from the spec: [SubBookkeeper::shouldRequest(peer, item)] is true
    iff no peer currently has the item outstanding (the upper layer is asked
    by the manager), and it marks the item as announced by the peer.  With
    the answer true the peer is the one picked and the item is outstanding
    from it from then on, so that a second call answers false (spec 8); with
    the answer false the peer, not picked, joins [alternates[item]] in
    arrival order. *)
Definition shouldRequest (peer : Peer SockAddr) (item : NoteReq) (bk : t)
  : bool * t :=
  if outstanding item bk
  then (false, mk (counts bk) (requestedMap bk)
                  (<[item := default [] (alternates bk !! item) ++ [peer]]>
                     (alternates bk)))
  else (true, requested peer item bk).

(** Modelled from the spec: the counter of the peer goes up by one. *)
Definition bump (peer : Peer SockAddr) (l : list (Peer SockAddr * nat))
  : list (Peer SockAddr * nat) :=
  List.map (fun pc => if bool_decide (rmtAddr (fst pc) = rmtAddr peer)
                      then (fst pc, S (snd pc)) else pc) l.

(** Modelled from the spec: [SubBookkeeper::received(peer, item)] is true only
    if the item was outstanding from exactly this peer; it removes the assignment and bumps
    the peer's counter. *)
Definition received (peer : Peer SockAddr) (item : NoteReq) (bk : t) : bool * t :=
  let l := getRequested peer bk in
  if bool_decide (item ∈ l)
  then (true, mk (bump peer (counts bk))
                 (<[rmtAddr peer := List.filter (fun r => negb (bool_decide (r = item))) l]>
                    (requestedMap bk))
                 (alternates bk))
  else (false, bk).

(** Modelled from the spec: the best alternate candidate of an item, the head
    of [alternates[item]]. *)
Definition bestAlt (item : NoteReq) (bk : t) : option (Peer SockAddr) :=
  head (default [] (alternates bk !! item)).

(** Modelled from the spec: [SubBookkeeper::popBestAlt(item)] pops the head of
    [alternates[item]]. *)
Definition popBestAlt (item : NoteReq) (bk : t) : option (Peer SockAddr) * t :=
  match default [] (alternates bk !! item) with
  | [] => (None, bk)
  | alt :: rest =>
      (Some alt, mk (counts bk) (requestedMap bk) (<[item := rest]> (alternates bk)))
  end.

(** Modelled from the spec: the publisher's bookkeeper counts the responses
    served to a peer ([requested] of [PubBookkeeper]). *)
Definition served (peer : Peer SockAddr) (bk : t) : t :=
  mk (bump peer (counts bk)) (requestedMap bk) (alternates bk).

End WithSockAddr.

Arguments t SockAddr {_ _}.

End Bookkeeper.

Module PeerSet.
Import HycastProto.

Section WithSockAddr.
Context {SockAddr : Type} `{EqDecision SockAddr}.

(** Modelled from the spec: [PeerSet], the set of active peers, keyed by the remote socket
    address (spec 4.4), held in insertion order. *)
Definition t := list (Peer SockAddr).

(** Modelled from the spec: membership is by the remote socket address. *)
Definition contains (peer : Peer SockAddr) (ps : t) : bool :=
  existsb (fun q => bool_decide (rmtAddr q = rmtAddr peer)) ps.

(** Modelled from the spec: [PeerSet::activate(peer)] inserts the peer and starts its
    workers; it rejects duplicates ([ExistsError], the set unchanged). *)
Definition activate (peer : Peer SockAddr) (ps : t) : Exception + (bool * t) :=
  if contains peer ps then inl EXISTS_ERROR else inr (true, ps ++ [peer]).

(** Modelled from the spec: [PeerSet::size()], the number of active peers. *)
Definition size (ps : t) : nat := length ps.

(** Modelled from the spec: [PeerSet::notify(item, exclude_peer)] sends the notice to
    all peers but the one the item came from. *)
Definition notify (item : NoteReq) (exclude : Peer SockAddr) (ps : t)
  : list (SockAddr * Pdu) :=
  List.map (fun q => (rmtAddr q, Notice item))
    (List.filter (fun q => negb (bool_decide (rmtAddr q = rmtAddr exclude))) ps).

(** Modelled from the spec: a peer of [PeerSet] whose workers have exited
    leaves the set
    before the manager's [stopped(peer)] is called. *)
Definition remove (peer : Peer SockAddr) (ps : t) : t :=
  List.filter (fun q => negb (bool_decide (rmtAddr q = rmtAddr peer))) ps.

End WithSockAddr.

Arguments t SockAddr : clear implicits.

End PeerSet.

(** ** src/main/p2p-old/P2pMgr.cpp *)

Module P2pMgr.
Import HycastProto.

(** What [hereIs] is handed: product information or a data segment. *)
Inductive Data :=
| ProdInfo (prodIndex : Z) (name : string) (prodSize : Z)
| TcpSeg (segId : DataSegId) (prodSize : Z).

(** [prodInfo.getProdIndex()] and [seg.getSegId()] *)
Definition getId (d : Data) : NoteReq :=
  match d with
  | ProdInfo i _ _ => NR_PROD_INDEX i
  | TcpSeg id _ => NR_DATA_SEG id
  end.

(** The upper layer [P2pSub] behind [p2pSub]: an interface of the
    subscribing node.  [U] is its state. *)
Class P2pSub (U : Type) := {
  sub_shouldRequest : U -> NoteReq -> bool;
  sub_hereIsP2p : U -> Data -> bool * U
}.

(** The two final classes derived from [P2pMgr::Impl]. *)
Inductive Kind := PubP2pMgr | SubP2pMgr.

(** What [pthread_cancel] returns for the two cancelled threads. *)
Record Env := mkEnv { cancelImprover : Z; cancelConnector : Z }.

Section WithSockAddr.
Context {SockAddr : Type} `{Countable SockAddr} {U : Type} `{P2pSub U}.

(** The members of [P2pMgr::Impl] and of [SubP2pMgr] that the functions
    below read or write ([timePeriod] and [lclNodeType] are not among them;
    the mutex is the atomicity of each function).  A [std::thread] member is
    its [joinable()]; [taskException] is the exception behind the
    [std::exception_ptr], [None] for the null pointer; [halted] lists the
    peers whose [halt()] was called and [sent] the PDUs handed to peers. *)
Record Impl := mkImpl {
  kind : Kind;
  executing : bool;
  done : bool;
  maxPeers : Z;
  taskException : option Exception;
  peerSet : PeerSet.t SockAddr;
  acceptThread : bool;
  improveThread : bool;
  connectThread : bool;
  peers : gmap SockAddr (Peer SockAddr);
  bookkeeper : Bookkeeper.t SockAddr;
  serverPool : list SockAddr;
  p2pSub : U;
  halted : list SockAddr;
  sent : list (SockAddr * Pdu)
}.

Definition set_executing v (s : Impl) : Impl :=
  mkImpl (kind s) v (done s) (maxPeers s) (taskException s) (peerSet s)
    (acceptThread s) (improveThread s) (connectThread s) (peers s)
    (bookkeeper s) (serverPool s) (p2pSub s) (halted s) (sent s).

Definition set_done v (s : Impl) : Impl :=
  mkImpl (kind s) (executing s) v (maxPeers s) (taskException s) (peerSet s)
    (acceptThread s) (improveThread s) (connectThread s) (peers s)
    (bookkeeper s) (serverPool s) (p2pSub s) (halted s) (sent s).

Definition set_taskException v (s : Impl) : Impl :=
  mkImpl (kind s) (executing s) (done s) (maxPeers s) v (peerSet s)
    (acceptThread s) (improveThread s) (connectThread s) (peers s)
    (bookkeeper s) (serverPool s) (p2pSub s) (halted s) (sent s).

Definition set_peerSet v (s : Impl) : Impl :=
  mkImpl (kind s) (executing s) (done s) (maxPeers s) (taskException s) v
    (acceptThread s) (improveThread s) (connectThread s) (peers s)
    (bookkeeper s) (serverPool s) (p2pSub s) (halted s) (sent s).

Definition set_acceptThread v (s : Impl) : Impl :=
  mkImpl (kind s) (executing s) (done s) (maxPeers s) (taskException s)
    (peerSet s) v (improveThread s) (connectThread s) (peers s)
    (bookkeeper s) (serverPool s) (p2pSub s) (halted s) (sent s).

Definition set_improveThread v (s : Impl) : Impl :=
  mkImpl (kind s) (executing s) (done s) (maxPeers s) (taskException s)
    (peerSet s) (acceptThread s) v (connectThread s) (peers s) (bookkeeper s)
    (serverPool s) (p2pSub s) (halted s) (sent s).

Definition set_connectThread v (s : Impl) : Impl :=
  mkImpl (kind s) (executing s) (done s) (maxPeers s) (taskException s)
    (peerSet s) (acceptThread s) (improveThread s) v (peers s) (bookkeeper s)
    (serverPool s) (p2pSub s) (halted s) (sent s).

Definition set_peers v (s : Impl) : Impl :=
  mkImpl (kind s) (executing s) (done s) (maxPeers s) (taskException s)
    (peerSet s) (acceptThread s) (improveThread s) (connectThread s) v
    (bookkeeper s) (serverPool s) (p2pSub s) (halted s) (sent s).

Definition set_bookkeeper v (s : Impl) : Impl :=
  mkImpl (kind s) (executing s) (done s) (maxPeers s) (taskException s)
    (peerSet s) (acceptThread s) (improveThread s) (connectThread s)
    (peers s) v (serverPool s) (p2pSub s) (halted s) (sent s).

Definition set_serverPool v (s : Impl) : Impl :=
  mkImpl (kind s) (executing s) (done s) (maxPeers s) (taskException s)
    (peerSet s) (acceptThread s) (improveThread s) (connectThread s)
    (peers s) (bookkeeper s) v (p2pSub s) (halted s) (sent s).

Definition set_p2pSub v (s : Impl) : Impl :=
  mkImpl (kind s) (executing s) (done s) (maxPeers s) (taskException s)
    (peerSet s) (acceptThread s) (improveThread s) (connectThread s)
    (peers s) (bookkeeper s) (serverPool s) v (halted s) (sent s).

Definition set_halted v (s : Impl) : Impl :=
  mkImpl (kind s) (executing s) (done s) (maxPeers s) (taskException s)
    (peerSet s) (acceptThread s) (improveThread s) (connectThread s)
    (peers s) (bookkeeper s) (serverPool s) (p2pSub s) v (sent s).

Definition set_sent v (s : Impl) : Impl :=
  mkImpl (kind s) (executing s) (done s) (maxPeers s) (taskException s)
    (peerSet s) (acceptThread s) (improveThread s) (connectThread s)
    (peers s) (bookkeeper s) (serverPool s) (p2pSub s) (halted s) v.

(** The constructors: nothing runs, no peer is managed. *)
Definition new (k : Kind) (maxPeers : Z) (pool : list SockAddr) (u : U) : Impl :=
  mkImpl k false false maxPeers None [] false false false ∅ Bookkeeper.new
         pool u [] [].

(** Results of code that may throw: the state reached comes with the
    exception.  [Terminate] is a call of [std::terminate]. *)
Inductive Res (A : Type) :=
| Ok (a : A) (s : Impl)
| Throw (e : Exception) (s : Impl)
| Terminate.
Arguments Ok {A}.
Arguments Throw {A}.
Arguments Terminate {A}.

Definition M (A : Type) := Impl -> Res A.

Definition ret {A} (a : A) : M A := fun s => Ok a s.

Definition bind {A B} (m : M A) (k : A -> M B) : M B :=
  fun s => match m s with
           | Ok a s' => k a s'
           | Throw e s' => Throw e s'
           | Terminate => Terminate
           end.

Definition throw {A} (e : Exception) : M A := fun s => Throw e s.

(** [try { m } catch (const std::exception& ex) { h ex }] *)
Definition try_catch {A} (m : M A) (h : Exception -> M A) : M A :=
  fun s => match m s with
           | Throw e s' => h e s'
           | r => r
           end.

Definition modify (f : Impl -> Impl) : M unit := fun s => Ok tt (f s).

Notation "m ;;; k" := (bind m (fun _ => k))
  (at level 100, right associativity).

(** The state a call leaves behind. *)
Definition after {A} (r : Res A) (s0 : Impl) : Impl :=
  match r with
  | Ok _ s => s
  | Throw _ s => s
  | Terminate => s0
  end.

(** [peer.halt()] *)
Definition halt_peer (peer : Peer SockAddr) (s : Impl) : Impl :=
  set_halted (halted s ++ [rmtAddr peer]) s.

(** A PDU handed to a peer. *)
Definition send (peer : Peer SockAddr) (pdu : Pdu) (s : Impl) : Impl :=
  set_sent (sent s ++ [(rmtAddr peer, pdu)]) s.

(** [int maxPeers] in a comparison with the [size_t] of [peerSet.size()]. *)
Definition as_size_t (x : Z) : Z := u64 x.

(** [std::make_exception_ptr(ex)] for [ex] of type [const std::exception&]:
    the pointer refers to a copy of the [std::exception] part of [ex], an
    object of class [std::exception] that has neither the class nor the
    message of [ex]. *)
Definition make_exception_ptr (ex : Exception) : Exception := STD_EXCEPTION.

(** [setException]: sets the exception once, to
    [std::make_exception_ptr(ex)]. *)
Definition setException (ex : Exception) (s : Impl) : Impl :=
  match taskException s with
  | None => set_taskException (Some (make_exception_ptr ex)) s
  | Some _ => s
  end.

(** [waitUntilDone]: [None] while the call waits on the condition variable. *)
Definition waitUntilDone (s : Impl) : option (Res unit) :=
  match done s, taskException s with
  | false, None => None
  | false, Some ex => Some (Throw ex s)
  | true, _ => Some (Ok tt s)
  end.

(** [add] *)
Definition add (peer : Peer SockAddr) : M unit := fun s =>
  let s1 := set_bookkeeper (Bookkeeper.add peer (bookkeeper s)) s in
  match PeerSet.activate peer (peerSet s1) with
  | inr (_, ps) =>
      Ok tt (set_peers (<[rmtAddr peer := peer]> (peers s1)) (set_peerSet ps s1))
  | inl ex =>
      Throw (NESTED (RUNTIME_ERROR "Couldn't add peer") ex)
            (set_bookkeeper (Bookkeeper.erase peer (bookkeeper s1)) s1)
  end.

(** [tryAdd2] of [PubP2pMgr] and of [SubP2pMgr] *)
Definition tryAdd2 (peer : Peer SockAddr) : M bool := fun s =>
  match kind s with
  | PubP2pMgr => Ok true s
  | SubP2pMgr =>
      let rmtIsPathToPub := isPathToPub peer in
      let '(numPath, numNoPath) := Bookkeeper.getPubPathCounts (bookkeeper s) in
      if Bool.eqb (numPath <? numNoPath) rmtIsPathToPub
      then match Bookkeeper.getWorstPeerWith rmtIsPathToPub (bookkeeper s) with
           | Some worst => (add peer ;;; ret true) (halt_peer worst s)
           | None => Ok false s
           end
      else Ok false s
  end.

(** [tryAdd] *)
Definition tryAdd (peer : Peer SockAddr) : M bool := fun s =>
  let numPeers := Z.of_nat (PeerSet.size (peerSet s)) in
  if numPeers <? as_size_t (maxPeers s) then (add peer ;;; ret true) s
  else if numPeers >? as_size_t (maxPeers s) then Ok false s
  else tryAdd2 peer s.

(** [SubP2pMgr::reassignPending]: the loop body, then the loop over
    [bookkeeper.getRequested(peer)]. *)
Definition reassignOne (s : Impl) (chunkId : NoteReq) : Impl :=
  match Bookkeeper.popBestAlt chunkId (bookkeeper s) with
  | (Some altPeer, bk) =>
      set_bookkeeper (Bookkeeper.requested altPeer chunkId bk)
                     (send altPeer (Request chunkId) s)
  | (None, bk) => set_bookkeeper bk s
  end.

Definition reassignPending (peer : Peer SockAddr) (s : Impl) : Impl :=
  fold_left reassignOne (Bookkeeper.getRequested peer (bookkeeper s)) s.

(** What the loop body hands to a peer for one request: the request, for the
    best alternate candidate, if there is one. *)
Definition reissued (bk : Bookkeeper.t SockAddr) (r : NoteReq)
  : list (SockAddr * Pdu) :=
  match Bookkeeper.bestAlt r bk with
  | Some alt => [(rmtAddr alt, Request r)]
  | None => []
  end.

(** [serverPool.consider(srvrAddr)] *)
Definition consider (srvrAddr : SockAddr) (s : Impl) : Impl :=
  set_serverPool (serverPool s ++ [srvrAddr]) s.

(** [stopped2] of [PubP2pMgr] and of [SubP2pMgr] *)
Definition stopped2 (peer : Peer SockAddr) (s : Impl) : Impl :=
  match kind s with
  | PubP2pMgr => s
  | SubP2pMgr => reassignPending peer (consider (rmtAddr peer) s)
  end.

(** [stopped]: called by the peer set for a peer that stopped. *)
Definition stopped (peer : Peer SockAddr) (s : Impl) : Impl :=
  if done s then s
  else
    let s1 := stopped2 peer s in
    let s2 := set_bookkeeper (Bookkeeper.erase peer (bookkeeper s1)) s1 in
    set_peers (delete (rmtAddr peer) (peers s2)) s2.

(** A peer of the set stops: the set drops it and calls [stopped]. *)
Definition peerStopped (peer : Peer SockAddr) (s : Impl) : Impl :=
  stopped peer (set_peerSet (PeerSet.remove peer (peerSet s)) s).

(** [SubP2pMgr::shouldRequest], for a product index and for a segment: the
    two overloads differ in the type of the item only. *)
Definition shouldRequest (rmtAddr : SockAddr) (item : NoteReq) : M bool := fun s =>
  match peers s !! rmtAddr with
  | None => Throw OUT_OF_RANGE s
  | Some peer =>
      let '(should, bk) := Bookkeeper.shouldRequest peer item (bookkeeper s) in
      let s1 := set_bookkeeper bk s in
      if should then Ok (sub_shouldRequest (p2pSub s1) item) s1
      else Ok false s1
  end.

(** [SubP2pMgr::hereIs], for product information and for a segment. *)
Definition hereIs (rmtAddr : SockAddr) (data : Data) : M bool := fun s =>
  match peers s !! rmtAddr with
  | None => Throw OUT_OF_RANGE s
  | Some peer =>
      let '(wasRequested, bk) :=
        Bookkeeper.received peer (getId data) (bookkeeper s) in
      let s1 := set_bookkeeper bk s in
      if negb wasRequested then Ok false s1
      else
        let '(wasNeeded, u) := sub_hereIsP2p (p2pSub s1) data in
        let s2 := set_p2pSub u s1 in
        if negb wasNeeded then Ok false s2
        else Ok true (set_sent (sent s2 ++ PeerSet.notify (getId data) peer (peerSet s2)) s2)
  end.

(** [PubP2pMgr::getProdInfo] and [getMemSeg]: the bookkeeping part. *)
Definition served (remote : SockAddr) : M unit := fun s =>
  match peers s !! remote with
  | None => Throw OUT_OF_RANGE s
  | Some peer => Ok tt (set_bookkeeper (Bookkeeper.served peer (bookkeeper s)) s)
  end.

(** Starting a thread assigns to the [std::thread] member; assigning to a
    joinable [std::thread] calls [std::terminate]. *)
Definition startAccepter : M unit := fun s =>
  if acceptThread s then Terminate else Ok tt (set_acceptThread true s).

Definition startImprover : M unit := fun s =>
  if improveThread s then Terminate else Ok tt (set_improveThread true s).

Definition startConnector : M unit := fun s =>
  if connectThread s then Terminate else Ok tt (set_connectThread true s).

(** [stopImprover], [stopConnector], [stopAccepter] *)
Definition stopImprover (env : Env) : M unit := fun s =>
  if improveThread s
  then let s1 := set_improveThread false s in
       if negb (cancelImprover env =? 0)
       then Throw (SYSTEM_ERROR "Couldn't cancel improvement thread" (cancelImprover env)) s1
       else Ok tt s1
  else Ok tt s.

Definition stopConnector (env : Env) : M unit := fun s =>
  if connectThread s
  then let s1 := set_connectThread false s in
       if negb (cancelConnector env =? 0)
       then Throw (SYSTEM_ERROR "Couldn't cancel connect thread" (cancelConnector env)) s1
       else Ok tt s1
  else Ok tt s.

Definition stopAccepter : M unit := fun s =>
  if acceptThread s then Ok tt (set_acceptThread false s) else Ok tt s.

(** [startTasks2] and [stopTasks2] of the two classes *)
Definition startTasks2 (env : Env) : M unit := fun s =>
  match kind s with
  | PubP2pMgr => if maxPeers s >? 1 then startImprover s else Ok tt s
  | SubP2pMgr =>
      (startConnector ;;;
       try_catch (fun s' => if maxPeers s' >? 1 then startImprover s' else Ok tt s')
                 (fun ex => stopConnector env ;;; throw ex)) s
  end.

Definition stopTasks2 (env : Env) : M unit := fun s =>
  match kind s with
  | PubP2pMgr =>
      try_catch (stopImprover env)
        (fun ex => throw (NESTED (RUNTIME_ERROR "Couldn't stop improvement thread") ex)) s
  | SubP2pMgr => (stopImprover env ;;; stopConnector env) s
  end.

(** [startTasks] and [stopTasks] *)
Definition startTasks (env : Env) : M unit :=
  startAccepter ;;;
  try_catch (startTasks2 env) (fun ex => stopAccepter ;;; throw ex).

Definition stopTasks (env : Env) : M unit :=
  try_catch (stopTasks2 env ;;; stopAccepter)
    (fun ex => throw (NESTED (RUNTIME_ERROR "Couldn't stop tasks") ex)).

(** [peerSet.halt()] terminates all peers. *)
Definition peerSet_halt (s : Impl) : Impl :=
  set_halted (halted s ++ List.map rmtAddr (peerSet s)) s.

(** [shutdown] *)
Definition shutdown (env : Env) : M unit :=
  stopTasks env ;;;
  modify peerSet_halt ;;;
  modify (set_executing false).

(** [operator()()] up to its wait in [waitUntilDone]: [true] when the call
    now waits, [false] when it has returned at once. *)
Definition enter (env : Env) : M bool := fun s =>
  if executing s then Throw (LOGIC_ERROR "Already called") s
  else if negb (done s) then (startTasks env ;;; ret true) s
  else Ok false s.

(** [operator()()] from the wait on: [None] while [waitUntilDone] waits;
    both handlers shut down and rethrow. *)
Definition leave (env : Env) (s : Impl) : option (Res unit) :=
  match waitUntilDone s with
  | None => None
  | Some waited =>
      Some (try_catch ((fun _ => waited) ;;; shutdown env)
                      (fun ex => shutdown env ;;; throw ex) s)
  end.

(** [halt] *)
Definition halt (s : Impl) : Impl := set_done true s.

(** One turn of the loop of [accept]: a peer was accepted. *)
Definition accept (peer : Peer SockAddr) (s : Impl) : Impl :=
  match tryAdd peer s with
  | Ok success s1 =>
      match kind s with
      | PubP2pMgr => s1
      | SubP2pMgr => if success then s1 else consider (rmtAddr peer) s1
      end
  | Throw ex s1 => setException ex s1
  | Terminate => s
  end.

(** What [factory.connect] did: a peer, or an exception; [fatal] says
    whether the handler of [std::system_error] rethrows it. *)
Inductive Connected :=
| ConnectedTo (pathToPub : bool)
| ConnectFailed (fatal : bool) (ex : Exception).

(** One turn of the loop of [SubP2pMgr::connect], run without interruption:
    [waitToConnect] lets it pass and the pool gives [srvrAddr].  The turn as
    the thread makes it, call by call and with the other tasks in between,
    is [connect_step] below. *)
Definition connect (outcome : Connected) (s : Impl) : Impl :=
  if Z.of_nat (PeerSet.size (peerSet s)) >=? as_size_t (maxPeers s) then s
  else
    match serverPool s with
    | [] => s
    | srvrAddr :: pool =>
        let s1 := set_serverPool pool s in
        match outcome with
        | ConnectedTo pathToPub =>
            match tryAdd (mkPeer srvrAddr pathToPub) s1 with
            | Ok success s2 => if success then s2 else consider srvrAddr s2
            | Throw _ s2 => consider srvrAddr s2
            | Terminate => s
            end
        | ConnectFailed true ex => setException ex s1
        | ConnectFailed false _ => consider srvrAddr s1
        end
    end.

(** One wake-up of the loop of [improve]. *)
Definition improve (timedOut : bool) (s : Impl) : Impl :=
  if negb timedOut || (Z.of_nat (PeerSet.size (peerSet s)) <? as_size_t (maxPeers s))
  then set_bookkeeper (Bookkeeper.resetCounts (bookkeeper s)) s
  else match Bookkeeper.getWorstPeer (bookkeeper s) with
       | Some peer => halt_peer peer s
       | None => s
       end.

(** What the invariants of the manager are about: which class it is, its
    [maxPeers], its peer set and its [executing] flag. *)
Definition core (s : Impl) : Kind * Z * PeerSet.t SockAddr * bool :=
  (kind s, maxPeers s, peerSet s, executing s).

(** A call keeps the core when, started with [executing] false, every state
    it can leave behind has the core of the state it started in. *)
Definition keeps {A} (m : M A) : Prop :=
  forall s, executing s = false ->
            match m s with
            | Ok _ s' => core s' = core s
            | Throw _ s' => core s' = core s
            | Terminate => True
            end.

(** The bound of the peer set: [maxPeers] for a publisher, [maxPeers + 1] for
    a subscriber. *)
Definition bounded (s : Impl) : Prop :=
  Z.of_nat (PeerSet.size (peerSet s))
  <= match kind s with
     | PubP2pMgr => maxPeers s
     | SubP2pMgr => maxPeers s + 1
     end.

(** The invariant of the executions of a manager of class [k] built with
    [maxPeers = m]. *)
Definition inv (k : Kind) (m : Z) (s : Impl) : Prop :=
  kind s = k /\ maxPeers s = m /\ executing s = false /\ bounded s.

(** The two latches of the manager: [done], written by [halt] only, and
    [taskException], written by [setException] only.  A call leaves them
    alone when every state it can leave behind has those of the state it
    started in. *)
Definition latches (s : Impl) : bool * option Exception :=
  (done s, taskException s).

Definition latched {A} (m : M A) : Prop :=
  forall s, match m s with
            | Ok _ s' => latches s' = latches s
            | Throw _ s' => latches s' = latches s
            | Terminate => True
            end.

(** The addresses a subscriber knows: those of its pool of servers and
    those of the peers it holds. *)
Definition addresses (s : Impl)
  : list SockAddr * gmap SockAddr (Peer SockAddr) :=
  (serverPool s, peers s).

Definition known (a : SockAddr) (s : Impl) : Prop :=
  a ∈ serverPool s \/ is_Some (peers s !! a).

(** A call leaves the addresses alone. *)
Definition keeps_addresses {A} (m : M A) : Prop :=
  forall s, match m s with
            | Ok _ s' => addresses s' = addresses s
            | Throw _ s' => addresses s' = addresses s
            | Terminate => True
            end.

(** The executions of a manager: each step is one of the calls above, made by
    the application, by a task of the manager or by the peer set. *)
Inductive step (env : Env) : Impl -> Impl -> Prop :=
| step_enter s : step env s (after (enter env s) s)
| step_leave s r : leave env s = Some r -> step env s (after r s)
| step_halt s : step env s (halt s)
| step_setException ex s : step env s (setException ex s)
| step_accept peer s : acceptThread s = true -> step env s (accept peer s)
| step_connect outcome s :
    kind s = SubP2pMgr -> connectThread s = true -> step env s (connect outcome s)
| step_improve timedOut s : improveThread s = true -> step env s (improve timedOut s)
| step_peerStopped peer s :
    PeerSet.contains peer (peerSet s) = true -> step env s (peerStopped peer s)
| step_shouldRequest a item s :
    kind s = SubP2pMgr -> step env s (after (shouldRequest a item s) s)
| step_hereIs a data s :
    kind s = SubP2pMgr -> step env s (after (hereIs a data s) s)
| step_served a s :
    kind s = PubP2pMgr -> step env s (after (served a s) s).

Inductive reachable (env : Env) (s0 : Impl) : Impl -> Prop :=
| reach_refl : reachable env s0 s0
| reach_step s s' : reachable env s0 s -> step env s s' -> reachable env s0 s'.

(** The connect thread between the calls it makes.  [SubP2pMgr::connect]
    keeps the address it popped in a local, [srvrAddr], across
    [factory.connect], [tryAdd] and [serverPool.consider]; it holds the
    mutex in none of the three for the whole turn, so the other tasks and
    calls run in between, and [stopConnector] cancels and joins the thread
    with the address in its hands.  A state of these finer executions is the
    manager with that local: [Some a] from the [pop] of [a] until the turn
    of the loop ends.  [waitToConnect] has returned some time before the
    [pop], so the [pop] is not tied to the size of the peer set. *)
Inductive connect_step (env : Env)
  : Impl * option SockAddr -> Impl * option SockAddr -> Prop :=
| cs_step s s' d :
    step env s s' ->
    connect_step env (s, d) (s', if connectThread s' then d else None)
| cs_pop s a pool :
    kind s = SubP2pMgr -> connectThread s = true -> serverPool s = a :: pool ->
    connect_step env (s, None) (set_serverPool pool s, Some a)
| cs_tryAdd s a pathToPub :
    connectThread s = true ->
    connect_step env (s, Some a)
      (match tryAdd (mkPeer a pathToPub) s with
       | Ok true s' => (s', None)
       | r => (after r s, Some a)
       end)
| cs_consider s a :
    connectThread s = true ->
    connect_step env (s, Some a) (consider a s, None)
| cs_fatal s a ex :
    connectThread s = true ->
    connect_step env (s, Some a) (setException ex s, None).

Inductive connect_reachable (env : Env) (c0 : Impl * option SockAddr)
  : Impl * option SockAddr -> Prop :=
| cr_refl : connect_reachable env c0 c0
| cr_step c c' :
    connect_reachable env c0 c -> connect_step env c c' ->
    connect_reachable env c0 c'.

End WithSockAddr.

Arguments Impl SockAddr {_ _} U.
Arguments Ok {SockAddr _ _ U A}.
Arguments Throw {SockAddr _ _ U A}.
Arguments Terminate {SockAddr _ _ U A}.

End P2pMgr.

(** ** Sample inputs *)

(** ** [P2pMgr::Impl::isFatal] (main/p2p-old/P2pMgr.cpp) *)

Module Fatal.

(** What [isFatal] reads of an exception: which of its handlers catches it
    (the first of [std::system_error], [std::runtime_error] and
    [std::exception] that its class derives from); for a [std::system_error]
    the [default_error_condition()] of its code, as whether the category is
    [std::generic_category()] and the value; and what
    [std::rethrow_if_nested] does with it.  [NotNested]: the class does not
    derive from [std::nested_exception], nothing is thrown.  [NestedNull]:
    it does, with a null nested pointer, and [rethrow_nested] calls
    [std::terminate].  [NestedStd]: a [std::exception] is thrown.
    [NestedOther]: an object of another type is thrown. *)
Inductive StdException :=
| SystemError (generic : bool) (errNum : Z) (nested : Nested)
| RuntimeError (nested : Nested)
| OtherException (nested : Nested)
with Nested :=
| NotNested
| NestedNull
| NestedStd (inner : StdException)
| NestedOther.

Definition nested_ptr (ex : StdException) : Nested :=
  match ex with
  | SystemError _ _ n => n
  | RuntimeError n => n
  | OtherException n => n
  end.

(** The constants of [<cerrno>] that [isFatal] names. *)
Record Errno := mkErrno {
  ECONNREFUSED : Z;
  ECONNRESET : Z;
  ENETUNREACH : Z;
  ENETRESET : Z;
  ENETDOWN : Z;
  EHOSTUNREACH : Z
}.

(** Their values on Linux. *)
Definition linux : Errno := mkErrno 111 104 101 102 100 113.

(** How a call of [isFatal] ends: it returns, the nested object (no
    [std::exception]) passes its handlers, or [std::terminate] is called. *)
Inductive Outcome :=
| Return (fatal : bool)
| Uncaught
| StdTerminate.

(** [isFatal].  A [std::system_error] whose condition is not in the generic
    category leaves its handler without a [return] and reaches the final
    [return true]. *)
Fixpoint isFatal (E : Errno) (ex : StdException) : Outcome :=
  match
    match ex with
    | SystemError _ _ n => n
    | RuntimeError n => n
    | OtherException n => n
    end
  with
  | NotNested => Return true
  | NestedNull => StdTerminate
  | NestedOther => Uncaught
  | NestedStd inner =>
      match inner with
      | SystemError generic errNum _ =>
          if generic
          then Return (negb (errNum =? ECONNREFUSED E)
                       && negb (errNum =? ECONNRESET E)
                       && negb (errNum =? ENETUNREACH E)
                       && negb (errNum =? ENETRESET E)
                       && negb (errNum =? ENETDOWN E)
                       && negb (errNum =? EHOSTUNREACH E))
          else Return true
      | RuntimeError _ => Return false
      | OtherException _ => isFatal E inner
      end
  end.

(** The exceptions nested below an exception, outermost first. *)
Fixpoint nesting (ex : StdException) : list StdException :=
  match
    match ex with
    | SystemError _ _ n => n
    | RuntimeError n => n
    | OtherException n => n
    end
  with
  | NestedStd inner => inner :: nesting inner
  | NotNested => []
  | NestedNull => []
  | NestedOther => []
  end.

(** An exception that neither of the first two handlers catches. *)
Definition is_other (ex : StdException) : bool :=
  match ex with
  | OtherException _ => true
  | _ => false
  end.

(** The six error numbers. *)
Definition transient (E : Errno) (errNum : Z) : Prop :=
  errNum = ECONNREFUSED E \/ errNum = ECONNRESET E \/ errNum = ENETUNREACH E
  \/ errNum = ENETRESET E \/ errNum = ENETDOWN E \/ errNum = EHOSTUNREACH E.

(** An exception that ends the search with the answer "not fatal": a
    [std::runtime_error] that is no [std::system_error], or a
    [std::system_error] of the generic category with one of the six error
    numbers. *)
Definition benign (E : Errno) (ex : StdException) : Prop :=
  match ex with
  | SystemError generic errNum _ => generic = true /\ transient E errNum
  | RuntimeError _ => True
  | OtherException _ => False
  end.

End Fatal.

(** ** Chunk information (src/main/prod/ChunkInfo.h) *)

Module ChunkInfo.
Section WithProdIndex.

(** [ProdIndex] with its [operator<] and [operator==]. *)
Context {ProdIndex : Type} (index_lt index_eq : ProdIndex -> ProdIndex -> bool).

(** [ChunkIndex] is [uint32_t], [ChunkSize] is [uint16_t]. *)
Record t := mk {
  prodIndex : ProdIndex;
  chunkIndex : Z;
  chunkSize : Z
}.

Definition getProdIndex (this : t) : ProdIndex := prodIndex this.
Definition getIndex (this : t) : Z := chunkIndex this.

(** [getSize] returns the 16-bit size as a [ChunkIndex]. *)
Definition getSize (this : t) : Z := u32 (chunkSize this).

(** [operator<] *)
Definition lt (this that : t) : bool :=
  index_lt (prodIndex this) (prodIndex that)
  || (index_eq (prodIndex this) (prodIndex that)
      && (chunkIndex this <? chunkIndex that)).

End WithProdIndex.

Arguments t : clear implicits.
Arguments mk {ProdIndex}.

End ChunkInfo.

(** ** Byte order of integers on the wire ([InetSock], main/inet/Socket.h) *)

Module InetSock.

(** [htons] and [ntohs] of a little-endian host swap the two bytes; [htonl]
    and [ntohl] reverse the four ([InAddr.bswap32]).  On a big-endian host
    all four are the identity. *)
Definition bswap16 (x : Z) : Z :=
  Z.shiftl (Z.land x 255) 8 + Z.land (Z.shiftr x 8) 255.

Definition htons (big_endian_host : bool) (x : Z) : Z :=
  if big_endian_host then x else bswap16 x.

Definition ntohs (big_endian_host : bool) (x : Z) : Z :=
  if big_endian_host then x else bswap16 x.

Definition htonl (big_endian_host : bool) (x : Z) : Z :=
  if big_endian_host then x else InAddr.bswap32 x.

(** A [uint64_t] seen as [uint32_t v32[2]]: [v32[0]] is the word at the
    lower address, the high half on a big-endian host and the low half on a
    little-endian one. *)
Definition v32_0 (big_endian_host : bool) (v64 : Z) : Z :=
  if big_endian_host then u32 (Z.shiftr v64 32) else u32 v64.

Definition v32_1 (big_endian_host : bool) (v64 : Z) : Z :=
  if big_endian_host then u32 v64 else u32 (Z.shiftr v64 32).

Definition of_v32 (big_endian_host : bool) (w0 w1 : Z) : Z :=
  if big_endian_host then w0 * 2 ^ 32 + w1 else w1 * 2 ^ 32 + w0.

(** The overloads of [hton] *)
Definition hton8 (value : Z) : Z := value.

Definition hton16 (be : bool) (value : Z) : Z := htons be value.

Definition hton32 (be : bool) (value : Z) : Z := htonl be value.

Definition hton64 (be : bool) (value : Z) : Z :=
  of_v32 be (hton32 be (u32 (Z.shiftr value 32))) (hton32 be (u32 value)).

(** The overloads of [ntoh] *)
Definition ntoh16 (be : bool) (value : Z) : Z := ntohs be value.

Definition ntoh32 (be : bool) (value : Z) : Z := InAddr.ntohl be value.

Definition ntoh64 (be : bool) (value : Z) : Z :=
  Z.lor (u64 (Z.shiftl (ntoh32 be (v32_0 be value)) 32))
        (ntoh32 be (v32_1 be value)).

(** The bytes of an [n]-byte unsigned integer, least significant first, and
    as they lie in the memory of the host, lowest address first. *)
Fixpoint little_endian (n : nat) (x : Z) : list Z :=
  match n with
  | O => []
  | S n' => x mod 256 :: little_endian n' (x / 256)
  end.

Definition big_endian (n : nat) (x : Z) : list Z := rev (little_endian n x).

Definition in_memory (big_endian_host : bool) (n : nat) (x : Z) : list Z :=
  if big_endian_host then big_endian n x else little_endian n x.

End InetSock.

Module Sample.
Import HycastProto P2pMgr.

(** An upper layer that holds the items it has accepted: it wants an item it
    does not hold, and accepts data once. *)
#[global] Instance holdsItems : P2pSub (list NoteReq) := {|
  sub_shouldRequest u item := negb (bool_decide (item ∈ u));
  sub_hereIsP2p u data :=
    if bool_decide (getId data ∈ u) then (false, u) else (true, getId data :: u)
|}.

(** Thread cancellation succeeds. *)
Definition env0 : Env := mkEnv 0 0.

(** Peers, named by a number for their socket address. *)
Definition peerA : Peer nat := mkPeer 1%nat true.
Definition peerB : Peer nat := mkPeer 2%nat false.
Definition peerC : Peer nat := mkPeer 3%nat false.
Definition peerD : Peer nat := mkPeer 4%nat false.
Definition peerE : Peer nat := mkPeer 5%nat true.

Definition pub2 : Impl nat (list NoteReq) := new PubP2pMgr 2 [] [].
Definition sub2 : Impl nat (list NoteReq) := new SubP2pMgr 2 [] [].
Definition sub4 : Impl nat (list NoteReq) := new SubP2pMgr 4 [] [].

Definition item1 : NoteReq := NR_PROD_INDEX 1.
Definition seg5 : NoteReq := NR_DATA_SEG (mkDataSegId 5 0).
Definition dataSeg5 : Data := TcpSeg (mkDataSegId 5 0) 1000000.

(** A subscriber that has admitted [peerA], and one that has admitted
    [peerA] and [peerB]. *)
Definition subA : Impl nat (list NoteReq) := after (tryAdd peerA sub2) sub2.
Definition subAB : Impl nat (list NoteReq) := after (tryAdd peerB subA) subA.

(** A saturated subscriber with [maxPeers = 4]: one peer with a path to the
    publisher and three without. *)
Definition subABCD : Impl nat (list NoteReq) :=
  let s1 := after (tryAdd peerA sub4) sub4 in
  let s2 := after (tryAdd peerB s1) s1 in
  let s3 := after (tryAdd peerC s2) s2 in
  after (tryAdd peerD s3) s3.

(** A saturated subscriber with [maxPeers = 2] and no peer with a path. *)
Definition subBC : Impl nat (list NoteReq) :=
  let s1 := after (tryAdd peerB sub2) sub2 in
  after (tryAdd peerC s1) s1.

(** A running subscriber with [maxPeers = 2] whose accept thread has taken
    [peerA], [peerB] and [peerC] in turn. *)
Definition subRunning : Impl nat (list NoteReq) := after (enter env0 sub2) sub2.
Definition subAccepted3 : Impl nat (list NoteReq) :=
  accept peerC (accept peerB (accept peerA subRunning)).

(** [peerA] and [peerB] both announced segment (5, 0); the request went to
    [peerA] and was recorded. *)
Definition subAB_requested : Impl nat (list NoteReq) :=
  let s1 := after (shouldRequest 1%nat seg5 subAB) subAB in
  let s2 := set_bookkeeper (Bookkeeper.requested peerA seg5 (bookkeeper s1)) s1 in
  after (shouldRequest 2%nat seg5 s2) s2.

(** A publisher with [maxPeers = 2] that has admitted [peerA] and [peerB]. *)
Definition pubAB : Impl nat (list NoteReq) :=
  let s1 := after (tryAdd peerA pub2) pub2 in
  after (tryAdd peerB s1) s1.

(** The cancellation of the improver fails with [ESRCH]. *)
Definition envNoImprover : Env := mkEnv 3 0.

(** A subscriber with one server in its pool, and what one turn of its
    connect loop that reaches the server leaves. *)
Definition subPool7 : Impl nat (list NoteReq) := new SubP2pMgr 2 [7%nat] [].
Definition subConnected7 : Impl nat (list NoteReq) :=
  connect (ConnectedTo true) (after (enter env0 subPool7) subPool7).

End Sample.

(* ===================================================================== *)
(** * Part II: the properties                                              *)
(* ===================================================================== *)

(** ** The size of a data segment *)

Section DataSegSize.
Import HycastProto.

Lemma CANON_DATASEG_SIZE_value : DataSeg.CANON_DATASEG_SIZE = 1444.
Proof. reflexivity. Qed.

(** C4, as stated, fails: the canonical size of the code is 1444 bytes, so a
    segment at offset 0 of a 2000-byte product has 1444 bytes, not
    min (2000 - 0, 1448) = 1448. *)
Lemma size_not_min_1448 :
  0 <= 2000 /\ DataSeg.size 2000 0 <> Z.min (2000 - 0) 1448.
Proof. split; [lia | vm_compute; discriminate]. Qed.

(** The narrowing of the difference to 16 bits shows when the rest of the
    product is 64 KiB or more. *)
Lemma size_truncates : DataSeg.size 65636 0 = 100.
Proof. reflexivity. Qed.

(** C4, amended: for offset <= prodSize with a rest that fits the 16-bit
    [SegSize], the payload length is min (prodSize - offset, 1444). *)
Theorem size_is_min_canon (prodSize offset : Z) :
  0 <= offset <= prodSize ->
  prodSize < 2 ^ 32 ->
  prodSize - offset < 2 ^ 16 ->
  DataSeg.size prodSize offset = Z.min (prodSize - offset) 1444.
Proof.
  intros Hoff Hsz Hrest. unfold DataSeg.size, u16, u32.
  rewrite (Z.mod_small (prodSize - offset) (2 ^ 32)) by lia.
  rewrite (Z.mod_small (prodSize - offset) (2 ^ 16)) by lia.
  rewrite CANON_DATASEG_SIZE_value.
  destruct (Z.gtb_spec (prodSize - offset) 1444); lia.
Qed.

Lemma size_is_min_canon_witness :
  0 <= 2000 <= 3000 /\ 3000 < 2 ^ 32 /\ 3000 - 2000 < 2 ^ 16 /\
  DataSeg.size 3000 2000 = Z.min (3000 - 2000) 1444.
Proof.
  split; [lia | split; [lia | split; [lia |]]].
  apply (size_is_min_canon 3000 2000); lia.
Defined.

End DataSegSize.

(** ** The order of Internet addresses *)

Section InAddrOrder.
Import InAddr.

(** [bswap32] through division: the four bytes in reverse order. *)
Lemma bswap32_bytes (x : Z) :
  bswap32 x = (x mod 256) * 2 ^ 24 + ((x / 2 ^ 8) mod 256) * 2 ^ 16
              + ((x / 2 ^ 16) mod 256) * 2 ^ 8 + (x / 2 ^ 24) mod 256.
Proof.
  unfold bswap32.
  change 255 with (Z.ones 8).
  rewrite !Z.land_ones, !Z.shiftl_mul_pow2, !Z.shiftr_div_pow2 by lia.
  reflexivity.
Qed.

Lemma bswap32_inj (x y : Z) :
  0 <= x < 2 ^ 32 -> 0 <= y < 2 ^ 32 -> bswap32 x = bswap32 y -> x = y.
Proof.
  intros Hx Hy. rewrite !bswap32_bytes.
  change (2 ^ 32) with 4294967296 in *.
  change (2 ^ 24) with 16777216. change (2 ^ 16) with 65536.
  change (2 ^ 8) with 256.
  intros E. Z.div_mod_to_equations. lia.
Qed.

Lemma ntohl_inj (be : bool) (x y : Z) :
  0 <= x < 2 ^ 32 -> 0 <= y < 2 ^ 32 -> ntohl be x = ntohl be y -> x = y.
Proof. destruct be; simpl; [tauto | apply bswap32_inj]. Qed.

(** [memcmp] against the byte-wise order, for arrays of the compared size. *)
Lemma memcmp_lt (n : nat) : forall a b : list Z,
  length a = n -> length b = n -> (memcmp a b n <? 0) = bytes_lt a b.
Proof.
  induction n as [|n IH]; intros [|x a] [|y b] Ha Hb; simpl in *; try discriminate;
    try reflexivity.
  destruct (Z.eqb_spec x y) as [->|Hne].
  - rewrite Z.ltb_irrefl. simpl. apply IH; congruence.
  - rewrite orb_false_r.
    destruct (Z.ltb_spec (x - y) 0), (Z.ltb_spec x y); try reflexivity; lia.
Qed.

Lemma memcmp_eq (n : nat) : forall a b : list Z,
  length a = n -> length b = n -> (memcmp a b n =? 0) = true <-> a = b.
Proof.
  induction n as [|n IH]; intros [|x a] [|y b] Ha Hb; simpl in *; try discriminate.
  - split; reflexivity.
  - destruct (Z.eqb_spec x y) as [->|Hne].
    + rewrite IH by congruence. split; [intros ->; reflexivity | congruence].
    + split; [intros E; apply Z.eqb_eq in E; lia | congruence].
Qed.

Lemma bytes_lt_irrefl (a : list Z) : bytes_lt a a = false.
Proof.
  induction a as [|x a IH]; simpl; [reflexivity |].
  rewrite Z.ltb_irrefl, Z.eqb_refl, IH. reflexivity.
Qed.

Lemma bytes_lt_trans : forall a b c : list Z,
  bytes_lt a b = true -> bytes_lt b c = true -> bytes_lt a c = true.
Proof.
  induction a as [|x a IH]; intros [|y b] [|z c]; simpl; try discriminate;
    try reflexivity.
  intros H1 H2.
  apply orb_true_iff in H1. apply orb_true_iff in H2. apply orb_true_iff.
  destruct H1 as [H1|H1], H2 as [H2|H2];
    rewrite ?andb_true_iff, ?Z.ltb_lt, ?Z.eqb_eq in *.
  - left. lia.
  - left. lia.
  - left. lia.
  - right. split; [lia | apply (IH b c); tauto].
Qed.

Lemma bytes_lt_total : forall a b : list Z,
  bytes_lt a b = true \/ a = b \/ bytes_lt b a = true.
Proof.
  induction a as [|x a IH]; intros [|y b]; simpl; auto.
  destruct (Z.lt_total x y) as [L|[E|G]].
  - left. apply orb_true_iff. left. apply Z.ltb_lt, L.
  - subst y. rewrite Z.ltb_irrefl, Z.eqb_refl. simpl.
    destruct (IH b) as [L|[E|G]]; [left | right; left | right; right]; congruence.
  - right. right. apply orb_true_iff. left. apply Z.ltb_lt, G.
Qed.

(** [std::string::operator<] is [String.ltb]: a strict total order. *)
Lemma ascii_compare_trans (a b c : ascii) :
  Ascii.compare a b = Lt -> Ascii.compare b c = Lt -> Ascii.compare a c = Lt.
Proof.
  unfold Ascii.compare. rewrite !N.compare_lt_iff. apply N.lt_trans.
Qed.

Lemma string_compare_refl (x : string) : String.compare x x = Eq.
Proof.
  induction x as [|a x IH]; simpl; [reflexivity |].
  unfold Ascii.compare. rewrite N.compare_refl. exact IH.
Qed.

Lemma string_compare_trans : forall x y z : string,
  String.compare x y = Lt -> String.compare y z = Lt -> String.compare x z = Lt.
Proof.
  induction x as [|a x IH]; intros [|b y] [|c z]; simpl; try discriminate;
    try reflexivity.
  destruct (Ascii.compare a b) eqn:Eab; try discriminate;
    destruct (Ascii.compare b c) eqn:Ebc; try discriminate; intros H1 H2.
  - apply Ascii.compare_eq_iff in Eab, Ebc. subst.
    unfold Ascii.compare. rewrite N.compare_refl. eauto.
  - apply Ascii.compare_eq_iff in Eab. subst. rewrite Ebc. reflexivity.
  - apply Ascii.compare_eq_iff in Ebc. subst. rewrite Eab. reflexivity.
  - rewrite (ascii_compare_trans a b c Eab Ebc). reflexivity.
Qed.

Lemma string_ltb_irrefl (x : string) : String.ltb x x = false.
Proof. unfold String.ltb. rewrite string_compare_refl. reflexivity. Qed.

Lemma string_ltb_trans (x y z : string) :
  String.ltb x y = true -> String.ltb y z = true -> String.ltb x z = true.
Proof.
  unfold String.ltb.
  destruct (String.compare x y) eqn:E1; try discriminate.
  destruct (String.compare y z) eqn:E2; try discriminate.
  rewrite (string_compare_trans x y z E1 E2). reflexivity.
Qed.

Lemma string_ltb_total (x y : string) :
  String.ltb x y = true \/ x = y \/ String.ltb y x = true.
Proof.
  unfold String.ltb. rewrite (String.compare_antisym y x).
  destruct (String.compare x y) eqn:E; simpl; auto.
  right. left. apply String.compare_eq_iff, E.
Qed.

Lemma string_not_gt_not_eq (x y : string) :
  negb (String.ltb y x) && negb (String.eqb y x) = String.ltb x y.
Proof.
  unfold String.ltb. rewrite (String.compare_antisym y x).
  destruct (String.compare x y) eqn:E; simpl.
  - apply String.compare_eq_iff in E. subst. rewrite String.eqb_refl. reflexivity.
  - destruct (String.eqb_spec y x) as [->|]; [|reflexivity].
    rewrite string_compare_refl in E. discriminate.
  - reflexivity.
Qed.

Lemma bytes_lt_asym (a b : list Z) :
  bytes_lt a b = true -> bytes_lt b a = false.
Proof.
  intros L. destruct (bytes_lt b a) eqn:G; [|reflexivity].
  rewrite <- (bytes_lt_irrefl a). symmetry. exact (bytes_lt_trans a b a L G).
Qed.

Lemma wf_In4Addr (s : Z) : wf (In4Addr s) = true -> 0 <= s < 2 ^ 32.
Proof. simpl. rewrite andb_true_iff, Z.leb_le, Z.ltb_lt. tauto. Qed.

Lemma wf_In6Addr (l : list Z) : wf (In6Addr l) = true -> length l = 16%nat.
Proof. simpl. rewrite andb_true_iff, Nat.eqb_eq. tauto. Qed.

(** The double dispatch computes the order of the specification. *)
Lemma lt_is_spec_lt (be : bool) (a b : Impl) :
  wf a = true -> wf b = true -> lt be a b = spec_lt be a b.
Proof.
  intros Wa Wb. destruct a as [x|x|x], b as [y|y|y]; try reflexivity.
  - apply wf_In4Addr in Wa, Wb. unfold lt, spec_lt; simpl.
    destruct (Z.ltb_spec (ntohl be y) (ntohl be x)) as [L|L]; simpl.
    + symmetry. apply Z.ltb_ge. lia.
    + destruct (Z.eqb_spec y x) as [->|Hne]; simpl.
      * symmetry. apply Z.ltb_irrefl.
      * symmetry. apply Z.ltb_lt.
        assert (ntohl be x <> ntohl be y)
          by (intros E; apply Hne; symmetry; eapply ntohl_inj; eauto).
        lia.
  - apply wf_In6Addr in Wa, Wb. unfold lt, spec_lt; simpl.
    rewrite (memcmp_lt 16 y x Wb Wa).
    destruct (bytes_lt_total x y) as [L|[E|G]].
    + rewrite L, (bytes_lt_asym x y L). simpl.
      destruct (memcmp y x 16 =? 0) eqn:E0; [|reflexivity].
      apply (memcmp_eq 16 y x Wb Wa) in E0. subst.
      rewrite bytes_lt_irrefl in L. discriminate.
    + subst y. rewrite bytes_lt_irrefl. simpl.
      assert (E0 : (memcmp x x 16 =? 0) = true) by (apply (memcmp_eq 16); auto).
      rewrite E0. reflexivity.
    + rewrite G, (bytes_lt_asym y x G). reflexivity.
  - unfold lt, spec_lt; simpl. apply string_not_gt_not_eq.
Qed.

Lemma spec_lt_irrefl (be : bool) (a : Impl) : spec_lt be a a = false.
Proof.
  destruct a; simpl;
    [apply Z.ltb_irrefl | apply bytes_lt_irrefl | apply string_ltb_irrefl].
Qed.

Lemma spec_lt_trans (be : bool) (a b c : Impl) :
  spec_lt be a b = true -> spec_lt be b c = true -> spec_lt be a c = true.
Proof.
  destruct a as [x|x|x], b as [y|y|y], c as [z|z|z]; simpl;
    try discriminate; try reflexivity.
  - rewrite !Z.ltb_lt. lia.
  - apply bytes_lt_trans.
  - apply string_ltb_trans.
Qed.

Lemma spec_lt_total (be : bool) (a b : Impl) :
  wf a = true -> wf b = true ->
  spec_lt be a b = true \/ a = b \/ spec_lt be b a = true.
Proof.
  intros Wa Wb. destruct a as [x|x|x], b as [y|y|y]; simpl; auto.
  - apply wf_In4Addr in Wa, Wb. rewrite !Z.ltb_lt.
    destruct (Z.lt_total (ntohl be x) (ntohl be y)) as [L|[E|G]]; auto.
    right. left. f_equal. eapply ntohl_inj; eauto.
  - destruct (bytes_lt_total x y) as [L|[E|G]]; auto.
    right. left. congruence.
  - destruct (string_ltb_total x y) as [L|[E|G]]; auto.
    right. left. congruence.
Qed.

(** C9: on the addresses the constructors build, [a < b] is a strict total
    order, and it is the lexicographic order on (tag, payload) with tags
    v4 < v6 < name: [spec_lt] compares different variants by tag, IPv4
    addresses by [ntohl] of their [s_addr], IPv6 addresses byte-wise and
    names as strings. *)
Theorem InAddr_lt_strict_total_lexicographic (be : bool) (a b c : Impl) :
  wf a = true -> wf b = true -> wf c = true ->
  lt be a b = spec_lt be a b
  /\ lt be a a = false
  /\ (lt be a b = true -> lt be b c = true -> lt be a c = true)
  /\ (lt be a b = true \/ a = b \/ lt be b a = true).
Proof.
  intros Wa Wb Wc.
  rewrite !lt_is_spec_lt by assumption.
  split; [reflexivity |].
  split; [apply spec_lt_irrefl |].
  split; [apply spec_lt_trans | apply spec_lt_total; assumption].
Qed.

Lemma InAddr_lt_strict_total_lexicographic_witness :
  wf addr4 = true /\ wf addr6 = true /\ wf addrName = true /\
  lt false addr4 addr6 = spec_lt false addr4 addr6
  /\ lt false addr4 addr4 = false
  /\ (lt false addr4 addr6 = true -> lt false addr6 addrName = true ->
      lt false addr4 addrName = true)
  /\ (lt false addr4 addr6 = true \/ addr4 = addr6 \/ lt false addr6 addr4 = true).
Proof.
  split; [reflexivity | split; [reflexivity | split; [reflexivity |]]].
  apply (InAddr_lt_strict_total_lexicographic false addr4 addr6 addrName);
    reflexivity.
Defined.

End InAddrOrder.

(** ** The linked set *)

Section LinkedSetRemove.
Import LinkedSet.
Context {VALUE : Type}.

Lemma size_set_next (k n : Z) (m : gmap Z (Entry VALUE)) :
  base.size (set_next k n m) = base.size m.
Proof.
  unfold set_next. rewrite <- !size_dom. rewrite dom_alter_L. reflexivity.
Qed.

Lemma size_set_prev (k p : Z) (m : gmap Z (Entry VALUE)) :
  base.size (set_prev k p m) = base.size m.
Proof.
  unfold set_prev. rewrite <- !size_dom. rewrite dom_alter_L. reflexivity.
Qed.

Lemma value_set_next (k n key : Z) (m : gmap Z (Entry VALUE)) :
  value <$> set_next k n m !! key = value <$> m !! key.
Proof.
  unfold set_next. destruct (decide (k = key)) as [->|Hne].
  - rewrite lookup_alter_eq. destruct (m !! key); reflexivity.
  - rewrite lookup_alter_ne by done. reflexivity.
Qed.

Lemma value_set_prev (k p key : Z) (m : gmap Z (Entry VALUE)) :
  value <$> set_prev k p m !! key = value <$> m !! key.
Proof.
  unfold set_prev. destruct (decide (k = key)) as [->|Hne].
  - rewrite lookup_alter_eq. destruct (m !! key); reflexivity.
  - rewrite lookup_alter_ne by done. reflexivity.
Qed.

(** [remove] never erases from the map: whatever it returns, the entry is
    still found and the size is what it was. *)
Lemma remove_leaves_entry (key : Z) (v : VALUE) (s s' : Impl VALUE) :
  remove key s = inr (v, s') ->
  find key s' = Some v /\ size s' = size s.
Proof.
  unfold remove, find, size.
  destruct (map s !! key) as [entry|] eqn:E; [|discriminate].
  destruct (negb (prev entry =? 0)), (negb (next entry =? 0));
    intros [= <- <-]; simpl;
    rewrite ?value_set_prev, ?value_set_next, ?size_set_prev, ?size_set_next, E;
    auto.
Qed.

End LinkedSetRemove.

(** C10 on the code: after [add(1, "a")], [remove(1)] returns the value and
    unlinks the entry from the list, but [find(1)] still returns the value
    (not [nullptr]) and [size()] is still 1 (not 0). *)
Theorem LinkedSet_remove_keeps_entry :
  exists s1 s2 : LinkedSet.Impl string,
    LinkedSet.add 1 "a"%string LinkedSet.new = inr ("a"%string, s1)
    /\ LinkedSet.size s1 = 1%nat
    /\ LinkedSet.remove 1 s1 = inr ("a"%string, s2)
    /\ LinkedSet.find 1 s2 = Some "a"%string
    /\ LinkedSet.size s2 = 1%nat
    /\ LinkedSet.keys s2 = [].
Proof.
  eexists. eexists.
  split; [reflexivity |]. split; [reflexivity |].
  split; [reflexivity |]. split; [reflexivity |].
  split; reflexivity.
Qed.

(** ** The manager: [operator()()], [halt] and the task exception *)

Section ManagerRun.
Import P2pMgr Sample.

(** C1 on the code: nothing sets [executing], so the guard of
    [operator()()] never throws.  A second call made while the first waits
    goes on to [startTasks] and assigns to the joinable accept thread
    ([std::terminate]); a second call made after [halt()] ended the first
    returns at once; a second call made after a task exception ended the
    first starts the tasks again. *)
Theorem second_run_is_no_LogicError :
  exists s1 s2 s3 s4 : Impl nat (list HycastProto.NoteReq),
    enter env0 pub2 = Ok true s1
    /\ executing s1 = false /\ acceptThread s1 = true
    /\ enter env0 s1 = Terminate
    /\ leave env0 (halt s1) = Some (Ok tt s2)
    /\ enter env0 s2 = Ok false s2
    /\ leave env0 (setException (TASK_ERROR 1) s1) = Some (Throw STD_EXCEPTION s3)
    /\ acceptThread s3 = false
    /\ enter env0 s3 = Ok true s4
    /\ acceptThread s4 = true.
Proof.
  do 4 eexists.
  split; [reflexivity |]. split; [reflexivity |]. split; [reflexivity |].
  split; [reflexivity |]. split; [reflexivity |]. split; [reflexivity |].
  split; [reflexivity |]. split; [reflexivity |]. split; reflexivity.
Qed.

End ManagerRun.

Section TaskException.
Import P2pMgr.
Context {SockAddr : Type} `{Countable SockAddr} {U : Type}.
Implicit Types s : Impl SockAddr U.

(** [setException] keeps the first exception. *)
Lemma setException_first (ex : Exception) s :
  taskException s = None ->
  taskException (setException ex s) = Some (make_exception_ptr ex).
Proof. unfold setException. intros ->. reflexivity. Qed.



(** [shutdown] when the cancellations succeed: the threads are joined, every
    peer of the set is halted and [executing] is false. *)
Lemma shutdown_clean (env : Env) s :
  cancelImprover env = 0 -> cancelConnector env = 0 ->
  exists s', shutdown env s = Ok tt s'
    /\ executing s' = false /\ acceptThread s' = false
    /\ improveThread s' = false
    /\ (kind s = SubP2pMgr -> connectThread s' = false)
    /\ halted s' = halted s ++ List.map rmtAddr (peerSet s)
    /\ taskException s' = taskException s /\ done s' = done s.
Proof.
  intros Hi Hc.
  unfold shutdown, stopTasks, stopTasks2, stopImprover, stopConnector,
    stopAccepter, try_catch, bind, modify, throw, peerSet_halt.
  rewrite Hi, Hc. simpl.
  destruct (kind s) eqn:K, (improveThread s) eqn:I, (connectThread s) eqn:C,
    (acceptThread s) eqn:A; simpl; rewrite ?K, ?I, ?C, ?A; simpl;
    rewrite ?K, ?I, ?C, ?A; simpl;
    eexists; (split; [reflexivity |]); simpl; rewrite ?I, ?C, ?A;
    repeat split; auto; discriminate.
Qed.

(** What the cell holds is a plain [std::exception], whatever was reported. *)
Lemma setException_slices (ex : Exception) s :
  taskException s = None -> taskException (setException ex s) = Some STD_EXCEPTION.
Proof. apply setException_first. Qed.


End TaskException.

Section TaskExceptionSamples.
Import P2pMgr Sample.



End TaskExceptionSamples.

(** ** The subscriber: notices, requests and data *)

Section Subscriber.
Import HycastProto P2pMgr.
Context {SockAddr : Type} `{Countable SockAddr} {U : Type} `{P2pSub U}.
Implicit Types s : Impl SockAddr U.
Implicit Types bk : Bookkeeper.t SockAddr.

(** Who receives a broadcast: every peer of the set but the excluded one. *)
Lemma notify_receivers (item : NoteReq) (exclude : Peer SockAddr)
    (ps : PeerSet.t SockAddr) (a : SockAddr) (pdu : Pdu) :
  In (a, pdu) (PeerSet.notify item exclude ps) <->
  pdu = Notice item /\ a <> rmtAddr exclude
  /\ exists q, In q ps /\ rmtAddr q = a.
Proof.
  unfold PeerSet.notify. rewrite in_map_iff. split.
  - intros (q & [= <- <-] & Hq). apply filter_In in Hq as [Hq Hne].
    apply negb_true_iff, bool_decide_eq_false in Hne. eauto.
  - intros (-> & Hne & q & Hq & <-). exists q. split; [reflexivity |].
    apply filter_In. split; [exact Hq |].
    apply negb_true_iff, bool_decide_eq_false. exact Hne.
Qed.

(** An item is outstanding when it is in the requested set of some peer. *)
Lemma outstanding_spec (item : NoteReq) bk :
  Bookkeeper.outstanding item bk = true <->
  exists a l, Bookkeeper.requestedMap bk !! a = Some l /\ item ∈ l.
Proof.
  unfold Bookkeeper.outstanding. rewrite bool_decide_eq_true.
  unfold map_Exists. reflexivity.
Qed.

Lemma outstanding_requested (q : Peer SockAddr) (item : NoteReq) bk :
  Bookkeeper.outstanding item (Bookkeeper.requested q item bk) = true.
Proof.
  apply outstanding_spec. unfold Bookkeeper.requested. simpl.
  eexists. eexists. split; [apply lookup_insert_eq |].
  case_bool_decide; [assumption |]. apply elem_of_app. right. apply list_elem_of_singleton. reflexivity.
Qed.

(** C7: [hereIs] answers true exactly when the item was outstanding from the
    sending peer and the upper layer accepted the data as new; then the
    notice of the item goes to every peer of the set but the sender, and
    otherwise nothing is sent. *)
Theorem hereIs_accepts_requested_and_relays
    (a : SockAddr) (data : Data) (peer : Peer SockAddr) s :
  peers s !! a = Some peer ->
  let item := getId data in
  let wasRequested :=
    bool_decide (item ∈ Bookkeeper.getRequested peer (bookkeeper s)) in
  let wasNeeded := fst (sub_hereIsP2p (p2pSub s) data) in
  exists s' new,
    hereIs a data s = Ok (wasRequested && wasNeeded) s'
    /\ sent s' = sent s ++ new
    /\ (wasRequested && wasNeeded = false -> new = [])
    /\ (wasRequested && wasNeeded = true ->
        forall b pdu, In (b, pdu) new <->
          pdu = Notice item /\ b <> rmtAddr peer
          /\ exists q, In q (peerSet s) /\ rmtAddr q = b).
Proof.
  intros Hpeer item wasRequested wasNeeded. subst item wasRequested wasNeeded.
  unfold hereIs, Bookkeeper.received. rewrite Hpeer.
  destruct (bool_decide (getId data ∈ Bookkeeper.getRequested peer (bookkeeper s)));
    simpl.
  - destruct (sub_hereIsP2p (p2pSub s) data) as [[|] u]; simpl.
    + eexists. exists (PeerSet.notify (getId data) peer (peerSet s)).
      split; [reflexivity |]. split; [reflexivity |].
      split; [discriminate |]. intros _ b pdu. apply notify_receivers.
    + eexists. exists []. split; [reflexivity |].
      split; [simpl; rewrite app_nil_r; reflexivity |].
      split; [reflexivity | discriminate].
  - eexists. exists []. split; [reflexivity |].
    split; [simpl; rewrite app_nil_r; reflexivity |].
    split; [reflexivity | discriminate].
Qed.

(** After a call of [shouldRequest] of the bookkeeper the item is
    outstanding, whatever the answer. *)
Lemma outstanding_shouldRequest (q : Peer SockAddr) (item : NoteReq) bk :
  Bookkeeper.outstanding item (snd (Bookkeeper.shouldRequest q item bk)) = true.
Proof.
  unfold Bookkeeper.shouldRequest.
  destruct (Bookkeeper.outstanding item bk) eqn:Out; simpl.
  - exact Out.
  - apply outstanding_requested.
Qed.

(** C6: for a peer the manager knows, [shouldRequest] answers true exactly
    when no peer has the item outstanding and the upper layer wants it; the
    same call made again answers false. *)
Theorem shouldRequest_iff_free_and_wanted
    (a : SockAddr) (item : NoteReq) (peer : Peer SockAddr) s :
  peers s !! a = Some peer ->
  let should := negb (Bookkeeper.outstanding item (bookkeeper s))
                && sub_shouldRequest (p2pSub s) item in
  (should = true <->
     (~ exists b l, Bookkeeper.requestedMap (bookkeeper s) !! b = Some l /\ item ∈ l)
     /\ sub_shouldRequest (p2pSub s) item = true)
  /\ exists s1,
      shouldRequest a item s = Ok should s1
      /\ exists s2, shouldRequest a item s1 = Ok false s2.
Proof.
  intros Hpeer should. subst should. split.
  - rewrite andb_true_iff, negb_true_iff, <- outstanding_spec.
    destruct (Bookkeeper.outstanding item (bookkeeper s)); intuition congruence.
  - pose proof (outstanding_shouldRequest peer item (bookkeeper s)) as Hout.
    assert (Hanswer : fst (Bookkeeper.shouldRequest peer item (bookkeeper s))
                      = negb (Bookkeeper.outstanding item (bookkeeper s))).
    { unfold Bookkeeper.shouldRequest.
      destruct (Bookkeeper.outstanding item (bookkeeper s)); reflexivity. }
    unfold shouldRequest at 1. rewrite Hpeer.
    destruct (Bookkeeper.shouldRequest peer item (bookkeeper s)) as [b bk] eqn:E.
    simpl in Hout, Hanswer. rewrite <- Hanswer.
    assert (Hsecond : exists s2,
              shouldRequest a item (set_bookkeeper bk s) = Ok false s2).
    { unfold shouldRequest. simpl. rewrite Hpeer.
      unfold Bookkeeper.shouldRequest. rewrite Hout. simpl. eauto. }
    destruct b; simpl; eexists; (split; [reflexivity | exact Hsecond]).
Qed.

End Subscriber.

Section SubscriberSamples.
Import HycastProto P2pMgr Sample.

Lemma hereIs_accepts_requested_and_relays_witness :
  peers subAB_requested !! 1%nat = Some peerA
  /\ exists s' new,
       hereIs 1%nat dataSeg5 subAB_requested = Ok true s'
       /\ sent s' = sent subAB_requested ++ new.
Proof.
  split; [reflexivity |].
  destruct (hereIs_accepts_requested_and_relays 1%nat dataSeg5 peerA
              subAB_requested eq_refl) as (s' & new & Hret & Hsent & _).
  exists s', new. split; [exact Hret | exact Hsent].
Defined.

Lemma hereIs_relays_to_the_other_peer :
  exists s', hereIs 1%nat dataSeg5 subAB_requested = Ok true s'
             /\ sent s' = [(2%nat, Notice seg5)].
Proof. eexists. split; reflexivity. Qed.

Lemma shouldRequest_iff_free_and_wanted_witness :
  peers subA !! 1%nat = Some peerA
  /\ exists s1, shouldRequest 1%nat item1 subA = Ok true s1.
Proof.
  split; [reflexivity |].
  destruct (shouldRequest_iff_free_and_wanted 1%nat item1 peerA subA eq_refl)
    as (_ & s1 & Hret & _).
  exists s1. exact Hret.
Defined.

End SubscriberSamples.

(** ** The subscriber: a peer dies with outstanding requests *)

Section Reassign.
Import HycastProto P2pMgr.
Context {SockAddr : Type} `{Countable SockAddr} {U : Type}.
Implicit Types s : Impl SockAddr U.
Implicit Types bk : Bookkeeper.t SockAddr.

Lemma flat_map_agree {A B : Type} (f g : A -> list B) (l : list A) :
  (forall a, In a l -> f a = g a) -> flat_map f l = flat_map g l.
Proof.
  induction l as [|a l IH]; intros Hfg; simpl; [reflexivity |].
  rewrite (Hfg a) by (left; reflexivity).
  rewrite IH by (intros b Hb; apply Hfg; right; exact Hb). reflexivity.
Qed.

Lemma popBestAlt_bestAlt (r : NoteReq) bk :
  fst (Bookkeeper.popBestAlt r bk) = Bookkeeper.bestAlt r bk.
Proof.
  unfold Bookkeeper.popBestAlt, Bookkeeper.bestAlt.
  destruct (default [] (Bookkeeper.alternates bk !! r)); reflexivity.
Qed.

Lemma reassignOne_sent s (r : NoteReq) :
  sent (reassignOne s r) = sent s ++ reissued (bookkeeper s) r.
Proof.
  unfold reassignOne, reissued, Bookkeeper.popBestAlt, Bookkeeper.bestAlt.
  destruct (default [] (Bookkeeper.alternates (bookkeeper s) !! r)); simpl;
    [rewrite app_nil_r |]; reflexivity.
Qed.

Lemma reassignOne_bestAlt_ne s (r r' : NoteReq) :
  r <> r' ->
  Bookkeeper.bestAlt r' (bookkeeper (reassignOne s r))
  = Bookkeeper.bestAlt r' (bookkeeper s).
Proof.
  intros Hne.
  unfold reassignOne, Bookkeeper.popBestAlt, Bookkeeper.bestAlt.
  destruct (default [] (Bookkeeper.alternates (bookkeeper s) !! r)); simpl;
    [reflexivity |].
  rewrite lookup_insert_ne by exact Hne. reflexivity.
Qed.

Lemma getRequested_requested (q alt : Peer SockAddr) (x r : NoteReq) bk :
  x ∈ Bookkeeper.getRequested q (Bookkeeper.requested alt r bk) <->
  x ∈ Bookkeeper.getRequested q bk \/ (x = r /\ rmtAddr alt = rmtAddr q).
Proof.
  unfold Bookkeeper.requested, Bookkeeper.getRequested. simpl.
  destruct (decide (rmtAddr alt = rmtAddr q)) as [E|Hne].
  - rewrite E, lookup_insert_eq. simpl.
    case_bool_decide as Hin.
    + split; [auto |]. intros [?|[-> _]]; assumption.
    + rewrite elem_of_app, list_elem_of_singleton. tauto.
  - rewrite lookup_insert_ne by exact Hne. tauto.
Qed.

Lemma reassignOne_requested s (r x : NoteReq) (q : Peer SockAddr) :
  x ∈ Bookkeeper.getRequested q (bookkeeper (reassignOne s r)) <->
  x ∈ Bookkeeper.getRequested q (bookkeeper s)
  \/ (x = r /\ exists alt, Bookkeeper.bestAlt r (bookkeeper s) = Some alt
                           /\ rmtAddr alt = rmtAddr q).
Proof.
  unfold reassignOne, Bookkeeper.popBestAlt, Bookkeeper.bestAlt.
  destruct (default [] (Bookkeeper.alternates (bookkeeper s) !! r)) as [|alt rest];
    simpl.
  - split; [auto |]. intros [?|(_ & alt & [=] & _)]. assumption.
  - rewrite getRequested_requested. unfold Bookkeeper.getRequested. simpl.
    split; (intros [?|[-> Halt]]; [left; assumption | right]).
    + eauto.
    + destruct Halt as (alt' & [= <-] & E). auto.
Qed.

(** The loop over a duplicate-free list of requests. *)
Lemma reassign_loop_sent (l : list NoteReq) : forall s,
  NoDup l ->
  sent (fold_left reassignOne l s)
  = sent s ++ flat_map (reissued (bookkeeper s)) l.
Proof.
  induction l as [|r l IH]; intros s Hnd; simpl; [rewrite app_nil_r; reflexivity |].
  apply NoDup_cons in Hnd as [Hr Hnd].
  rewrite (IH _ Hnd), reassignOne_sent, <- app_assoc. do 2 f_equal.
  apply flat_map_agree. intros r' Hin. unfold reissued.
  rewrite reassignOne_bestAlt_ne; [reflexivity |].
  intros ->. apply Hr, list_elem_of_In, Hin.
Qed.

Lemma reassign_loop_requested (l : list NoteReq) : forall s x (q : Peer SockAddr),
  NoDup l ->
  x ∈ Bookkeeper.getRequested q (bookkeeper (fold_left reassignOne l s)) <->
  x ∈ Bookkeeper.getRequested q (bookkeeper s)
  \/ (x ∈ l /\ exists alt, Bookkeeper.bestAlt x (bookkeeper s) = Some alt
                           /\ rmtAddr alt = rmtAddr q).
Proof.
  induction l as [|r l IH]; intros s x q Hnd; simpl.
  - split; [auto |]. intros [?|[Hin _]]; [assumption |]. inversion Hin.
  - apply NoDup_cons in Hnd as [Hr Hnd].
    rewrite (IH _ _ _ Hnd), reassignOne_requested, elem_of_cons.
    split.
    + intros [[?|[-> ?]]|[Hin (alt & Hb & E)]]; auto.
      right. split; [auto |]. exists alt. split; [| exact E].
      rewrite <- Hb. symmetry. apply reassignOne_bestAlt_ne.
      intros ->. exact (Hr Hin).
    + intros [Hx|[[->|Hin] (alt & Hb & E)]].
      * left. left. exact Hx.
      * left. right. split; [reflexivity |]. exists alt. auto.
      * right. split; [exact Hin |]. exists alt. split; [| exact E].
        rewrite <- Hb. apply reassignOne_bestAlt_ne.
        intros ->. exact (Hr Hin).
Qed.

Lemma reassignOne_alternates s (r r' : NoteReq) :
  default [] (Bookkeeper.alternates (bookkeeper (reassignOne s r)) !! r')
  = if decide (r = r')
    then List.tl (default [] (Bookkeeper.alternates (bookkeeper s) !! r))
    else default [] (Bookkeeper.alternates (bookkeeper s) !! r').
Proof.
  unfold reassignOne, Bookkeeper.popBestAlt.
  destruct (default [] (Bookkeeper.alternates (bookkeeper s) !! r)) eqn:E; simpl.
  - case_decide; [subst; exact E | reflexivity].
  - case_decide.
    + subst. rewrite lookup_insert_eq. reflexivity.
    + rewrite lookup_insert_ne by assumption. reflexivity.
Qed.

Lemma reassign_loop_alternates (l : list NoteReq) : forall s (r : NoteReq),
  NoDup l ->
  default [] (Bookkeeper.alternates (bookkeeper (fold_left reassignOne l s)) !! r)
  = if bool_decide (r ∈ l)
    then List.tl (default [] (Bookkeeper.alternates (bookkeeper s) !! r))
    else default [] (Bookkeeper.alternates (bookkeeper s) !! r).
Proof.
  induction l as [|x l IH]; intros s r Hnd; cbn [fold_left].
  - rewrite bool_decide_eq_false_2 by apply not_elem_of_nil. reflexivity.
  - apply NoDup_cons in Hnd as [Hx Hnd].
    rewrite (IH _ _ Hnd), reassignOne_alternates.
    destruct (decide (x = r)) as [->|Hne].
    + rewrite (bool_decide_eq_false_2 _ Hx).
      rewrite bool_decide_eq_true_2 by (apply elem_of_cons; left; reflexivity).
      reflexivity.
    + case_bool_decide as Hin.
      * rewrite bool_decide_eq_true_2 by (apply elem_of_cons; right; exact Hin).
        reflexivity.
      * rewrite bool_decide_eq_false_2; [reflexivity |].
        rewrite elem_of_cons. intros [->|?]; [apply Hne; reflexivity | auto].
Qed.

(** C5: when a peer of a running subscriber stops, its outstanding requests
    are taken from the bookkeeper and reassigned before the peer is erased.
    For each of them the best alternate candidate is popped; if there is one,
    the request is sent to it and recorded as requested from it; if there is
    none, nothing is sent for the request and no peer gets it assigned. *)
Theorem stopped_reassigns_pending (peer : Peer SockAddr) s :
  kind s = SubP2pMgr ->
  done s = false ->
  NoDup (Bookkeeper.getRequested peer (bookkeeper s)) ->
  let reqs := Bookkeeper.getRequested peer (bookkeeper s) in
  let s1 := reassignPending peer (consider (rmtAddr peer) s) in
  bookkeeper (stopped peer s) = Bookkeeper.erase peer (bookkeeper s1)
  /\ Bookkeeper.getRequested peer (bookkeeper (stopped peer s)) = []
  /\ (exists new,
        sent (stopped peer s) = sent s ++ new
        /\ forall a pdu, In (a, pdu) new <->
              exists r alt, r ∈ reqs
                /\ Bookkeeper.bestAlt r (bookkeeper s) = Some alt
                /\ a = rmtAddr alt /\ pdu = Request r)
  /\ (forall r, r ∈ reqs ->
        default [] (Bookkeeper.alternates (bookkeeper s1) !! r)
        = List.tl (default [] (Bookkeeper.alternates (bookkeeper s) !! r)))
  /\ (forall r alt, r ∈ reqs ->
        Bookkeeper.bestAlt r (bookkeeper s) = Some alt ->
        r ∈ Bookkeeper.getRequested alt (bookkeeper s1))
  /\ (forall r, r ∈ reqs ->
        Bookkeeper.bestAlt r (bookkeeper s) = None ->
        forall q, r ∈ Bookkeeper.getRequested q (bookkeeper s1) ->
                  r ∈ Bookkeeper.getRequested q (bookkeeper s)).
Proof.
  intros Hkind Hdone Hnd reqs s1.
  assert (Hstopped : stopped peer s
    = set_peers (delete (rmtAddr peer) (peers s1))
        (set_bookkeeper (Bookkeeper.erase peer (bookkeeper s1)) s1)).
  { unfold stopped, stopped2. rewrite Hdone, Hkind. reflexivity. }
  assert (Hs1 : s1 = fold_left reassignOne reqs (consider (rmtAddr peer) s))
    by reflexivity.
  split; [rewrite Hstopped; reflexivity |].
  split.
  { rewrite Hstopped. unfold Bookkeeper.getRequested, Bookkeeper.erase. simpl.
    rewrite lookup_delete_eq. reflexivity. }
  split.
  { exists (flat_map (reissued (bookkeeper s)) reqs). split.
    - rewrite Hstopped. simpl. rewrite Hs1, reassign_loop_sent by exact Hnd.
      reflexivity.
    - intros a pdu. rewrite in_flat_map. unfold reissued. split.
      + intros (r & Hin & Hr).
        destruct (Bookkeeper.bestAlt r (bookkeeper s)) as [alt|] eqn:E;
          [| destruct Hr].
        destruct Hr as [[= <- <-]|[]].
        exists r, alt. split; [apply list_elem_of_In, Hin | auto].
      + intros (r & alt & Hin & E & -> & ->).
        exists r. split; [apply list_elem_of_In, Hin |].
        rewrite E. left. reflexivity. }
  split.
  { intros r Hin. rewrite Hs1, reassign_loop_alternates by exact Hnd.
    rewrite bool_decide_eq_true_2 by exact Hin. reflexivity. }
  split.
  { intros r alt Hin E. rewrite Hs1. apply reassign_loop_requested; [exact Hnd |].
    right. split; [exact Hin |]. exists alt. auto. }
  intros r Hin E q Hq. rewrite Hs1 in Hq.
  apply reassign_loop_requested in Hq; [| exact Hnd].
  destruct Hq as [Hq|(_ & alt & Halt & _)]; [exact Hq |].
  simpl in Halt. congruence.
Qed.

End Reassign.

Section ReassignSamples.
Import HycastProto P2pMgr Sample.

(** Scenario: [peerA] and [peerB] both announced segment (5, 0), the request
    went to [peerA]; [peerA] stops and the request is reissued to [peerB]. *)
Lemma stopped_reassigns_pending_witness :
  kind subAB_requested = SubP2pMgr
  /\ done subAB_requested = false
  /\ NoDup (Bookkeeper.getRequested peerA (bookkeeper subAB_requested))
  /\ Bookkeeper.getRequested peerA (bookkeeper (stopped peerA subAB_requested)) = [].
Proof.
  assert (Hnd : NoDup (Bookkeeper.getRequested peerA (bookkeeper subAB_requested)))
    by (apply (NoDup_singleton seg5)).
  split; [reflexivity | split; [reflexivity | split; [exact Hnd |]]].
  apply (stopped_reassigns_pending peerA subAB_requested eq_refl eq_refl Hnd).
Defined.

Lemma stopped_reissues_to_alternate :
  sent (stopped peerA subAB_requested) = [(2%nat, Request seg5)]
  /\ Bookkeeper.getRequested peerB (bookkeeper (stopped peerA subAB_requested))
     = [seg5].
Proof. split; reflexivity. Qed.

End ReassignSamples.

(** ** The invariants of the executions: the size of the peer set *)

Section PeerSetBound.
Import HycastProto P2pMgr.
Context {SockAddr : Type} `{Countable SockAddr} {U : Type} `{P2pSub U}.
Implicit Types s : Impl SockAddr U.

Create HintDb keeps discriminated.

Lemma core_executing s s' : core s' = core s -> executing s' = executing s.
Proof. intros C. injection C as _ _ _ E. exact E. Qed.

Lemma keeps_ret {A} (a : A) : keeps (SockAddr := SockAddr) (U := U) (ret a).
Proof. intros s _. reflexivity. Qed.

Lemma keeps_throw {A} (e : Exception) :
  keeps (SockAddr := SockAddr) (U := U) (A := A) (throw e).
Proof. intros s _. reflexivity. Qed.

Lemma keeps_modify (f : Impl SockAddr U -> Impl SockAddr U) :
  (forall s, executing s = false -> core (f s) = core s) -> keeps (modify f).
Proof. intros Hf s He. apply Hf, He. Qed.

Lemma keeps_bind {A B} (m : M A) (k : A -> M B) :
  keeps (SockAddr := SockAddr) (U := U) m -> (forall a, keeps (k a)) ->
  keeps (bind m k).
Proof.
  intros Hm Hk s He. unfold bind. specialize (Hm s He).
  destruct (m s) as [a s'|e s'|]; [| exact Hm | exact I].
  assert (He' : executing s' = false) by (rewrite (core_executing _ _ Hm); exact He).
  specialize (Hk a s' He'). destruct (k a s'); [congruence | congruence | exact I].
Qed.

Lemma keeps_try_catch {A} (m : M A) (h : Exception -> M A) :
  keeps (SockAddr := SockAddr) (U := U) m -> (forall e, keeps (h e)) ->
  keeps (try_catch m h).
Proof.
  intros Hm Hh s He. unfold try_catch. specialize (Hm s He).
  destruct (m s) as [a s'|e s'|]; [exact Hm | | exact I].
  assert (He' : executing s' = false) by (rewrite (core_executing _ _ Hm); exact He).
  specialize (Hh e s' He'). destruct (h e s'); [congruence | congruence | exact I].
Qed.

Lemma keeps_after {A} (m : M A) s :
  executing s = false -> keeps m -> core (after (m s) s) = core s.
Proof. intros He Hm. specialize (Hm s He). destruct (m s); simpl; auto. Qed.

#[local] Hint Resolve keeps_ret keeps_throw keeps_bind keeps_try_catch : keeps.

(** Starting and stopping the threads, and the shutdown, keep the core. *)
Lemma keeps_startAccepter : keeps (SockAddr := SockAddr) (U := U) startAccepter.
Proof. intros s _. unfold startAccepter. destruct (acceptThread s); simpl; auto. Qed.

Lemma keeps_startImprover : keeps (SockAddr := SockAddr) (U := U) startImprover.
Proof. intros s _. unfold startImprover. destruct (improveThread s); simpl; auto. Qed.

Lemma keeps_startConnector : keeps (SockAddr := SockAddr) (U := U) startConnector.
Proof. intros s _. unfold startConnector. destruct (connectThread s); simpl; auto. Qed.

Lemma keeps_stopAccepter : keeps (SockAddr := SockAddr) (U := U) stopAccepter.
Proof. intros s _. unfold stopAccepter. destruct (acceptThread s); simpl; auto. Qed.

Lemma keeps_stopImprover (env : Env) :
  keeps (SockAddr := SockAddr) (U := U) (stopImprover env).
Proof.
  intros s _. unfold stopImprover.
  destruct (improveThread s), (negb (cancelImprover env =? 0)); simpl; auto.
Qed.

Lemma keeps_stopConnector (env : Env) :
  keeps (SockAddr := SockAddr) (U := U) (stopConnector env).
Proof.
  intros s _. unfold stopConnector.
  destruct (connectThread s), (negb (cancelConnector env =? 0)); simpl; auto.
Qed.

#[local] Hint Resolve keeps_startAccepter keeps_startImprover
  keeps_startConnector keeps_stopAccepter keeps_stopImprover
  keeps_stopConnector : keeps.

Lemma keeps_cond {A} (c : Impl SockAddr U -> bool) (m1 m2 : M A) :
  keeps m1 -> keeps m2 -> keeps (fun s => if c s then m1 s else m2 s).
Proof. intros H1 H2 s He. destruct (c s); [apply H1 | apply H2]; exact He. Qed.

Lemma keeps_kind {A} (m1 m2 : M A) :
  keeps m1 -> keeps m2 ->
  keeps (SockAddr := SockAddr) (U := U)
        (fun s => match kind s with PubP2pMgr => m1 s | SubP2pMgr => m2 s end).
Proof. intros H1 H2 s He. destruct (kind s); [apply H1 | apply H2]; exact He. Qed.

Lemma keeps_startTasks2 (env : Env) :
  keeps (SockAddr := SockAddr) (U := U) (startTasks2 env).
Proof.
  apply keeps_kind.
  - apply (keeps_cond (fun s => maxPeers s >? 1)); auto with keeps.
  - apply keeps_bind; [auto with keeps | intros _].
    apply keeps_try_catch; [| auto with keeps].
    apply (keeps_cond (fun s => maxPeers s >? 1)); auto with keeps.
Qed.

Lemma keeps_stopTasks2 (env : Env) :
  keeps (SockAddr := SockAddr) (U := U) (stopTasks2 env).
Proof. apply keeps_kind; auto with keeps. Qed.

#[local] Hint Resolve keeps_startTasks2 keeps_stopTasks2 : keeps.

Lemma keeps_startTasks (env : Env) :
  keeps (SockAddr := SockAddr) (U := U) (startTasks env).
Proof. unfold startTasks. auto 10 with keeps. Qed.

Lemma keeps_stopTasks (env : Env) :
  keeps (SockAddr := SockAddr) (U := U) (stopTasks env).
Proof. unfold stopTasks. auto 10 with keeps. Qed.

#[local] Hint Resolve keeps_startTasks keeps_stopTasks : keeps.

(** [shutdown] writes [false] to [executing], which is false already. *)
Lemma keeps_shutdown (env : Env) :
  keeps (SockAddr := SockAddr) (U := U) (shutdown env).
Proof.
  unfold shutdown. apply keeps_bind; [auto with keeps | intros _].
  apply keeps_bind; intros; apply keeps_modify.
  - reflexivity.
  - intros s He. unfold core. simpl. rewrite He. reflexivity.
Qed.

#[local] Hint Resolve keeps_shutdown : keeps.

Lemma keeps_enter (env : Env) : keeps (SockAddr := SockAddr) (U := U) (enter env).
Proof.
  intros s He. unfold enter. rewrite He.
  destruct (negb (done s)); [| reflexivity].
  apply (keeps_bind (startTasks env) (fun _ => ret true)); auto with keeps.
Qed.

Lemma leave_core (env : Env) s (r : Res unit) :
  executing s = false -> leave env s = Some r -> core (after r s) = core s.
Proof.
  intros He. unfold leave, waitUntilDone.
  destruct (done s), (taskException s) as [ex|]; intros [= <-].
  - apply (keeps_after (try_catch (shutdown env)
              (fun e => bind (shutdown env) (fun _ => throw e))));
      auto with keeps.
  - apply (keeps_after (try_catch (shutdown env)
              (fun e => bind (shutdown env) (fun _ => throw e))));
      auto with keeps.
  - apply (keeps_after (bind (shutdown env) (fun _ => throw ex)));
      auto with keeps.
Qed.

(** The calls that never touch the core. *)
Lemma setException_core (ex : Exception) s : core (setException ex s) = core s.
Proof. unfold setException. destruct (taskException s); reflexivity. Qed.

Lemma reassignOne_core s (r : NoteReq) : core (reassignOne s r) = core s.
Proof.
  unfold reassignOne.
  destruct (Bookkeeper.popBestAlt r (bookkeeper s)) as [[alt|] bk]; reflexivity.
Qed.

Lemma reassign_loop_core (l : list NoteReq) : forall s,
  core (fold_left reassignOne l s) = core s.
Proof.
  induction l as [|r l IH]; intros s; simpl; [reflexivity |].
  rewrite IH. apply reassignOne_core.
Qed.

Lemma stopped_core (peer : Peer SockAddr) s :
  core (stopped peer s) = core s.
Proof.
  unfold stopped. destruct (done s); [reflexivity |].
  transitivity (core (stopped2 peer s)); [reflexivity |].
  unfold stopped2, reassignPending. destruct (kind s); [reflexivity |].
  rewrite reassign_loop_core. reflexivity.
Qed.

Lemma keeps_shouldRequest (a : SockAddr) (item : NoteReq) :
  keeps (shouldRequest a item).
Proof.
  intros s _. unfold shouldRequest.
  destruct (peers s !! a) as [peer|]; [| reflexivity].
  destruct (Bookkeeper.shouldRequest peer item (bookkeeper s)) as [[|] bk];
    reflexivity.
Qed.

Lemma keeps_hereIs (a : SockAddr) (data : Data) : keeps (hereIs a data).
Proof.
  intros s _. unfold hereIs.
  destruct (peers s !! a) as [peer|]; [| reflexivity].
  destruct (Bookkeeper.received peer (getId data) (bookkeeper s)) as [[|] bk];
    simpl; [| reflexivity].
  destruct (sub_hereIsP2p (p2pSub s) data) as [[|] u]; reflexivity.
Qed.

Lemma keeps_served (a : SockAddr) : keeps (SockAddr := SockAddr) (U := U) (served a).
Proof.
  intros s _. unfold served. destruct (peers s !! a); reflexivity.
Qed.

Lemma improve_core (timedOut : bool) s : core (improve timedOut s) = core s.
Proof.
  unfold improve.
  destruct (negb timedOut
            || (Z.of_nat (PeerSet.size (peerSet s)) <? as_size_t (maxPeers s)));
    [reflexivity |].
  destruct (Bookkeeper.getWorstPeer (bookkeeper s)); reflexivity.
Qed.

(** The invariant depends on the core only. *)
Lemma inv_core (k : Kind) (m : Z) s s' :
  core s' = core s -> inv k m s -> inv k m s'.
Proof.
  intros C (K & M & E & B). injection C as K' M' P' E'.
  unfold inv, bounded in *. rewrite K', M', P', E'. auto.
Qed.

Lemma as_size_t_small (m : Z) : 0 <= m < 2 ^ 31 -> as_size_t m = m.
Proof. intros Hm. unfold as_size_t, u64. apply Z.mod_small. lia. Qed.

(** [add] appends one peer to the set, or leaves the set alone. *)
Lemma add_peerSet (peer : Peer SockAddr) s :
  match add peer s with
  | Ok _ s' => kind s' = kind s /\ maxPeers s' = maxPeers s
               /\ executing s' = executing s
               /\ peerSet s' = peerSet s ++ [peer]
  | Throw _ s' => core s' = core s
  | Terminate => True
  end.
Proof.
  unfold add, PeerSet.activate. simpl.
  destruct (PeerSet.contains peer (peerSet s)); simpl; auto.
Qed.

Lemma size_app_one (ps : PeerSet.t SockAddr) (peer : Peer SockAddr) :
  Z.of_nat (PeerSet.size (ps ++ [peer])) = Z.of_nat (PeerSet.size ps) + 1.
Proof. unfold PeerSet.size. rewrite length_app. simpl. lia. Qed.

(** [tryAdd] keeps the invariant: it adds below [maxPeers], and at
    [maxPeers] only a subscriber adds, through [tryAdd2]. *)
Lemma tryAdd_inv (k : Kind) (m : Z) (peer : Peer SockAddr) s :
  0 <= m < 2 ^ 31 -> inv k m s -> inv k m (after (tryAdd peer s) s).
Proof.
  intros Hm Hinv. pose proof Hinv as (K & M & E & B).
  unfold tryAdd. rewrite M, (as_size_t_small _ Hm).
  destruct (Z.ltb_spec (Z.of_nat (PeerSet.size (peerSet s))) m) as [Hlt|Hge].
  - unfold bind, ret. pose proof (add_peerSet peer s) as Ha.
    destruct (add peer s) as [[] s'|e s'|]; simpl.
    + destruct Ha as (K' & M' & E' & P). unfold inv, bounded.
      rewrite K', M', E', P, size_app_one, K, M. repeat split; auto.
      destruct k; lia.
    + exact (inv_core k m s s' Ha Hinv).
    + exact Hinv.
  - destruct (Z.gtb_spec (Z.of_nat (PeerSet.size (peerSet s))) m) as [Hgt|Hle];
      [exact Hinv |].
    assert (Heq : Z.of_nat (PeerSet.size (peerSet s)) = m) by lia.
    unfold tryAdd2. rewrite K. destruct k; [exact Hinv |].
    destruct (Bookkeeper.getPubPathCounts (bookkeeper s)) as [numPath numNoPath].
    destruct (Bool.eqb (numPath <? numNoPath) (isPathToPub peer)); [| exact Hinv].
    destruct (Bookkeeper.getWorstPeerWith (isPathToPub peer) (bookkeeper s))
      as [worst|]; [| exact Hinv].
    unfold bind, ret. pose proof (add_peerSet peer (halt_peer worst s)) as Ha.
    destruct (add peer (halt_peer worst s)) as [[] s'|e s'|]; simpl.
    + destruct Ha as (K' & M' & E' & P). simpl in K', M', E', P.
      unfold inv, bounded. rewrite K', M', E', P, size_app_one, K, M.
      repeat split; auto. lia.
    + apply (inv_core _ m s s'); [rewrite Ha; reflexivity | exact Hinv].
    + exact Hinv.
Qed.

Lemma accept_inv (k : Kind) (m : Z) (peer : Peer SockAddr) s :
  0 <= m < 2 ^ 31 -> inv k m s -> inv k m (accept peer s).
Proof.
  intros Hm Hinv. pose proof (tryAdd_inv k m peer s Hm Hinv) as Ht.
  unfold accept. destruct (tryAdd peer s) as [success s1|ex s1|]; simpl in Ht.
  - destruct (kind s); [exact Ht |]. destruct success; [exact Ht |].
    apply (inv_core k m s1); [reflexivity | exact Ht].
  - apply (inv_core k m s1); [apply setException_core | exact Ht].
  - exact Hinv.
Qed.

Lemma connect_inv (k : Kind) (m : Z) (outcome : Connected) s :
  0 <= m < 2 ^ 31 -> inv k m s -> inv k m (connect outcome s).
Proof.
  intros Hm Hinv. unfold connect.
  destruct (Z.of_nat (PeerSet.size (peerSet s)) >=? as_size_t (maxPeers s));
    [exact Hinv |].
  destruct (serverPool s) as [|srvrAddr pool]; [exact Hinv |].
  assert (Hinv1 : inv k m (set_serverPool pool s))
    by (apply (inv_core k m s); [reflexivity | exact Hinv]).
  destruct outcome as [pathToPub|[|] ex].
  - pose proof (tryAdd_inv k m (mkPeer srvrAddr pathToPub) _ Hm Hinv1) as Ht.
    destruct (tryAdd (mkPeer srvrAddr pathToPub) (set_serverPool pool s))
      as [success s2|e s2|]; simpl in Ht.
    + destruct success; [exact Ht |].
      apply (inv_core k m s2); [reflexivity | exact Ht].
    + apply (inv_core k m s2); [reflexivity | exact Ht].
    + exact Hinv.
  - apply (inv_core k m (set_serverPool pool s));
      [apply setException_core | exact Hinv1].
  - apply (inv_core k m s); [reflexivity | exact Hinv].
Qed.

Lemma size_remove (peer : Peer SockAddr) (ps : PeerSet.t SockAddr) :
  (PeerSet.size (PeerSet.remove peer ps) <= PeerSet.size ps)%nat.
Proof. unfold PeerSet.remove, PeerSet.size. apply List.filter_length_le. Qed.

Lemma peerStopped_inv (k : Kind) (m : Z) (peer : Peer SockAddr) s :
  inv k m s -> inv k m (peerStopped peer s).
Proof.
  intros (K & M & E & B). unfold peerStopped.
  apply (inv_core k m (set_peerSet (PeerSet.remove peer (peerSet s)) s));
    [apply stopped_core |].
  unfold inv, bounded in *. simpl. rewrite K, M in *.
  pose proof (size_remove peer (peerSet s)). repeat split; auto. destruct k; lia.
Qed.

(** Every step keeps the invariant. *)
Lemma step_inv (env : Env) (k : Kind) (m : Z) s s' :
  0 <= m < 2 ^ 31 -> step env s s' -> inv k m s -> inv k m s'.
Proof.
  intros Hm Hstep Hinv. pose proof Hinv as (_ & _ & E & _).
  destruct Hstep.
  - apply (inv_core k m s); [apply keeps_after, keeps_enter; exact E | exact Hinv].
  - apply (inv_core k m s); [eapply leave_core; eassumption | exact Hinv].
  - apply (inv_core k m s); [reflexivity | exact Hinv].
  - apply (inv_core k m s); [apply setException_core | exact Hinv].
  - apply accept_inv; assumption.
  - apply connect_inv; assumption.
  - apply (inv_core k m s); [apply improve_core | exact Hinv].
  - apply peerStopped_inv; assumption.
  - apply (inv_core k m s);
      [apply keeps_after, keeps_shouldRequest; exact E | exact Hinv].
  - apply (inv_core k m s); [apply keeps_after, keeps_hereIs; exact E | exact Hinv].
  - apply (inv_core k m s); [apply keeps_after, keeps_served; exact E | exact Hinv].
Qed.

Lemma reachable_inv (env : Env) (k : Kind) (m : Z) (pool : list SockAddr)
    (u : U) s :
  0 <= m < 2 ^ 31 -> reachable env (new k m pool u) s -> inv k m s.
Proof.
  intros Hm Hreach. induction Hreach as [|s s' _ IH Hstep].
  - unfold inv, bounded. simpl. repeat split; auto. destruct k; lia.
  - exact (step_inv env k m s s' Hm Hstep IH).
Qed.

(** Nothing sets [executing]: in no execution does [operator()()] throw. *)
Lemma enter_never_throws (env : Env) (k : Kind) (m : Z) (pool : list SockAddr)
    (u : U) s (ex : Exception) s' :
  0 <= m < 2 ^ 31 -> reachable env (new k m pool u) s ->
  executing s = false /\ enter env s <> Throw ex s'.
Proof.
  intros Hm Hreach.
  destruct (reachable_inv env k m pool u s Hm Hreach) as (_ & _ & E & _).
  split; [exact E |]. unfold enter. rewrite E.
  destruct (negb (done s)); [| discriminate].
  unfold startTasks, startTasks2, startAccepter, startConnector, startImprover,
    stopAccepter, stopConnector, try_catch, bind, ret, throw.
  destruct (acceptThread s); [discriminate |]. simpl.
  destruct (kind s); simpl.
  - destruct (maxPeers s >? 1); [| discriminate].
    destruct (improveThread s); discriminate.
  - destruct (connectThread s); [discriminate |]. simpl.
    destruct (maxPeers s >? 1); [| discriminate].
    destruct (improveThread s); discriminate.
Qed.

(** C3, amended: at every point of every execution of a manager built with
    [0 <= maxPeers < 2^31], the peer set of a publisher holds at most
    [maxPeers] peers and the peer set of a subscriber at most
    [maxPeers + 1]. *)
Theorem peerSet_size_bound (env : Env) (k : Kind) (m : Z)
    (pool : list SockAddr) (u : U) s :
  0 <= m < 2 ^ 31 ->
  reachable env (new k m pool u) s ->
  Z.of_nat (PeerSet.size (peerSet s)) <= m + 1
  /\ (k = PubP2pMgr -> Z.of_nat (PeerSet.size (peerSet s)) <= m).
Proof.
  intros Hm Hreach.
  destruct (reachable_inv env k m pool u s Hm Hreach) as (K & M & _ & B).
  unfold bounded in B. rewrite K, M in B.
  split; [destruct k; lia |]. intros ->. exact B.
Qed.

End PeerSetBound.

Section PeerSetSamples.
Import HycastProto P2pMgr Sample.

Lemma peerSet_size_bound_witness :
  0 <= 2 < 2 ^ 31
  /\ reachable env0 (new SubP2pMgr 2 [] []) subAccepted3
  /\ Z.of_nat (PeerSet.size (peerSet subAccepted3)) <= 2 + 1.
Proof.
  assert (Hm : 0 <= 2 < 2 ^ 31) by lia.
  assert (Hreach : reachable env0 (new SubP2pMgr 2 [] []) subAccepted3).
  { eapply reach_step; [| apply step_accept; reflexivity].
    eapply reach_step; [| apply step_accept; reflexivity].
    eapply reach_step; [| apply step_accept; reflexivity].
    eapply reach_step; [apply reach_refl | apply step_enter]. }
  split; [exact Hm | split; [exact Hreach |]].
  apply (peerSet_size_bound env0 SubP2pMgr 2 [] [] subAccepted3 Hm Hreach).
Defined.

(** C3, as stated, fails: a subscriber with [maxPeers = 2] that holds one
    peer with a path and one without admits a third peer; [tryAdd2] halts
    the peer it replaces and adds the new one while the halted peer is still
    in the set, which then holds three peers. *)
Lemma peerSet_exceeds_maxPeers :
  reachable env0 sub2 subAccepted3
  /\ maxPeers subAccepted3 = 2
  /\ Z.of_nat (PeerSet.size (peerSet subAccepted3)) = 3
  /\ ~ Z.of_nat (PeerSet.size (peerSet subAccepted3)) <= maxPeers subAccepted3.
Proof.
  split; [| split; [reflexivity | split; [reflexivity | vm_compute; auto]]].
  eapply reach_step; [| apply step_accept; reflexivity].
  eapply reach_step; [| apply step_accept; reflexivity].
  eapply reach_step; [| apply step_accept; reflexivity].
  eapply reach_step; [apply reach_refl | apply step_enter].
Qed.

(** C2 on the code.  (1) With one peer with a path and one without
    ([maxPeers = 2]) no group is under-represented, yet an incoming peer
    without a path is admitted, and the peer halted for it is [peerB], of the
    incoming peer's own group.  (2) With one peer with a path and three
    without ([maxPeers = 4]) an incoming peer with a path is admitted, and
    the peer halted for it is [peerA], the one peer of the under-represented
    group, not the worst of the three without a path.  (3) With two peers
    without a path ([maxPeers = 2]) an incoming peer with a path is
    rejected, for want of a peer with a path to replace. *)
Theorem tryAdd2_replaces_in_the_same_group :
  (Bookkeeper.getPubPathCounts (bookkeeper subAB) = (1, 1)
   /\ isPathToPub peerC = false
   /\ exists s', tryAdd peerC subAB = Ok true s'
        /\ halted s' = [rmtAddr peerB]
        /\ peerSet s' = [peerA; peerB; peerC])
  /\ (Bookkeeper.getPubPathCounts (bookkeeper subABCD) = (1, 3)
      /\ isPathToPub peerE = true
      /\ exists s', tryAdd peerE subABCD = Ok true s'
           /\ halted s' = [rmtAddr peerA]
           /\ isPathToPub peerA = true)
  /\ (Bookkeeper.getPubPathCounts (bookkeeper subBC) = (0, 2)
      /\ isPathToPub peerA = true
      /\ tryAdd peerA subBC = Ok false subBC).
Proof.
  split; [| split].
  - split; [reflexivity | split; [reflexivity |]].
    eexists. split; [reflexivity | split; reflexivity].
  - split; [reflexivity | split; [reflexivity |]].
    eexists. split; [reflexivity | split; reflexivity].
  - split; [reflexivity | split; reflexivity].
Qed.

End PeerSetSamples.

(* ===================================================================== *)
(** * Part III: further properties of the code                            *)
(* ===================================================================== *)

(** ** The linked set: [add], [find], [remove] and the list *)

Section LinkedSetList.
Import LinkedSet.
Context {VALUE : Type}.
Implicit Types m : gmap Z (Entry VALUE).
Implicit Types s : Impl VALUE.
Implicit Types l : list Z.

Lemma chain_nonzero m p l k : chain m p l -> k ∈ l -> k <> 0.
Proof.
  revert p. induction l as [|x l IH]; intros p Hc Hin; [inversion Hin |].
  destruct Hc as (Hx & _ & Hc). apply elem_of_cons in Hin as [->|Hin]; eauto.
Qed.

Lemma chain_lookup m p l k : chain m p l -> k ∈ l -> is_Some (m !! k).
Proof.
  revert p. induction l as [|x l IH]; intros p Hc Hin; [inversion Hin |].
  destruct Hc as (_ & (e & He & _) & Hc).
  apply elem_of_cons in Hin as [->|Hin]; eauto.
Qed.

Lemma chain_length m p l : NoDup l -> chain m p l -> (length l <= base.size m)%nat.
Proof.
  intros Hnd Hc.
  rewrite <- (size_list_to_set (C := gset Z) l Hnd), <- size_dom.
  apply subseteq_size. intros k Hk. apply elem_of_list_to_set in Hk.
  apply elem_of_dom. exact (chain_lookup m p l k Hc Hk).
Qed.

Lemma walk_chain m l : forall p fuel,
  chain m p l -> (length l < fuel)%nat -> walk fuel m (List.hd 0 l) = l.
Proof.
  induction l as [|k l IH]; intros p fuel Hc Hf; destruct fuel as [|fuel];
    simpl in *; try lia; [reflexivity |].
  destruct Hc as (Hk & (e & He & _ & Hn) & Hc).
  destruct (Z.eqb_spec k 0) as [E|_]; [contradiction |].
  rewrite He, Hn. f_equal. apply (IH k); [exact Hc | lia].
Qed.

(** Walking from the head gives the list. *)
Lemma linked_keys s l : linked s l -> keys s = l.
Proof.
  intros (Hnd & Hh & _ & Hc). unfold keys, getHead. rewrite Hh.
  apply (walk_chain _ _ 0); [exact Hc |].
  pose proof (chain_length _ _ _ Hnd Hc). unfold size. lia.
Qed.

(** Changing the links of a key that is not on a chain leaves the chain. *)
Lemma chain_alter m (f : Entry VALUE -> Entry VALUE) k l : forall p,
  k ∉ l -> chain m p l -> chain (alter f k m) p l.
Proof.
  induction l as [|x l IH]; intros p Hk Hc; [exact I |].
  apply not_elem_of_cons in Hk as [Hne Hk].
  destruct Hc as (Hx & (e & He & Hp & Hn) & Hc).
  split; [exact Hx |]. split; [| apply IH; assumption].
  exists e. rewrite lookup_alter_ne by exact Hne. auto.
Qed.

Lemma chain_insert m k e0 l : forall p,
  k ∉ l -> chain m p l -> chain (<[k := e0]> m) p l.
Proof.
  induction l as [|x l IH]; intros p Hk Hc; [exact I |].
  apply not_elem_of_cons in Hk as [Hne Hk].
  destruct Hc as (Hx & (e & He & Hp & Hn) & Hc).
  split; [exact Hx |]. split; [| apply IH; assumption].
  exists e. rewrite lookup_insert_ne by exact Hne. auto.
Qed.

Lemma last_nonempty {A} (l : list A) (d d' : A) :
  l <> [] -> List.last l d = List.last l d'.
Proof.
  induction l as [|x [|y l] IH]; intros Hne; [contradiction | reflexivity |].
  change (List.last (y :: l) d = List.last (y :: l) d'). apply IH. discriminate.
Qed.

Lemma last_elem_of (l : list Z) (d : Z) : l <> [] -> List.last l d ∈ l.
Proof.
  induction l as [|x [|y l] IH]; intros Hne; [contradiction | |].
  - apply elem_of_cons. left. reflexivity.
  - apply elem_of_cons. right. apply IH. discriminate.
Qed.

(** Linking a new key behind the last key of a chain. *)
Lemma chain_snoc m key (v : VALUE) l : forall p,
  l <> [] -> NoDup l -> key ∉ l -> key <> 0 -> chain m p l ->
  chain (set_next (List.last l 0) key
           (<[key := mkEntry v (List.last l 0) 0]> m)) p (l ++ [key]).
Proof.
  induction l as [|x [|y l] IH]; intros p Hne Hnd Hkey Hk0 Hc; [contradiction | |].
  - destruct Hc as (Hx & (e & He & Hp & Hn) & _).
    apply not_elem_of_cons in Hkey as [Hkx _]. simpl.
    split; [exact Hx |]. split.
    + exists (mkEntry (value e) (prev e) key). unfold set_next.
      rewrite lookup_alter_eq, lookup_insert_ne by exact Hkx. rewrite He. auto.
    + split; [exact Hk0 |]. split; [| exact I].
      exists (mkEntry v x 0). unfold set_next.
      rewrite lookup_alter_ne by (intros E; apply Hkx; symmetry; exact E).
      rewrite lookup_insert_eq. auto.
  - destruct Hc as (Hx & (e & He & Hp & Hn) & Hc).
    apply NoDup_cons in Hnd as [Hxl Hnd].
    pose proof Hkey as Hkey'. apply not_elem_of_cons in Hkey' as [Hkx Hkl].
    change (List.last (x :: y :: l) 0) with (List.last (y :: l) 0).
    split; [exact Hx |]. split.
    + exists e. unfold set_next.
      rewrite lookup_alter_ne.
      * rewrite lookup_insert_ne by exact Hkx. auto.
      * intros E. apply Hxl. rewrite <- E. apply last_elem_of. discriminate.
    + apply (IH x); [discriminate | exact Hnd | exact Hkl | exact Hk0 | exact Hc].
Qed.

Lemma last_snoc (l : list Z) (k d : Z) : List.last (l ++ [k]) d = k.
Proof. apply List.last_last. Qed.

Lemma hd_snoc (l : list Z) (k d : Z) : List.hd d (l ++ [k]) = List.hd k l.
Proof. destruct l; reflexivity. Qed.

(** The tail index is null exactly when the list is empty. *)
Lemma linked_tail_null s l : linked s l -> (tail s = 0 <-> l = []).
Proof.
  intros (_ & _ & Ht & Hc). split.
  - intros E. destruct l as [|x l]; [reflexivity |]. exfalso.
    apply (chain_nonzero _ _ _ (tail s) Hc); [| exact E].
    rewrite Ht. apply last_elem_of. discriminate.
  - intros ->. exact Ht.
Qed.

Lemma linked_absent s l key : linked s l -> map s !! key = None -> key ∉ l.
Proof.
  intros (_ & _ & _ & Hc) Hnone Hin.
  destruct (chain_lookup _ _ _ key Hc Hin) as [e He]. congruence.
Qed.

(** [add] of a new key puts it behind the tail. *)
Lemma add_linked s l key (v : VALUE) :
  linked s l -> key <> 0 -> find key s = None ->
  exists s', add key v s = inr (v, s') /\ linked s' (l ++ [key]).
Proof.
  intros Hl Hk0 Hfind.
  assert (Hnone : map s !! key = None).
  { unfold find in Hfind. destruct (map s !! key); [discriminate | reflexivity]. }
  pose proof (linked_absent s l key Hl Hnone) as Hnotin.
  pose proof (linked_tail_null s l Hl) as Htl.
  destruct Hl as (Hnd & Hh & Ht & Hc).
  unfold add. destruct (Z.eqb_spec key 0) as [E|_]; [contradiction |].
  rewrite Hnone.
  destruct (Z.eqb_spec (tail s) 0) as [E|Hne]; simpl.
  - apply Htl in E. subst l. eexists. split; [reflexivity |].
    split; [apply NoDup_singleton |]. split; [reflexivity |].
    split; [reflexivity |]. simpl. split; [exact Hk0 |]. split; [| exact I].
    exists (mkEntry v (tail s) 0). rewrite lookup_insert_eq. rewrite Ht. auto.
  - assert (Hlne : l <> []) by (intros E; apply Hne, Htl, E).
    eexists. split; [reflexivity |].
    split.
    { apply NoDup_app. split; [exact Hnd |]. split; [| apply NoDup_singleton].
      intros x Hx Hx'. apply list_elem_of_singleton in Hx'. subst x. auto. }
    split; [simpl; rewrite Hh; destruct l; [contradiction | reflexivity] |].
    split; [simpl; rewrite last_snoc; reflexivity |].
    simpl. rewrite Ht. apply chain_snoc; assumption.
Qed.

(** The entry of a key in the middle of a chain. *)
Lemma chain_mid m key l2 l1 : forall p,
  chain m p (l1 ++ key :: l2) ->
  exists e, m !! key = Some e /\ prev e = List.last l1 p
            /\ next e = List.hd 0 l2 /\ chain m key l2.
Proof.
  induction l1 as [|x l1 IH]; intros p Hc.
  - destruct Hc as (_ & (e & He & Hp & Hn) & Hc). exists e. auto.
  - destruct Hc as (_ & _ & Hc). destruct (IH x Hc) as (e & He & Hp & Hn & Hc2).
    exists e. split; [exact He |]. split; [| auto].
    rewrite Hp. destruct l1 as [|y l1]; [reflexivity |].
    change (List.last (x :: y :: l1) p) with (List.last (y :: l1) p).
    apply last_nonempty. discriminate.
Qed.

(** Unlinking a key: its predecessor gets its successor, its successor gets
    its predecessor. *)
Lemma chain_unlink m key l2 l1 : forall p,
  NoDup (l1 ++ key :: l2) ->
  chain m p (l1 ++ key :: l2) ->
  chain
    (match l2 with
     | [] => fun m1 => m1
     | _ => set_prev (List.hd 0 l2) (List.last l1 p)
     end
       (match l1 with
        | [] => m
        | _ => set_next (List.last l1 0) (List.hd 0 l2) m
        end))
    p (l1 ++ l2).
Proof.
  induction l1 as [|x l1 IH]; intros p Hnd Hc.
  - (* the key is the head *)
    simpl in *. destruct Hc as (_ & _ & Hc).
    destruct l2 as [|y l2]; [exact I |].
    apply NoDup_cons in Hnd as [_ Hnd]. apply NoDup_cons in Hnd as [Hy _].
    destruct Hc as (Hy0 & (e2 & He2 & _ & Hn2) & Hc). simpl.
    split; [exact Hy0 |]. split; [| apply chain_alter; assumption].
    exists (mkEntry (value e2) p (next e2)). unfold set_prev.
    rewrite lookup_alter_eq, He2. auto.
  - destruct l1 as [|x' l1].
    + (* the key follows the head *)
      simpl in *. destruct Hc as (Hx0 & (ex & Hex & Hpx & _) & Hc).
      apply NoDup_cons in Hnd as [Hx Hnd].
      apply not_elem_of_cons in Hx as [Hxk Hx].
      destruct Hc as (_ & _ & Hc).
      destruct l2 as [|y l2]; simpl.
      * split; [exact Hx0 |]. split; [| exact I].
        exists (mkEntry (value ex) (prev ex) 0). unfold set_next.
        rewrite lookup_alter_eq, Hex. auto.
      * apply NoDup_cons in Hnd as [_ Hnd]. apply NoDup_cons in Hnd as [Hy _].
        apply not_elem_of_cons in Hx as [Hxy Hx].
        destruct Hc as (Hy0 & (e2 & He2 & _ & Hn2) & Hc).
        split; [exact Hx0 |]. split.
        { exists (mkEntry (value ex) (prev ex) y). unfold set_prev, set_next.
          rewrite lookup_alter_ne by (intros E; apply Hxy; symmetry; exact E).
          rewrite lookup_alter_eq, Hex. auto. }
        split; [exact Hy0 |]. split.
        { exists (mkEntry (value e2) x (next e2)). unfold set_prev, set_next.
          rewrite lookup_alter_eq, lookup_alter_ne by exact Hxy.
          rewrite He2. auto. }
        apply chain_alter; [exact Hy |]. apply chain_alter; assumption.
    + (* the key is further down *)
      destruct Hc as (Hx0 & (ex & Hex & Hpx & Hnx) & Hc).
      pose proof Hnd as Hnd0.
      change ((x :: x' :: l1) ++ key :: l2) with (x :: ((x' :: l1) ++ key :: l2)) in Hnd.
      apply NoDup_cons in Hnd as [Hx Hnd].
      specialize (IH x Hnd Hc).
      change (List.last (x :: x' :: l1) 0) with (List.last (x' :: l1) 0).
      change (List.last (x :: x' :: l1) p) with (List.last (x' :: l1) p).
      rewrite (last_nonempty (x' :: l1) p x) by discriminate.
      change ((x :: x' :: l1) ++ l2) with (x :: ((x' :: l1) ++ l2)).
      split; [exact Hx0 |]. split; [| exact IH].
      assert (Hlast : x <> List.last (x' :: l1) 0).
      { intros E. apply Hx. rewrite E. apply elem_of_app. left.
        apply last_elem_of. discriminate. }
      exists ex. destruct l2 as [|y l2].
      * unfold set_next.
        rewrite lookup_alter_ne by (intros E; apply Hlast; symmetry; exact E).
        auto.
      * assert (Hxy : x <> y).
        { intros ->. apply Hx. apply elem_of_app. right.
          apply elem_of_cons. right. apply elem_of_cons. left. reflexivity. }
        unfold set_prev, set_next. simpl.
        rewrite lookup_alter_ne by (intros E; apply Hxy; symmetry; exact E).
        rewrite lookup_alter_ne by (intros E; apply Hlast; symmetry; exact E).
        auto.
Qed.

Lemma last_app_cons (l1 l2 : list Z) (y d : Z) :
  List.last (l1 ++ y :: l2) d = List.last (y :: l2) d.
Proof.
  induction l1 as [|x l1 IH]; [reflexivity |].
  change (List.last (x :: (l1 ++ y :: l2)) d = List.last (y :: l2) d).
  destruct (l1 ++ y :: l2) eqn:E; [destruct l1; discriminate |].
  exact IH.
Qed.

Lemma linked_new : linked (VALUE := VALUE) new [].
Proof.
  split; [apply NoDup_nil_2 |]. split; [reflexivity |]. split; [reflexivity |].
  exact I.
Qed.

(** [remove] of a key of the list takes it out of the list. *)
Lemma remove_linked s key l1 l2 :
  linked s (l1 ++ key :: l2) ->
  exists e s', map s !! key = Some e
    /\ remove key s = inr (value e, s') /\ linked s' (l1 ++ l2).
Proof.
  intros (Hnd & Hh & Ht & Hc).
  destruct (chain_mid _ _ _ _ 0 Hc) as (e & He & Hp & Hn & _).
  pose proof (chain_unlink _ _ _ _ 0 Hnd Hc) as Hu.
  assert (Hnd' : NoDup (l1 ++ l2)).
  { apply NoDup_app in Hnd as (H1 & H12 & H2).
    apply NoDup_cons in H2 as [_ H2]. apply NoDup_app.
    split; [exact H1 |]. split; [| exact H2].
    intros x Hx Hx'. apply (H12 x Hx). apply elem_of_cons. right. exact Hx'. }
  assert (Hl1 : l1 <> [] -> List.last l1 0 <> 0).
  { intros Hne. apply (chain_nonzero _ _ _ _ Hc). apply elem_of_app. left.
    apply last_elem_of, Hne. }
  assert (Hl2 : forall y l2', l2 = y :: l2' -> y <> 0).
  { intros y l2' ->. apply (chain_nonzero _ _ _ _ Hc). apply elem_of_app. right.
    apply elem_of_cons. right. apply elem_of_cons. left. reflexivity. }
  exists e. unfold remove. rewrite He, Hp, Hn.
  destruct l1 as [|x l1], l2 as [|y l2].
  - simpl. eexists. split; [reflexivity |]. split; [reflexivity |].
    split; [exact Hnd' |]. split; [reflexivity |]. split; [reflexivity |].
    exact I.
  - pose proof (Hl2 y l2 eq_refl) as Hy. simpl.
    destruct (Z.eqb_spec y 0) as [E|_]; [contradiction |]. simpl.
    eexists. split; [reflexivity |]. split; [reflexivity |].
    split; [exact Hnd' |]. split; [reflexivity |].
    split; [simpl; rewrite Ht; reflexivity |]. exact Hu.
  - pose proof (Hl1 ltac:(discriminate)) as Hx. simpl List.hd.
    destruct (Z.eqb_spec (List.last (x :: l1) 0) 0) as [E|_]; [contradiction |].
    simpl. eexists. split; [reflexivity |]. split; [reflexivity |].
    split; [exact Hnd' |]. split; [simpl; rewrite Hh; reflexivity |].
    split; [simpl; rewrite app_nil_r; reflexivity |]. exact Hu.
  - pose proof (Hl1 ltac:(discriminate)) as Hx.
    pose proof (Hl2 y l2 eq_refl) as Hy. simpl List.hd.
    destruct (Z.eqb_spec (List.last (x :: l1) 0) 0) as [E|_]; [contradiction |].
    destruct (Z.eqb_spec y 0) as [E|_]; [contradiction |].
    simpl. eexists. split; [reflexivity |]. split; [reflexivity |].
    split; [exact Hnd' |]. split; [simpl; rewrite Hh; reflexivity |].
    split; [| exact Hu].
    simpl tail. rewrite Ht.
    rewrite (last_app_cons (x :: l1) (y :: l2) key 0).
    change (x :: l1 ++ y :: l2) with ((x :: l1) ++ y :: l2).
    rewrite (last_app_cons (x :: l1) l2 y 0). reflexivity.
Qed.

(** [add] of a new key: it is found, the other keys are untouched and the
    map has one entry more. *)
Lemma add_then_find_aux s key (v : VALUE) s' :
  add key v s = inr (v, s') -> find key s = None ->
  find key s' = Some v
  /\ (forall k, k <> key -> find k s' = find k s)
  /\ size s' = S (size s).
Proof.
  unfold add, find, size. destruct (key =? 0); [discriminate |].
  destruct (map s !! key) as [e|] eqn:E; [discriminate |].
  intros Ha _.
  destruct (negb (tail s =? 0)); injection Ha as <-; simpl.
  - rewrite value_set_next, lookup_insert_eq, size_set_next.
    rewrite map_size_insert_None by exact E.
    split; [reflexivity |]. split; [| reflexivity].
    intros k Hk. rewrite value_set_next, lookup_insert_ne by congruence.
    reflexivity.
  - rewrite lookup_insert_eq, map_size_insert_None by exact E.
    split; [reflexivity |]. split; [| reflexivity].
    intros k Hk. rewrite lookup_insert_ne by congruence. reflexivity.
Qed.

Lemma within_Index_new : within_Index (new (VALUE := VALUE)).
Proof.
  unfold within_Index, is_Index. simpl.
  split; [lia | split; [lia |]]. apply map_Forall_empty.
Qed.

(** [add] of a value of [Index] keeps a set within [Index]. *)
Lemma add_within_Index s key (v r : VALUE) s' :
  within_Index s -> is_Index key -> add key v s = inr (r, s') ->
  within_Index s'.
Proof.
  intros (Hh & Ht & Hm) Hk. unfold add.
  destruct (key =? 0); [discriminate |].
  destruct (map s !! key) as [e|] eqn:E; [intros [= _ <-]; exact (conj Hh (conj Ht Hm)) |].
  assert (Hnew : map_Forall
            (fun k e => is_Index k /\ is_Index (prev e) /\ is_Index (next e))
            (<[key := mkEntry v (tail s) 0]> (map s))).
  { apply map_Forall_insert_2; [| exact Hm].
    simpl. split; [exact Hk | split; [exact Ht |]]. unfold is_Index. lia. }
  destruct (negb (tail s =? 0)); intros [= _ <-]; simpl.
  - split; [exact Hh | split; [exact Hk |]].
    apply map_Forall_lookup. intros k e Hl. unfold set_next in Hl. simpl in Hl.
    destruct (decide (k = tail s)) as [->|Hne].
    + rewrite lookup_alter_eq in Hl.
      destruct (<[key := mkEntry v (tail s) 0]> (map s) !! tail s) as [e1|] eqn:E1;
        [| discriminate].
      injection Hl as <-. simpl.
      destruct (map_Forall_lookup_1 _ _ _ _ Hnew E1) as (Hk1 & Hp1 & _).
      split; [exact Hk1 | split; [exact Hp1 | exact Hk]].
    + rewrite lookup_alter_ne in Hl by congruence.
      exact (map_Forall_lookup_1 _ _ _ _ Hnew Hl).
  - split; [exact Hk | split; [exact Hk | exact Hnew]].
Qed.

(** X1: for a set and a key within [Index], what [add] returns is what
    [find] then finds: the given value for a new key, the value already
    there for a key the map holds (which [add] does not overwrite, leaving
    the whole set as it was); no other key of [Index] is affected, and the
    set stays within [Index]. *)
Theorem add_then_find s key (v r : VALUE) s' :
  within_Index s -> is_Index key ->
  add key v s = inr (r, s') ->
  find key s' = Some r
  /\ (forall k, is_Index k -> k <> key -> find k s' = find k s)
  /\ match find key s with
     | Some old => r = old /\ s' = s
     | None => r = v /\ size s' = S (size s)
     end
  /\ within_Index s'.
Proof.
  intros Hs Hk Ha.
  split; [| split; [| split; [| exact (add_within_Index s key v r s' Hs Hk Ha)]]];
    revert Ha; unfold add, find, size; (destruct (key =? 0); [discriminate |]);
    destruct (map s !! key) as [e|] eqn:E.
  - intros [= <- <-]. rewrite E. reflexivity.
  - destruct (negb (tail s =? 0)); intros [= <- <-]; simpl.
    + rewrite value_set_next, lookup_insert_eq. reflexivity.
    + rewrite lookup_insert_eq. reflexivity.
  - intros [= <- <-]. reflexivity.
  - destruct (negb (tail s =? 0)); intros [= <- <-]; simpl; intros k _ Hne.
    + rewrite value_set_next, lookup_insert_ne by congruence. reflexivity.
    + rewrite lookup_insert_ne by congruence. reflexivity.
  - intros [= <- <-]. simpl. auto.
  - destruct (negb (tail s =? 0)); intros [= <- <-]; simpl.
    + rewrite size_set_next, map_size_insert_None by exact E. auto.
    + rewrite map_size_insert_None by exact E. auto.
Qed.

(** X2: [add] throws exactly for the null key, and [remove] throws exactly
    for a key that [find] does not find. *)
Theorem add_remove_throw_iff s key (v : VALUE) :
  ((exists ex, add key v s = inl ex) <-> key = 0)
  /\ ((exists ex, remove key s = inl ex) <-> find key s = None).
Proof.
  unfold add, remove, find. split.
  - destruct (Z.eqb_spec key 0) as [->|Hne].
    + split; eauto.
    + split; [| contradiction]. intros [ex Hex].
      destruct (map s !! key); [discriminate |].
      destruct (negb (tail s =? 0)); discriminate.
  - destruct (map s !! key) as [e|]; simpl.
    + split; [| discriminate]. intros [ex Hex].
      destruct (negb (prev e =? 0)), (negb (next e =? 0)); discriminate.
    + split; eauto.
Qed.

(** X3: [add] of a new key within [Index] appends it to the list: the other
    keys keep their order, the new key becomes the tail, the head changes
    only if the list was empty, and the set stays within [Index]. *)
Theorem add_appends_to_list s l key (v : VALUE) :
  within_Index s -> is_Index key ->
  linked s l -> key <> 0 -> find key s = None ->
  exists s', add key v s = inr (v, s')
    /\ linked s' (l ++ [key])
    /\ keys s' = l ++ [key]
    /\ getTail s' = key
    /\ getHead s' = List.hd key l
    /\ within_Index s'.
Proof.
  intros Hs Hi Hl Hk Hf.
  destruct (add_linked s l key v Hl Hk Hf) as (s' & Ha & Hl').
  exists s'. split; [exact Ha |]. split; [exact Hl' |].
  split; [apply linked_keys, Hl' |].
  pose proof (add_within_Index s key v v s' Hs Hi Ha) as Hs'.
  destruct Hl' as (_ & Hh & Ht & _). unfold getTail, getHead.
  rewrite Ht, Hh, last_snoc, hd_snoc. auto.
Qed.

(** X4: [remove] of a key of the list unlinks exactly that key: it returns
    the key's value, and the list keeps the other keys in their order. *)
Theorem remove_unlinks_key s key l1 l2 :
  linked s (l1 ++ key :: l2) ->
  exists v s', find key s = Some v
    /\ remove key s = inr (v, s')
    /\ linked s' (l1 ++ l2)
    /\ keys s' = l1 ++ l2
    /\ key ∉ keys s'.
Proof.
  intros Hl. pose proof Hl as (Hnd & _).
  destruct (remove_linked s key l1 l2 Hl) as (e & s' & He & Hr & Hl').
  exists (value e), s'. split; [unfold find; rewrite He; reflexivity |].
  split; [exact Hr |]. split; [exact Hl' |].
  rewrite (linked_keys s' _ Hl'). split; [reflexivity |].
  apply NoDup_app in Hnd as (_ & H12 & H2). apply NoDup_cons in H2 as [Hk2 _].
  intros Hin. apply elem_of_app in Hin as [Hin|Hin]; [| auto].
  apply (H12 key Hin). apply elem_of_cons. left. reflexivity.
Qed.

(** X5: a key that was removed cannot be added again: its entry is still in
    the map, so [add] returns the old value, stores nothing and does not put
    the key back on the list. *)
Theorem add_after_remove_is_stale s key l1 l2 (v v' : VALUE) s' :
  linked s (l1 ++ key :: l2) ->
  remove key s = inr (v, s') ->
  add key v' s' = inr (v, s') /\ find key s' = Some v /\ key ∉ keys s'.
Proof.
  intros Hl Hr. pose proof Hl as (Hnd & _).
  destruct (remove_linked s key l1 l2 Hl) as (e0 & s0 & _ & Hr0 & Hl').
  rewrite Hr in Hr0. injection Hr0 as -> <-.
  assert (Hk : key ∉ keys s').
  { rewrite (linked_keys s' _ Hl').
    apply NoDup_app in Hnd as (_ & H12 & H2). apply NoDup_cons in H2 as [Hk2 _].
    intros Hin. apply elem_of_app in Hin as [Hin|Hin]; [| auto].
    apply (H12 key Hin). apply elem_of_cons. left. reflexivity. }
  destruct (remove_leaves_entry key (value e0) s s' Hr) as [Hf _].
  assert (Hk0 : key <> 0).
  { destruct Hl as (_ & _ & _ & Hc). apply (chain_nonzero _ _ _ _ Hc).
    apply elem_of_app. right. apply elem_of_cons. left. reflexivity. }
  split; [| split; [exact Hf | exact Hk]].
  unfold add, find in *. destruct (Z.eqb_spec key 0) as [E|_]; [contradiction |].
  destruct (map s' !! key) as [e|]; [| discriminate].
  injection Hf as ->. reflexivity.
Qed.

Lemma add_all_within_Index (kvs : list (Z * VALUE)) : forall s s',
  within_Index s -> Forall is_Index (List.map fst kvs) ->
  add_all kvs s = inr s' -> within_Index s'.
Proof.
  induction kvs as [|[key v] kvs IH]; intros s s' Hs Hk; simpl.
  - intros [= <-]. exact Hs.
  - simpl in Hk. apply Forall_cons in Hk as [Hk Hks].
    destruct (add key v s) as [ex|[r s1]] eqn:Ha; [discriminate |].
    apply IH; [| exact Hks]. exact (add_within_Index s key v r s1 Hs Hk Ha).
Qed.

(** X6: keys within [Index] added one after the other to an empty set
    (distinct, none null) are all accepted, and the list gives them back in
    the order of their insertion; the set stays within [Index]. *)
Theorem add_all_keeps_insertion_order (kvs : list (Z * VALUE)) :
  Forall is_Index (List.map fst kvs) ->
  NoDup (List.map fst kvs) -> 0 ∉ List.map fst kvs ->
  exists s', add_all kvs new = inr s'
    /\ keys s' = List.map fst kvs
    /\ size s' = length kvs
    /\ (forall k v, (k, v) ∈ kvs -> find k s' = Some v)
    /\ within_Index s'.
Proof.
  assert (Hgen : forall kvs s l,
    linked s l -> NoDup (l ++ List.map fst kvs) -> 0 ∉ List.map fst kvs ->
    (forall k, find k s <> None -> k ∈ l) ->
    exists s', add_all kvs s = inr s'
      /\ linked s' (l ++ List.map fst kvs)
      /\ size s' = (size s + length kvs)%nat
      /\ (forall k, find k s' <> None -> k ∈ l ++ List.map fst kvs)
      /\ (forall k v, (k, v) ∈ kvs -> find k s' = Some v)
      /\ (forall k, k ∈ l -> find k s' = find k s)).
  { clear kvs. induction kvs as [|[key v] kvs IH]; intros s l Hl Hnd H0 Hdom.
    - exists s. simpl. rewrite !app_nil_r. split; [reflexivity |].
      split; [exact Hl |]. split; [lia |]. split; [exact Hdom |].
      split; [| reflexivity]. intros k v Hin. inversion Hin.
    - simpl in Hnd, H0. apply not_elem_of_cons in H0 as [Hk0 H0].
      assert (Hfresh : find key s = None).
      { destruct (find key s) eqn:E; [| reflexivity]. exfalso.
        apply NoDup_app in Hnd as (_ & H12 & _).
        apply (H12 key); [apply Hdom; congruence |].
        apply elem_of_cons. left. reflexivity. }
      destruct (add_linked s l key v Hl (not_eq_sym Hk0) Hfresh) as (s1 & Ha & Hl1).
      destruct (add_then_find_aux s key v s1 Ha Hfresh) as (Hf1 & Hother & Hsz).
      assert (Hnd1 : NoDup ((l ++ [key]) ++ List.map fst kvs))
        by (rewrite <- app_assoc; exact Hnd).
      assert (Hdom1 : forall k, find k s1 <> None -> k ∈ l ++ [key]).
      { intros k Hk. apply elem_of_app. destruct (decide (k = key)) as [->|Hne].
        - right. apply elem_of_cons. left. reflexivity.
        - left. apply Hdom. rewrite <- (Hother k Hne). exact Hk. }
      destruct (IH s1 (l ++ [key]) Hl1 Hnd1 H0 Hdom1)
        as (s' & Hall & Hl' & Hsz' & Hdom' & Hfind & Hkeep).
      exists s'. simpl. rewrite Ha.
      split; [exact Hall |].
      split; [rewrite <- app_assoc in Hl'; exact Hl' |].
      split; [rewrite Hsz', Hsz; lia |].
      split; [intros k Hk; rewrite <- app_assoc in Hdom'; exact (Hdom' k Hk) |].
      split.
      + intros k v0 Hin. apply elem_of_cons in Hin as [[= -> ->]|Hin];
          [| exact (Hfind k v0 Hin)].
        rewrite Hkeep; [exact Hf1 |]. apply elem_of_app. right.
        apply elem_of_cons. left. reflexivity.
      + intros k Hk. rewrite Hkeep by (apply elem_of_app; left; exact Hk).
        apply Hother. intros ->.
        apply NoDup_app in Hnd as (_ & H12 & _). apply (H12 key Hk).
        apply elem_of_cons. left. reflexivity. }
  intros Hrange Hnd H0.
  destruct (Hgen kvs new [] linked_new Hnd H0) as (s' & Ha & Hl & Hsz & _ & Hf & _).
  { intros k Hk. exfalso. apply Hk. reflexivity. }
  exists s'. split; [exact Ha |]. split; [apply linked_keys, Hl |].
  split; [exact Hsz |]. split; [exact Hf |].
  exact (add_all_within_Index kvs new s' within_Index_new Hrange Ha).
Qed.

End LinkedSetList.

Section LinkedSetSamples.
Import LinkedSet.

Lemma linked_sample123 : linked sample123 [1; 2; 3].
Proof.
  split.
  { apply NoDup_cons. split; [| apply NoDup_cons; split;
      [| apply NoDup_singleton]].
    - intros Hin. apply elem_of_cons in Hin as [E|Hin]; [discriminate |].
      apply list_elem_of_singleton in Hin. discriminate.
    - intros Hin. apply list_elem_of_singleton in Hin. discriminate. }
  split; [reflexivity |]. split; [reflexivity |].
  split; [discriminate |].
  split; [eexists; split; [reflexivity | split; reflexivity] |].
  split; [discriminate |].
  split; [eexists; split; [reflexivity | split; reflexivity] |].
  split; [discriminate |].
  split; [eexists; split; [reflexivity | split; reflexivity] | exact I].
Qed.

Lemma within_Index_sample123 : within_Index sample123.
Proof.
  apply (add_all_within_Index [(1, "a"); (2, "b"); (3, "c")]%string new);
    [apply within_Index_new | | reflexivity].
  simpl. repeat (constructor; [unfold is_Index; lia |]). constructor.
Qed.

Lemma add_then_find_witness :
  within_Index sample123 /\ is_Index 4
  /\ add 4 "d"%string sample123
     = inr ("d"%string, match add 4 "d"%string sample123 with
                        | inr (_, s') => s'
                        | inl _ => sample123
                        end)
  /\ find 4 (match add 4 "d"%string sample123 with
             | inr (_, s') => s'
             | inl _ => sample123
             end) = Some "d"%string.
Proof.
  split; [exact within_Index_sample123 |].
  split; [unfold is_Index; lia |].
  split; [reflexivity |].
  apply (add_then_find sample123 4 "d"%string "d"%string _
           within_Index_sample123 ltac:(unfold is_Index; lia) eq_refl).
Defined.

Lemma add_appends_to_list_witness :
  within_Index sample123 /\ is_Index 4
  /\ linked sample123 [1; 2; 3] /\ 4 <> 0 /\ find 4 sample123 = None
  /\ exists s', add 4 "d"%string sample123 = inr ("d"%string, s')
       /\ keys s' = [1; 2; 3] ++ [4].
Proof.
  split; [exact within_Index_sample123 |].
  split; [unfold is_Index; lia |].
  split; [exact linked_sample123 |]. split; [discriminate |].
  split; [reflexivity |].
  destruct (add_appends_to_list sample123 [1; 2; 3] 4 "d"%string
              within_Index_sample123 ltac:(unfold is_Index; lia)
              linked_sample123 ltac:(discriminate) eq_refl)
    as (s' & Ha & _ & Hk & _).
  exists s'. split; [exact Ha | exact Hk].
Defined.

Lemma remove_unlinks_key_witness :
  linked sample123 ([1] ++ 2 :: [3])
  /\ exists v s', remove 2 sample123 = inr (v, s') /\ keys s' = [1] ++ [3].
Proof.
  split; [exact linked_sample123 |].
  destruct (remove_unlinks_key sample123 2 [1] [3] linked_sample123)
    as (v & s' & _ & Hr & _ & Hk & _).
  exists v, s'. split; [exact Hr | exact Hk].
Defined.

Lemma add_after_remove_is_stale_witness :
  linked sample123 ([1] ++ 2 :: [3])
  /\ exists s', remove 2 sample123 = inr ("b"%string, s')
       /\ add 2 "z"%string s' = inr ("b"%string, s').
Proof.
  split; [exact linked_sample123 |].
  eexists. split; [reflexivity |].
  apply (add_after_remove_is_stale sample123 2 [1] [3] "b"%string "z"%string _
           linked_sample123 eq_refl).
Defined.

Lemma add_all_keeps_insertion_order_witness :
  Forall is_Index (List.map fst [(1, "a"); (2, "b"); (3, "c")]%string)
  /\ NoDup (List.map fst [(1, "a"); (2, "b"); (3, "c")]%string)
  /\ (0 ∉ List.map fst [(1, "a"); (2, "b"); (3, "c")]%string)
  /\ exists s', add_all [(1, "a"); (2, "b"); (3, "c")]%string new = inr s'
       /\ keys s' = [1; 2; 3].
Proof.
  assert (Hnd : NoDup (List.map fst [(1, "a"); (2, "b"); (3, "c")]%string))
    by (destruct linked_sample123 as [Hnd _]; exact Hnd).
  assert (H0 : 0 ∉ List.map fst [(1, "a"); (2, "b"); (3, "c")]%string).
  { simpl. intros Hin. repeat (apply elem_of_cons in Hin as [E|Hin];
      [discriminate |]). inversion Hin. }
  assert (Hr : Forall is_Index (List.map fst [(1, "a"); (2, "b"); (3, "c")]%string)).
  { simpl. repeat (constructor; [unfold is_Index; lia |]). constructor. }
  split; [exact Hr |]. split; [exact Hnd |]. split; [exact H0 |].
  destruct (add_all_keeps_insertion_order _ Hr Hnd H0) as (s' & Ha & Hk & _).
  exists s'. split; [exact Ha | exact Hk].
Defined.

End LinkedSetSamples.

(** ** Internet addresses: [operator==] against [operator<] *)

Section InAddrEquality.
Import InAddr.

Lemma eq_iff_same (a b : Impl) :
  wf a = true -> wf b = true -> (InAddr.eq a b = true <-> a = b).
Proof.
  intros Wa Wb. unfold InAddr.eq, Impl_eq.
  destruct a as [x|x|x], b as [y|y|y]; simpl;
    try (split; [discriminate | intros E; discriminate E]).
  - rewrite Z.eqb_eq. split; [intros ->; reflexivity | intros [= ->]; reflexivity].
  - apply wf_In6Addr in Wa, Wb. rewrite (memcmp_eq 16 y x Wb Wa).
    split; [intros ->; reflexivity | intros [= ->]; reflexivity].
  - rewrite String.eqb_eq.
    split; [intros ->; reflexivity | intros [= ->]; reflexivity].
Qed.

(** X7: on the addresses the constructors build, [a == b] holds exactly when
    [a] and [b] are the same address (same variant, same payload), and the
    double dispatch makes no difference between [a == b] and [b == a]. *)
Theorem InAddr_eq_same_address (a b : Impl) :
  wf a = true -> wf b = true ->
  (InAddr.eq a b = true <-> a = b) /\ InAddr.eq a b = InAddr.eq b a.
Proof.
  intros Wa Wb. split; [apply eq_iff_same; assumption |].
  destruct (InAddr.eq a b) eqn:E1, (InAddr.eq b a) eqn:E2; try reflexivity.
  - apply (eq_iff_same a b Wa Wb) in E1. subst b.
    pose proof (proj2 (eq_iff_same a a Wa Wa) eq_refl). congruence.
  - apply (eq_iff_same b a Wb Wa) in E2. subst b.
    pose proof (proj2 (eq_iff_same a a Wa Wa) eq_refl). congruence.
Qed.

(** X8: [operator<] and [operator==] agree: of [a < b], [a == b] and
    [b < a] exactly one holds. *)
Theorem InAddr_trichotomy (be : bool) (a b : Impl) :
  wf a = true -> wf b = true ->
  (lt be a b = true /\ InAddr.eq a b = false /\ lt be b a = false)
  \/ (lt be a b = false /\ InAddr.eq a b = true /\ lt be b a = false)
  \/ (lt be a b = false /\ InAddr.eq a b = false /\ lt be b a = true).
Proof.
  intros Wa Wb.
  rewrite (lt_is_spec_lt be a b Wa Wb), (lt_is_spec_lt be b a Wb Wa).
  assert (Hasym : spec_lt be a b = true -> spec_lt be b a = false).
  { intros L. destruct (spec_lt be b a) eqn:G; [| reflexivity].
    rewrite <- (spec_lt_irrefl be a). symmetry.
    exact (spec_lt_trans be a b a L G). }
  assert (Hne : spec_lt be a b = true -> InAddr.eq a b = false).
  { intros L. destruct (InAddr.eq a b) eqn:E; [| reflexivity].
    apply (eq_iff_same a b Wa Wb) in E. subst b.
    rewrite spec_lt_irrefl in L. discriminate. }
  assert (Hne' : spec_lt be b a = true -> InAddr.eq a b = false).
  { intros L. destruct (InAddr.eq a b) eqn:E; [| reflexivity].
    apply (eq_iff_same a b Wa Wb) in E. subst b.
    rewrite spec_lt_irrefl in L. discriminate. }
  destruct (spec_lt_total be a b Wa Wb) as [L|[E|G]].
  - left. auto.
  - right. left. subst b. rewrite spec_lt_irrefl.
    split; [reflexivity |].
    split; [apply (eq_iff_same a a Wa Wa); reflexivity | reflexivity].
  - right. right. split; [| auto].
    destruct (spec_lt be a b) eqn:L; [| reflexivity].
    rewrite (Hasym eq_refl) in G. discriminate.
Qed.

Lemma InAddr_eq_same_address_witness :
  wf addr4 = true /\ wf addr6 = true /\ InAddr.eq addr4 addr6 = InAddr.eq addr6 addr4.
Proof.
  split; [reflexivity | split; [reflexivity |]].
  apply (InAddr_eq_same_address addr4 addr6); reflexivity.
Defined.

Lemma InAddr_trichotomy_witness :
  wf addr6 = true /\ wf addrName = true
  /\ ((lt false addr6 addrName = true /\ InAddr.eq addr6 addrName = false
       /\ lt false addrName addr6 = false)
      \/ (lt false addr6 addrName = false /\ InAddr.eq addr6 addrName = true
          /\ lt false addrName addr6 = false)
      \/ (lt false addr6 addrName = false /\ InAddr.eq addr6 addrName = false
          /\ lt false addrName addr6 = true)).
Proof.
  split; [reflexivity | split; [reflexivity |]].
  apply (InAddr_trichotomy false addr6 addrName); reflexivity.
Defined.

End InAddrEquality.

(** ** The size of a data segment, for all arguments *)

Section DataSegSizeBounds.
Import HycastProto.

(** X9: whatever the arguments, also an offset beyond the product size,
    [DataSeg::size] returns a length between 0 and the canonical size of
    1444 bytes. *)
Theorem size_within_canon (prodSize offset : Z) :
  0 <= DataSeg.size prodSize offset <= 1444.
Proof.
  unfold DataSeg.size. rewrite CANON_DATASEG_SIZE_value.
  assert (Hb : 0 <= u16 (u32 (prodSize - offset)) < 2 ^ 16)
    by (unfold u16; apply Z.mod_pos_bound; reflexivity).
  destruct (Z.gtb_spec (u16 (u32 (prodSize - offset))) 1444); lia.
Qed.

(** X10: for an offset within a 32-bit product size, [DataSeg::size] returns
    0 exactly when the rest of the product is a multiple of 65536 bytes: at
    the end of the product, and also wherever 64 KiB, 128 KiB, ... remain. *)
Theorem size_zero_iff_rest_multiple_of_64KiB (prodSize offset : Z) :
  0 <= offset <= prodSize ->
  prodSize < 2 ^ 32 ->
  (DataSeg.size prodSize offset = 0 <-> (prodSize - offset) mod 65536 = 0).
Proof.
  intros Ho Hp. unfold DataSeg.size, u16, u32.
  rewrite CANON_DATASEG_SIZE_value.
  rewrite (Z.mod_small (prodSize - offset) (2 ^ 32)) by lia.
  change (2 ^ 16) with 65536.
  destruct (Z.gtb_spec ((prodSize - offset) mod 65536) 1444); lia.
Qed.

Lemma size_zero_iff_rest_multiple_of_64KiB_witness :
  0 <= 1000 <= 132072 /\ 132072 < 2 ^ 32
  /\ (DataSeg.size 132072 1000 = 0 <-> (132072 - 1000) mod 65536 = 0).
Proof.
  split; [lia | split; [lia |]].
  apply (size_zero_iff_rest_multiple_of_64KiB 132072 1000); lia.
Defined.

End DataSegSizeBounds.

(** ** The manager: admission at capacity, [halt] before [operator()()] and a
    shutdown that fails *)

Section ManagerEdges.
Import HycastProto P2pMgr.
Context {SockAddr : Type} `{Countable SockAddr} {U : Type} `{P2pSub U}.
Implicit Types s : Impl SockAddr U.

(** X11: a publisher whose peer set holds [maxPeers] peers or more adds no
    peer: [tryAdd] leaves the manager as it is.  With exactly [maxPeers]
    peers it nevertheless answers true ([tryAdd2] of the publisher only
    logs); with more it answers false. *)
Theorem publisher_tryAdd_at_capacity (peer : Peer SockAddr) s :
  kind s = PubP2pMgr ->
  0 <= maxPeers s < 2 ^ 31 ->
  maxPeers s <= Z.of_nat (PeerSet.size (peerSet s)) ->
  tryAdd peer s
  = Ok (Z.of_nat (PeerSet.size (peerSet s)) =? maxPeers s) s.
Proof.
  intros K Hm Hfull. unfold tryAdd, tryAdd2.
  rewrite (as_size_t_small _ Hm), K.
  destruct (Z.ltb_spec (Z.of_nat (PeerSet.size (peerSet s))) (maxPeers s)); [lia |].
  destruct (Z.gtb_spec (Z.of_nat (PeerSet.size (peerSet s))) (maxPeers s)).
  - rewrite (proj2 (Z.eqb_neq _ _)) by lia. reflexivity.
  - rewrite (proj2 (Z.eqb_eq _ _)) by lia. reflexivity.
Qed.

(** X12: when [halt()] was called before [operator()()], the call returns at
    once: no thread is started and nothing else changes; and a call that
    waits returns, after the shutdown, as soon as [halt()] is called. *)
Theorem halt_before_run_returns_at_once (env : Env) s :
  executing s = false ->
  enter env (halt s) = Ok false (halt s)
  /\ (cancelImprover env = 0 -> cancelConnector env = 0 ->
      exists s', leave env (halt s) = Some (Ok tt s')
                 /\ acceptThread s' = false /\ improveThread s' = false
                 /\ executing s' = false /\ done s' = true).
Proof.
  intros He. split.
  - unfold enter, halt. simpl. rewrite He. reflexivity.
  - intros Hi Hc.
    destruct (shutdown_clean env (halt s) Hi Hc)
      as (s' & Hs & Hex & Ha & Him & _ & _ & _ & Hd).
    exists s'. unfold leave, waitUntilDone. simpl.
    unfold try_catch, bind. rewrite Hs. simpl in Hd. auto.
Qed.

(** The exception of a shutdown whose cancellation of the improver fails. *)
Lemma shutdown_improver_fails (env : Env) s :
  improveThread s = true ->
  cancelImprover env <> 0 ->
  exists inner,
    shutdown env s
    = Throw (NESTED (RUNTIME_ERROR "Couldn't stop tasks") inner)
            (set_improveThread false s).
Proof.
  intros Hi Hc.
  unfold shutdown, stopTasks, stopTasks2, stopImprover, try_catch, bind, throw.
  rewrite Hi. destruct (Z.eqb_spec (cancelImprover env) 0) as [E|_];
    [contradiction |].
  destruct (kind s); simpl; eexists; reflexivity.
Qed.

(** X13: when a task exception ends the wait of [operator()()] and the
    cancellation of the improver fails, the call throws the error of the
    shutdown (nested in "Couldn't stop tasks") in place of the task's
    exception, and the shutdown is left unfinished: the accept thread (and
    the connect thread) is still running, no peer was halted and
    [executing] was not written. *)
Theorem failed_shutdown_masks_task_exception (env : Env) (ex : Exception) s :
  done s = false ->
  taskException s = Some ex ->
  improveThread s = true ->
  cancelImprover env <> 0 ->
  exists inner s',
    leave env s
    = Some (Throw (NESTED (RUNTIME_ERROR "Couldn't stop tasks") inner) s')
    /\ improveThread s' = false
    /\ acceptThread s' = acceptThread s
    /\ connectThread s' = connectThread s
    /\ halted s' = halted s
    /\ executing s' = executing s.
Proof.
  intros Hd Hex Hi Hc.
  destruct (shutdown_improver_fails env s Hi Hc) as (inner & Hs).
  exists inner, (set_improveThread false s).
  unfold leave, waitUntilDone. rewrite Hd, Hex.
  unfold try_catch, bind at 1. unfold bind, throw. rewrite Hs.
  repeat split; reflexivity.
Qed.

(** X14: when [halt()] ends the wait and the cancellation of the improver
    fails, the call throws the error of the shutdown, but the handler has
    run the shutdown a second time: every thread is joined, the peers are
    halted and [executing] is false. *)
Theorem failed_shutdown_is_retried_after_halt (env : Env) s :
  done s = true ->
  improveThread s = true ->
  cancelImprover env <> 0 ->
  cancelConnector env = 0 ->
  exists inner s',
    leave env s
    = Some (Throw (NESTED (RUNTIME_ERROR "Couldn't stop tasks") inner) s')
    /\ improveThread s' = false
    /\ acceptThread s' = false
    /\ (kind s = SubP2pMgr -> connectThread s' = false)
    /\ halted s' = halted s ++ List.map rmtAddr (peerSet s)
    /\ executing s' = false.
Proof.
  intros Hd Hi Hc Hcc.
  destruct (shutdown_improver_fails env s Hi Hc) as (inner & Hs).
  exists inner.
  unfold leave, waitUntilDone. rewrite Hd.
  unfold try_catch, bind at 1. rewrite Hs.
  unfold bind, throw, shutdown, stopTasks, stopTasks2, stopImprover,
    stopConnector, stopAccepter, try_catch, bind, modify, peerSet_halt.
  simpl. rewrite Hcc. simpl.
  destruct (kind s) eqn:K, (connectThread s) eqn:C, (acceptThread s) eqn:A;
    simpl; rewrite ?K, ?C, ?A; simpl; rewrite ?K, ?C, ?A; simpl;
    eexists; (split; [reflexivity |]); simpl; rewrite ?C, ?A;
    repeat split; auto; discriminate.
Qed.

End ManagerEdges.

(** ** What is latched: [done] and the task exception *)

Section ManagerLatches.
Import HycastProto P2pMgr.
Context {SockAddr : Type} `{Countable SockAddr} {U : Type} `{P2pSub U}.
Implicit Types s : Impl SockAddr U.

Create HintDb latched discriminated.

Lemma latched_ret {A} (a : A) : latched (SockAddr := SockAddr) (U := U) (ret a).
Proof. intros s. reflexivity. Qed.

Lemma latched_throw {A} (e : Exception) :
  latched (SockAddr := SockAddr) (U := U) (A := A) (throw e).
Proof. intros s. reflexivity. Qed.

Lemma latched_modify (f : Impl SockAddr U -> Impl SockAddr U) :
  (forall s, latches (f s) = latches s) -> latched (modify f).
Proof. intros Hf s. apply Hf. Qed.

Lemma latched_bind {A B} (m : M A) (k : A -> M B) :
  latched (SockAddr := SockAddr) (U := U) m -> (forall a, latched (k a)) ->
  latched (bind m k).
Proof.
  intros Hm Hk s. unfold bind. specialize (Hm s).
  destruct (m s) as [a s'|e s'|]; [| exact Hm | exact I].
  specialize (Hk a s'). destruct (k a s'); [congruence | congruence | exact I].
Qed.

Lemma latched_try_catch {A} (m : M A) (h : Exception -> M A) :
  latched (SockAddr := SockAddr) (U := U) m -> (forall e, latched (h e)) ->
  latched (try_catch m h).
Proof.
  intros Hm Hh s. unfold try_catch. specialize (Hm s).
  destruct (m s) as [a s'|e s'|]; [exact Hm | | exact I].
  specialize (Hh e s'). destruct (h e s'); [congruence | congruence | exact I].
Qed.

Lemma latched_after {A} (m : M A) s :
  latched m -> latches (after (m s) s) = latches s.
Proof. intros Hm. specialize (Hm s). destruct (m s); simpl; auto. Qed.

#[local] Hint Resolve latched_ret latched_throw latched_bind latched_try_catch
  : latched.

Lemma latched_startAccepter : latched (SockAddr := SockAddr) (U := U) startAccepter.
Proof. intros s. unfold startAccepter. destruct (acceptThread s); simpl; auto. Qed.

Lemma latched_startImprover : latched (SockAddr := SockAddr) (U := U) startImprover.
Proof. intros s. unfold startImprover. destruct (improveThread s); simpl; auto. Qed.

Lemma latched_startConnector : latched (SockAddr := SockAddr) (U := U) startConnector.
Proof. intros s. unfold startConnector. destruct (connectThread s); simpl; auto. Qed.

Lemma latched_stopAccepter : latched (SockAddr := SockAddr) (U := U) stopAccepter.
Proof. intros s. unfold stopAccepter. destruct (acceptThread s); simpl; auto. Qed.

Lemma latched_stopImprover (env : Env) :
  latched (SockAddr := SockAddr) (U := U) (stopImprover env).
Proof.
  intros s. unfold stopImprover.
  destruct (improveThread s); [| reflexivity].
  destruct (negb (cancelImprover env =? 0)); reflexivity.
Qed.

Lemma latched_stopConnector (env : Env) :
  latched (SockAddr := SockAddr) (U := U) (stopConnector env).
Proof.
  intros s. unfold stopConnector.
  destruct (connectThread s); [| reflexivity].
  destruct (negb (cancelConnector env =? 0)); reflexivity.
Qed.

#[local] Hint Resolve latched_startAccepter latched_startImprover
  latched_startConnector latched_stopAccepter latched_stopImprover
  latched_stopConnector : latched.

Lemma latched_cond {A} (c : Impl SockAddr U -> bool) (m1 m2 : M A) :
  latched m1 -> latched m2 -> latched (fun s => if c s then m1 s else m2 s).
Proof. intros H1 H2 s. destruct (c s); [apply H1 | apply H2]. Qed.

Lemma latched_ok {A} (a : A) :
  latched (SockAddr := SockAddr) (U := U) (fun s => Ok a s).
Proof. intros s. reflexivity. Qed.

Lemma latched_startTasks2 (env : Env) :
  latched (SockAddr := SockAddr) (U := U) (startTasks2 env).
Proof.
  intros s. unfold startTasks2. destruct (kind s).
  - destruct (maxPeers s >? 1); [apply latched_startImprover | reflexivity].
  - revert s. apply latched_bind; [auto with latched |]. intros _.
    apply latched_try_catch.
    + apply (latched_cond (fun s' => maxPeers s' >? 1));
        [auto with latched | apply latched_ok].
    + intros e. auto with latched.
Qed.

Lemma latched_stopTasks2 (env : Env) :
  latched (SockAddr := SockAddr) (U := U) (stopTasks2 env).
Proof.
  intros s. unfold stopTasks2. destruct (kind s).
  - apply latched_try_catch; [auto with latched | intros; apply latched_throw].
  - apply latched_bind; auto with latched.
Qed.

Lemma latched_startTasks (env : Env) :
  latched (SockAddr := SockAddr) (U := U) (startTasks env).
Proof.
  unfold startTasks. pose proof (latched_startTasks2 env). auto with latched.
Qed.

Lemma latched_shutdown (env : Env) :
  latched (SockAddr := SockAddr) (U := U) (shutdown env).
Proof.
  unfold shutdown, stopTasks. pose proof (latched_stopTasks2 env).
  apply latched_bind; [auto with latched |]. intros _.
  apply latched_bind; intros; apply latched_modify; reflexivity.
Qed.

Lemma latched_enter (env : Env) :
  latched (SockAddr := SockAddr) (U := U) (enter env).
Proof.
  intros s. unfold enter.
  destruct (executing s); [reflexivity |].
  destruct (negb (done s)); [| reflexivity].
  apply latched_bind; [apply latched_startTasks | intros; apply latched_ret].
Qed.

Lemma latches_leave (env : Env) s r :
  leave env s = Some r -> latches (after r s) = latches s.
Proof.
  unfold leave. intros E.
  destruct (waitUntilDone s) as [w|] eqn:W; [| discriminate].
  injection E as <-.
  assert (Hw : match w with
               | Ok _ s' => s' = s
               | Throw _ s' => s' = s
               | Terminate => False
               end).
  { unfold waitUntilDone in W.
    destruct (done s), (taskException s); inversion W; reflexivity. }
  pose proof (latched_shutdown env) as Hs.
  unfold try_catch, bind.
  destruct w as [[] s1|ex s1|]; [| | contradiction]; subst s1.
  - specialize (Hs s). destruct (shutdown env s) as [[] s2|e2 s2|] eqn:S2;
      simpl; auto.
    specialize (latched_shutdown env s2). rewrite <- Hs.
    destruct (shutdown env s2); simpl; auto.
  - specialize (Hs s). destruct (shutdown env s); simpl; auto.
Qed.

Lemma latched_add (peer : Peer SockAddr) :
  latched (SockAddr := SockAddr) (U := U) (add peer).
Proof.
  intros s. unfold add.
  destruct (PeerSet.activate _ _) as [ex|[b ps]]; reflexivity.
Qed.

Lemma latched_tryAdd2 (peer : Peer SockAddr) :
  latched (SockAddr := SockAddr) (U := U) (tryAdd2 peer).
Proof.
  intros s. unfold tryAdd2. destruct (kind s); [reflexivity |].
  destruct (Bookkeeper.getPubPathCounts _) as [numPath numNoPath].
  destruct (Bool.eqb _ _); [| reflexivity].
  destruct (Bookkeeper.getWorstPeerWith _ _) as [worst|]; [| reflexivity].
  pose proof (latched_bind _ (fun _ => ret true) (latched_add peer)
                (fun _ => latched_ret true) (halt_peer worst s)) as L.
  destruct (bind _ _ _); auto.
Qed.

Lemma latched_tryAdd (peer : Peer SockAddr) :
  latched (SockAddr := SockAddr) (U := U) (tryAdd peer).
Proof.
  intros s. unfold tryAdd.
  destruct (_ <? _).
  - apply latched_bind; [apply latched_add | intros; apply latched_ret].
  - destruct (_ >? _); [reflexivity | apply latched_tryAdd2].
Qed.

Lemma latches_reassignOne s (chunkId : NoteReq) :
  latches (reassignOne s chunkId) = latches s.
Proof.
  unfold reassignOne.
  destruct (Bookkeeper.popBestAlt _ _) as [[altPeer|] bk]; reflexivity.
Qed.

Lemma latches_reassignPending (peer : Peer SockAddr) s :
  latches (reassignPending peer s) = latches s.
Proof.
  unfold reassignPending.
  generalize (Bookkeeper.getRequested peer (bookkeeper s)) as l.
  intros l. revert s. induction l as [|x l IH]; intros s; simpl; [reflexivity |].
  rewrite IH. apply latches_reassignOne.
Qed.

Lemma latches_stopped (peer : Peer SockAddr) s :
  latches (stopped peer s) = latches s.
Proof.
  unfold stopped, stopped2. destruct (done s); [reflexivity |].
  destruct (kind s) eqn:K; simpl; unfold latches; simpl; rewrite ?K;
    [reflexivity |].
  apply (latches_reassignPending peer (consider (rmtAddr peer) s)).
Qed.

Lemma latches_peerStopped (peer : Peer SockAddr) s :
  latches (peerStopped peer s) = latches s.
Proof. unfold peerStopped. rewrite latches_stopped. reflexivity. Qed.

Lemma latched_shouldRequest (a : SockAddr) (item : NoteReq) :
  latched (SockAddr := SockAddr) (U := U) (P2pMgr.shouldRequest a item).
Proof.
  intros s. unfold P2pMgr.shouldRequest.
  destruct (peers s !! a); [| reflexivity].
  destruct (Bookkeeper.shouldRequest _ _ _) as [[] bk]; reflexivity.
Qed.

Lemma latched_hereIs (a : SockAddr) (data : Data) :
  latched (SockAddr := SockAddr) (U := U) (hereIs a data).
Proof.
  intros s. unfold hereIs.
  destruct (peers s !! a); [| reflexivity].
  destruct (Bookkeeper.received _ _ _) as [[] bk]; simpl; [| reflexivity].
  destruct (sub_hereIsP2p _ _) as [[] u]; reflexivity.
Qed.

Lemma latched_served (a : SockAddr) :
  latched (SockAddr := SockAddr) (U := U) (P2pMgr.served a).
Proof.
  intros s. unfold P2pMgr.served. destruct (peers s !! a); reflexivity.
Qed.

Lemma latches_improve (timedOut : bool) s :
  latches (improve timedOut s) = latches s.
Proof.
  unfold improve. destruct (_ || _); [reflexivity |].
  destruct (Bookkeeper.getWorstPeer _); reflexivity.
Qed.

(** What a step may do to the latches: nothing, or latch one of them. *)
Lemma latches_setException (ex : Exception) s :
  done (setException ex s) = done s
  /\ forall e, taskException s = Some e -> taskException (setException ex s) = Some e.
Proof.
  unfold setException. destruct (taskException s) as [e0|] eqn:T.
  - split; [reflexivity |]. intros e He. congruence.
  - split; [reflexivity |]. intros e He. discriminate He.
Qed.

Lemma latches_accept (peer : Peer SockAddr) s :
  done (accept peer s) = done s
  /\ forall e, taskException s = Some e -> taskException (accept peer s) = Some e.
Proof.
  unfold accept. pose proof (latched_tryAdd peer s) as L.
  destruct (tryAdd peer s) as [success s1|ex s1|]; [| | auto].
  - injection L as D T.
    destruct (kind s); [| destruct success]; simpl; rewrite ?D, ?T; auto.
  - injection L as D T.
    destruct (latches_setException ex s1) as [D1 T1].
    rewrite D1, D. split; [reflexivity |]. intros e He. apply T1. congruence.
Qed.

Lemma latches_connect (outcome : Connected) s :
  done (connect outcome s) = done s
  /\ forall e, taskException s = Some e -> taskException (connect outcome s) = Some e.
Proof.
  unfold connect. destruct (_ >=? _); [auto |].
  destruct (serverPool s) as [|srvrAddr pool]; [auto |].
  destruct outcome as [pathToPub|[] ex].
  - pose proof (latched_tryAdd (mkPeer srvrAddr pathToPub)
                  (set_serverPool pool s)) as L.
    destruct (tryAdd _ _) as [[] s2|ex s2|]; [| | | auto];
      injection L as D T; simpl in *; rewrite ?D, ?T; auto.
  - apply (latches_setException ex (set_serverPool pool s)).
  - auto.
Qed.

Lemma step_latches (env : Env) s s' :
  step env s s' ->
  (done s = true -> done s' = true)
  /\ (forall e, taskException s = Some e -> taskException s' = Some e).
Proof.
  assert (K : forall t t' : Impl SockAddr U, latches t' = latches t ->
            (done t = true -> done t' = true)
            /\ (forall e, taskException t = Some e -> taskException t' = Some e)).
  { intros t t' L. injection L as D T. rewrite D, T. auto. }
  assert (K2 : forall t t' : Impl SockAddr U,
            done t' = done t
            /\ (forall e, taskException t = Some e -> taskException t' = Some e) ->
            (done t = true -> done t' = true)
            /\ (forall e, taskException t = Some e -> taskException t' = Some e)).
  { intros t t' [D T]. rewrite D. auto. }
  intros St. destruct St.
  - apply K, latched_after, latched_enter.
  - apply K. eapply latches_leave; eassumption.
  - split; [reflexivity | auto].
  - apply K2, latches_setException.
  - apply K2, latches_accept.
  - apply K2, latches_connect.
  - apply K, latches_improve.
  - apply K, latches_peerStopped.
  - apply K, latched_after, latched_shouldRequest.
  - apply K, latched_after, latched_hereIs.
  - apply K, latched_after, latched_served.
Qed.

(** X15: in every execution, from any state on, [done] stays set once
    [halt()] has set it, and a captured task exception stays the captured
    one: no call of the manager, of its tasks or of the peer set clears or
    replaces either. *)
Theorem done_and_taskException_are_latched (env : Env) s0 s :
  reachable env s0 s ->
  (done s0 = true -> done s = true)
  /\ (forall e, taskException s0 = Some e -> taskException s = Some e).
Proof.
  induction 1 as [|s s' _ [IHd IHt] St]; [auto |].
  destruct (step_latches env s s' St) as [D T]. auto.
Qed.

End ManagerLatches.

Section ManagerEdgeSamples.
Import HycastProto P2pMgr Sample.

Lemma publisher_tryAdd_at_capacity_witness :
  kind pubAB = PubP2pMgr /\ PeerSet.size (peerSet pubAB) = 2%nat
  /\ tryAdd peerC pubAB = Ok true pubAB.
Proof.
  split; [reflexivity | split; [reflexivity |]].
  apply (publisher_tryAdd_at_capacity peerC pubAB);
    [reflexivity | vm_compute; split; [discriminate | reflexivity]
    | vm_compute; discriminate].
Defined.

Lemma halt_before_run_returns_at_once_witness :
  executing sub2 = false
  /\ enter env0 (halt sub2) = Ok false (halt sub2).
Proof.
  split; [reflexivity |].
  apply (halt_before_run_returns_at_once env0 sub2); reflexivity.
Defined.

Lemma failed_shutdown_masks_task_exception_witness :
  improveThread subRunning = true /\ connectThread subRunning = true
  /\ exists inner s',
       leave envNoImprover (setException (TASK_ERROR 1) subRunning)
       = Some (Throw (NESTED (RUNTIME_ERROR "Couldn't stop tasks") inner) s')
       /\ improveThread s' = false
       /\ acceptThread s' = true
       /\ connectThread s' = true
       /\ halted s' = []
       /\ executing s' = false.
Proof.
  split; [reflexivity | split; [reflexivity |]].
  apply (failed_shutdown_masks_task_exception envNoImprover STD_EXCEPTION
           (setException (TASK_ERROR 1) subRunning));
    [reflexivity | reflexivity | reflexivity | vm_compute; discriminate].
Defined.

Lemma failed_shutdown_is_retried_after_halt_witness :
  improveThread (halt subRunning) = true
  /\ exists inner s',
       leave envNoImprover (halt subRunning)
       = Some (Throw (NESTED (RUNTIME_ERROR "Couldn't stop tasks") inner) s')
       /\ improveThread s' = false
       /\ acceptThread s' = false
       /\ (kind (halt subRunning) = SubP2pMgr -> connectThread s' = false)
       /\ halted s' = halted (halt subRunning)
                      ++ List.map rmtAddr (peerSet (halt subRunning))
       /\ executing s' = false.
Proof.
  split; [reflexivity |].
  apply (failed_shutdown_is_retried_after_halt envNoImprover (halt subRunning));
    [reflexivity | reflexivity | vm_compute; discriminate | reflexivity].
Defined.

Lemma done_and_taskException_are_latched_witness :
  done (peerStopped peerA
          (after (enter env0 (halt (setException (TASK_ERROR 1) subA)))
                 (halt (setException (TASK_ERROR 1) subA)))) = true
  /\ forall e, taskException (halt (setException (TASK_ERROR 1) subA)) = Some e ->
       taskException
         (peerStopped peerA
            (after (enter env0 (halt (setException (TASK_ERROR 1) subA)))
                   (halt (setException (TASK_ERROR 1) subA)))) = Some e.
Proof.
  destruct (done_and_taskException_are_latched env0
              (halt (setException (TASK_ERROR 1) subA))
              (peerStopped peerA
                 (after (enter env0 (halt (setException (TASK_ERROR 1) subA)))
                        (halt (setException (TASK_ERROR 1) subA)))))
    as [D T].
  - eapply reach_step; [eapply reach_step; [apply reach_refl | apply step_enter] |].
    apply step_peerStopped. reflexivity.
  - split; [apply D; reflexivity | exact T].
Defined.

End ManagerEdgeSamples.

(** ** Which exceptions [isFatal] takes for fatal *)

Section FatalExceptions.
Import Fatal.

Lemma isFatal_unfold (E : Errno) (ex : StdException) :
  isFatal E ex
  = match nested_ptr ex with
    | NotNested => Return true
    | NestedNull => StdTerminate
    | NestedOther => Uncaught
    | NestedStd inner =>
        match inner with
        | SystemError generic errNum _ =>
            if generic
            then Return (negb (errNum =? ECONNREFUSED E)
                         && negb (errNum =? ECONNRESET E)
                         && negb (errNum =? ENETUNREACH E)
                         && negb (errNum =? ENETRESET E)
                         && negb (errNum =? ENETDOWN E)
                         && negb (errNum =? EHOSTUNREACH E))
            else Return true
        | RuntimeError _ => Return false
        | OtherException _ => isFatal E inner
        end
    end.
Proof. destruct ex; reflexivity. Qed.

Lemma nesting_unfold (ex : StdException) :
  nesting ex
  = match nested_ptr ex with
    | NestedStd inner => inner :: nesting inner
    | _ => []
    end.
Proof. destruct ex as [g n [| |i|]|[| |i|]|[| |i|]]; reflexivity. Qed.

Lemma transient_test (E : Errno) (errNum : Z) :
  negb (errNum =? ECONNREFUSED E) && negb (errNum =? ECONNRESET E)
  && negb (errNum =? ENETUNREACH E) && negb (errNum =? ENETRESET E)
  && negb (errNum =? ENETDOWN E) && negb (errNum =? EHOSTUNREACH E) = false
  <-> transient E errNum.
Proof.
  unfold transient.
  destruct (Z.eqb_spec errNum (ECONNREFUSED E)), (Z.eqb_spec errNum (ECONNRESET E)),
    (Z.eqb_spec errNum (ENETUNREACH E)), (Z.eqb_spec errNum (ENETRESET E)),
    (Z.eqb_spec errNum (ENETDOWN E)), (Z.eqb_spec errNum (EHOSTUNREACH E));
    simpl; split; intros Hx; try tauto; try discriminate.
Qed.

Lemma not_fatal_aux (E : Errno) (l : list StdException) : forall ex,
  nesting ex = l ->
  isFatal E ex = Return false
  <-> exists others r rest,
        l = others ++ r :: rest /\ forallb is_other others = true /\ benign E r.
Proof.
  induction l as [|a l IH]; intros ex Hl; rewrite isFatal_unfold;
    rewrite nesting_unfold in Hl.
  - destruct (nested_ptr ex) as [| |inner|]; try discriminate Hl.
    all: split; [discriminate |].
    all: intros (others & r & rest & Habs & _); destruct others; discriminate Habs.
  - destruct (nested_ptr ex) as [| |inner|]; try discriminate Hl.
    injection Hl as -> Hl.
    destruct a as [generic errNum n|n|n].
    + split.
      * intros Hf. exists [], (SystemError generic errNum n), l.
        split; [reflexivity | split; [reflexivity |]]. simpl.
        destruct generic; [| discriminate Hf].
        split; [reflexivity |]. apply transient_test. congruence.
      * intros ([|o others] & r & rest & Happ & Hall & Hb).
        -- injection Happ as <- _. destruct Hb as [-> Ht].
           apply transient_test in Ht. rewrite Ht. reflexivity.
        -- injection Happ as <- _. discriminate Hall.
    + split; [| reflexivity].
      intros _. exists [], (RuntimeError n), l.
      split; [reflexivity | split; [reflexivity | exact I]].
    + rewrite (IH _ Hl). split.
      * intros (others & r & rest & -> & Hall & Hb).
        exists (OtherException n :: others), r, rest.
        split; [reflexivity | split; [exact Hall | exact Hb]].
      * intros ([|o others] & r & rest & Happ & Hall & Hb).
        -- injection Happ as <- _. destruct Hb.
        -- injection Happ as <- ->. exists others, r, rest.
           split; [reflexivity | split; [| exact Hb]].
           simpl in Hall. exact Hall.
Qed.

(** X16: [isFatal] answers "not fatal" exactly when, going down the
    exceptions nested below its argument, the first one that is a
    [std::runtime_error] is a plain one or a [std::system_error] of the
    generic category with one of the six error numbers.  The argument
    itself is never examined: with nothing nested in it, it is fatal
    whatever it is. *)
Theorem isFatal_false_iff (E : Errno) (ex : StdException) :
  (isFatal E ex = Return false
   <-> exists others r rest,
         nesting ex = others ++ r :: rest
         /\ forallb is_other others = true /\ benign E r)
  /\ (nested_ptr ex = NotNested -> isFatal E ex = Return true)
  /\ (forall ex', nested_ptr ex' = nested_ptr ex -> isFatal E ex' = isFatal E ex).
Proof.
  split; [apply (not_fatal_aux E (nesting ex) ex eq_refl) |].
  split.
  - intros Hn. rewrite isFatal_unfold, Hn. reflexivity.
  - intros ex' Hn. rewrite !isFatal_unfold, Hn. reflexivity.
Qed.

End FatalExceptions.

(** ** The order of chunk informations *)

Section ChunkInfoOrder.
Import ChunkInfo.
Context {ProdIndex : Type} (index_lt index_eq : ProdIndex -> ProdIndex -> bool).
Implicit Types this that third : ChunkInfo.t ProdIndex.

(** X17: when [operator<] of [ProdIndex] is a strict total order and its
    [operator==] is equality, [operator<] of [ChunkInfo] is a strict order,
    lexicographic on (product index, chunk index); two chunk informations
    are unordered exactly when they agree on both, whatever their chunk
    sizes. *)
Theorem ChunkInfo_lt_strict_order this that third :
  (forall a, index_lt a a = false) ->
  (forall a b c, index_lt a b = true -> index_lt b c = true -> index_lt a c = true) ->
  (forall a b, index_lt a b = true \/ a = b \/ index_lt b a = true) ->
  (forall a b, index_eq a b = true <-> a = b) ->
  lt index_lt index_eq this this = false
  /\ (lt index_lt index_eq this that = true ->
      lt index_lt index_eq that third = true ->
      lt index_lt index_eq this third = true)
  /\ (lt index_lt index_eq this that = false
      /\ lt index_lt index_eq that this = false
      <-> prodIndex this = prodIndex that /\ chunkIndex this = chunkIndex that).
Proof.
  intros Hirr Htrans Htot Heq.
  destruct this as [p1 i1 z1], that as [p2 i2 z2], third as [p3 i3 z3].
  unfold lt. simpl. split; [| split; [| split]].
  - rewrite Hirr, Z.ltb_irrefl, andb_false_r. reflexivity.
  - intros H12 H23.
    apply orb_true_iff in H12. apply orb_true_iff in H23. apply orb_true_iff.
    destruct H12 as [H12 | H12], H23 as [H23 | H23].
    + left. eapply Htrans; eassumption.
    + apply andb_true_iff in H23 as [E _]. apply Heq in E. subst p3. left. exact H12.
    + apply andb_true_iff in H12 as [E _]. apply Heq in E. subst p2. left. exact H23.
    + apply andb_true_iff in H12 as [E1 L1]. apply andb_true_iff in H23 as [E2 L2].
      apply Heq in E1. apply Heq in E2. subst p2 p3. right.
      rewrite (proj2 (Heq p1 p1) eq_refl). simpl. lia.
  - intros [H12 H21].
    apply orb_false_iff in H12 as [L12 R12]. apply orb_false_iff in H21 as [L21 R21].
    destruct (Htot p1 p2) as [T | [T | T]]; [congruence | | congruence].
    subst p2. rewrite (proj2 (Heq p1 p1) eq_refl) in R12, R21. simpl in *.
    split; [reflexivity | lia].
  - intros [-> ->]. rewrite Hirr, Z.ltb_irrefl, andb_false_r. split; reflexivity.
Qed.

End ChunkInfoOrder.

Section ChunkInfoSamples.
Import ChunkInfo.

Lemma ChunkInfo_lt_strict_order_witness :
  lt Z.ltb Z.eqb (mk 7 2 1444) (mk 7 2 100) = false
  /\ lt Z.ltb Z.eqb (mk 7 2 100) (mk 7 2 1444) = false
  /\ lt Z.ltb Z.eqb (mk 6 9 1444) (mk 7 2 1444) = true.
Proof.
  destruct (ChunkInfo_lt_strict_order Z.ltb Z.eqb (mk 7 2 1444) (mk 7 2 100)
              (mk 7 2 100)) as (_ & _ & Hunordered).
  - intros a. apply Z.ltb_irrefl.
  - intros a b c Hab Hbc. apply Z.ltb_lt in Hab, Hbc. apply Z.ltb_lt. lia.
  - intros a b. destruct (Z.lt_trichotomy a b) as [L | [E | L]];
      [left; apply Z.ltb_lt; exact L | right; left; exact E
      | right; right; apply Z.ltb_lt; exact L].
  - intros a b. apply Z.eqb_eq.
  - destruct (proj2 Hunordered (conj eq_refl eq_refl)) as [H1 H2].
    split; [exact H1 | split; [exact H2 | reflexivity]].
Defined.

End ChunkInfoSamples.

(** ** Integers in network byte order *)

Section NetworkByteOrder.
Import InetSock.

Lemma bswap16_bytes (x : Z) :
  bswap16 x = (x mod 256) * 2 ^ 8 + (x / 2 ^ 8) mod 256.
Proof.
  unfold bswap16. change 255 with (Z.ones 8).
  rewrite !Z.land_ones, !Z.shiftl_mul_pow2, !Z.shiftr_div_pow2 by lia.
  reflexivity.
Qed.

(** A byte in front of a number: the number's lowest digit in base 256. *)
Lemma digit_mod (b y : Z) : 0 <= b < 256 -> (b + 256 * y) mod 256 = b.
Proof.
  intros Hb. replace (b + 256 * y) with (b + y * 256) by lia.
  rewrite Z.mod_add by lia. apply Z.mod_small, Hb.
Qed.

Lemma digit_div (b y : Z) : 0 <= b < 256 -> (b + 256 * y) / 256 = y.
Proof.
  intros Hb. replace (b + 256 * y) with (b + y * 256) by lia.
  rewrite Z.div_add by lia. rewrite (Z.div_small b 256) by lia. lia.
Qed.

Lemma little_endian_cons (n : nat) (b y : Z) :
  0 <= b < 256 ->
  little_endian (S n) (b + 256 * y) = b :: little_endian n y.
Proof.
  intros Hb. cbn [little_endian]. rewrite digit_mod, digit_div by exact Hb.
  reflexivity.
Qed.

(** The four bytes of a 32-bit number, and the two of a 16-bit one. *)
Lemma bytes_of_u32 (x : Z) :
  0 <= x < 2 ^ 32 ->
  x = x mod 256 + 256 * ((x / 2 ^ 8) mod 256
      + 256 * ((x / 2 ^ 16) mod 256 + 256 * ((x / 2 ^ 24) mod 256 + 256 * 0))).
Proof.
  intros Hx. change (2 ^ 32) with 4294967296 in *. change (2 ^ 24) with 16777216.
  change (2 ^ 16) with 65536. change (2 ^ 8) with 256.
  Z.div_mod_to_equations. lia.
Qed.

Lemma bytes_of_u16 (x : Z) :
  0 <= x < 2 ^ 16 ->
  x = x mod 256 + 256 * ((x / 2 ^ 8) mod 256 + 256 * 0).
Proof.
  intros Hx. change (2 ^ 16) with 65536 in *. change (2 ^ 8) with 256.
  Z.div_mod_to_equations. lia.
Qed.

Lemma byte_range (x : Z) : 0 <= x mod 256 < 256.
Proof. apply Z.mod_pos_bound. lia. Qed.

Lemma little_endian_u32 (x : Z) :
  0 <= x < 2 ^ 32 ->
  little_endian 4 x
  = [x mod 256; (x / 2 ^ 8) mod 256; (x / 2 ^ 16) mod 256; (x / 2 ^ 24) mod 256].
Proof.
  intros Hx. rewrite (bytes_of_u32 x Hx) at 1.
  rewrite !little_endian_cons by apply byte_range. reflexivity.
Qed.

Lemma little_endian_u16 (x : Z) :
  0 <= x < 2 ^ 16 ->
  little_endian 2 x = [x mod 256; (x / 2 ^ 8) mod 256].
Proof.
  intros Hx. rewrite (bytes_of_u16 x Hx) at 1.
  rewrite !little_endian_cons by apply byte_range. reflexivity.
Qed.

(** The bytes of [bswap32 x] are those of [x] in reverse order. *)
Lemma little_endian_bswap32 (x : Z) :
  0 <= x < 2 ^ 32 ->
  little_endian 4 (InAddr.bswap32 x) = rev (little_endian 4 x).
Proof.
  intros Hx. rewrite (little_endian_u32 x Hx), bswap32_bytes.
  replace (x mod 256 * 2 ^ 24 + (x / 2 ^ 8) mod 256 * 2 ^ 16
           + (x / 2 ^ 16) mod 256 * 2 ^ 8 + (x / 2 ^ 24) mod 256)
    with ((x / 2 ^ 24) mod 256 + 256 * ((x / 2 ^ 16) mod 256
          + 256 * ((x / 2 ^ 8) mod 256 + 256 * (x mod 256 + 256 * 0)))) by lia.
  rewrite !little_endian_cons by apply byte_range. reflexivity.
Qed.

Lemma little_endian_bswap16 (x : Z) :
  0 <= x < 2 ^ 16 ->
  little_endian 2 (bswap16 x) = rev (little_endian 2 x).
Proof.
  intros Hx. rewrite (little_endian_u16 x Hx), bswap16_bytes.
  replace (x mod 256 * 2 ^ 8 + (x / 2 ^ 8) mod 256)
    with ((x / 2 ^ 8) mod 256 + 256 * (x mod 256 + 256 * 0)) by lia.
  rewrite !little_endian_cons by apply byte_range. reflexivity.
Qed.

Lemma bswap16_range (x : Z) : 0 <= bswap16 x < 2 ^ 16.
Proof.
  rewrite bswap16_bytes. pose proof (byte_range x). pose proof (byte_range (x / 2 ^ 8)).
  change (2 ^ 16) with 65536. change (2 ^ 8) with 256 in *. lia.
Qed.

Lemma bswap32_range (x : Z) : 0 <= InAddr.bswap32 x < 2 ^ 32.
Proof.
  rewrite bswap32_bytes.
  pose proof (byte_range x). pose proof (byte_range (x / 2 ^ 8)).
  pose proof (byte_range (x / 2 ^ 16)). pose proof (byte_range (x / 2 ^ 24)).
  change (2 ^ 32) with 4294967296. change (2 ^ 24) with 16777216 in *.
  change (2 ^ 16) with 65536 in *. change (2 ^ 8) with 256 in *. lia.
Qed.

(** A number is given by its bytes. *)
Lemma little_endian_inj (n : nat) : forall x y,
  0 <= x < 256 ^ Z.of_nat n -> 0 <= y < 256 ^ Z.of_nat n ->
  little_endian n x = little_endian n y -> x = y.
Proof.
  induction n as [|n IH]; intros x y Hx Hy E.
  - change (256 ^ Z.of_nat 0) with 1 in *. lia.
  - rewrite Nat2Z.inj_succ, Z.pow_succ_r in Hx, Hy by lia.
    cbn [little_endian] in E. injection E as E0 E1.
    apply IH in E1.
    + rewrite (Z.div_mod x 256), (Z.div_mod y 256) by lia. congruence.
    + split; [apply Z.div_pos; lia | apply Z.div_lt_upper_bound; lia].
    + split; [apply Z.div_pos; lia | apply Z.div_lt_upper_bound; lia].
Qed.

Lemma bswap32_involutive (x : Z) :
  0 <= x < 2 ^ 32 -> InAddr.bswap32 (InAddr.bswap32 x) = x.
Proof.
  intros Hx. apply (little_endian_inj 4);
    [apply bswap32_range | exact Hx |].
  rewrite !little_endian_bswap32, rev_involutive by
    (exact Hx || apply bswap32_range). reflexivity.
Qed.

Lemma bswap16_involutive (x : Z) :
  0 <= x < 2 ^ 16 -> bswap16 (bswap16 x) = x.
Proof.
  intros Hx. apply (little_endian_inj 2);
    [apply bswap16_range | exact Hx |].
  rewrite !little_endian_bswap16, rev_involutive by
    (exact Hx || apply bswap16_range). reflexivity.
Qed.

(** The bytes of a number made of a high and a low part. *)
Lemma little_endian_app (n m : nat) : forall hi lo,
  0 <= lo < 256 ^ Z.of_nat n ->
  little_endian (n + m) (hi * 256 ^ Z.of_nat n + lo)
  = little_endian n lo ++ little_endian m hi.
Proof.
  induction n as [|n IH]; intros hi lo Hlo.
  - change (256 ^ Z.of_nat 0) with 1 in *. simpl.
    replace (hi * 1 + lo) with hi by lia. reflexivity.
  - rewrite Nat2Z.inj_succ, Z.pow_succ_r in * by lia.
    cbn [Nat.add little_endian app].
    replace (hi * (256 * 256 ^ Z.of_nat n) + lo)
      with (lo + (hi * 256 ^ Z.of_nat n) * 256) by lia.
    rewrite Z.mod_add, Z.div_add by lia.
    rewrite (Z.add_comm (lo / 256)). rewrite IH; [reflexivity |].
    split; [apply Z.div_pos; lia | apply Z.div_lt_upper_bound; lia].
Qed.

Lemma little_endian_halves (hi lo : Z) :
  0 <= lo < 2 ^ 32 ->
  little_endian 8 (hi * 2 ^ 32 + lo) = little_endian 4 lo ++ little_endian 4 hi.
Proof. intros Hlo. exact (little_endian_app 4 4 hi lo Hlo). Qed.

(** The two 32-bit halves of a 64-bit number. *)
Lemma halves (v : Z) :
  0 <= v < 2 ^ 64 ->
  0 <= u32 (Z.shiftr v 32) < 2 ^ 32 /\ 0 <= u32 v < 2 ^ 32
  /\ v = u32 (Z.shiftr v 32) * 2 ^ 32 + u32 v.
Proof.
  intros Hv. unfold u32. rewrite Z.shiftr_div_pow2 by lia.
  change (2 ^ 64) with 18446744073709551616 in *.
  change (2 ^ 32) with 4294967296.
  Z.div_mod_to_equations. lia.
Qed.

Lemma lor_halves (hi lo : Z) :
  0 <= hi < 2 ^ 32 -> 0 <= lo < 2 ^ 32 ->
  Z.lor (u64 (Z.shiftl hi 32)) lo = hi * 2 ^ 32 + lo.
Proof.
  intros Hhi Hlo. unfold u64. rewrite Z.shiftl_mul_pow2 by lia.
  rewrite Z.mod_small by (change (2 ^ 64) with (2 ^ 32 * 2 ^ 32); nia).
  rewrite <- Z.shiftl_mul_pow2 by lia.
  assert (Hlog : Z.log2 lo < 32).
  { destruct (Z.eq_dec lo 0) as [->|Hne]; [reflexivity |].
    apply Z.log2_lt_pow2; lia. }
  assert (Hland : Z.land (Z.shiftl hi 32) lo = 0).
  { apply Z.bits_inj'. intros i Hi. rewrite Z.land_spec, Z.bits_0.
    destruct (Z.ltb_spec i 32).
    - rewrite Z.shiftl_spec_low by lia. reflexivity.
    - rewrite (Z.bits_above_log2 lo i), andb_false_r by lia. reflexivity. }
  rewrite <- Z.lxor_lor, <- Z.add_nocarry_lxor by exact Hland. reflexivity.
Qed.

Lemma split_halves (hi lo : Z) :
  0 <= hi < 2 ^ 32 -> 0 <= lo < 2 ^ 32 ->
  u32 (hi * 2 ^ 32 + lo) = lo /\ u32 (Z.shiftr (hi * 2 ^ 32 + lo) 32) = hi.
Proof.
  intros Hhi Hlo. unfold u32. rewrite Z.shiftr_div_pow2 by lia.
  rewrite (Z.add_comm (hi * 2 ^ 32)), Z.mod_add, Z.div_add by lia.
  rewrite (Z.mod_small lo), (Z.div_small lo) by lia.
  rewrite Z.mod_small by lia. split; reflexivity.
Qed.

(** X18: on a little- and on a big-endian host, [ntoh] undoes [hton] and
    [hton] undoes [ntoh], for the 16-, 32- and 64-bit overloads. *)
Theorem ntoh_hton_round_trip (be : bool) (v16 v32 v64 : Z) :
  0 <= v16 < 2 ^ 16 -> 0 <= v32 < 2 ^ 32 -> 0 <= v64 < 2 ^ 64 ->
  ntoh16 be (hton16 be v16) = v16 /\ hton16 be (ntoh16 be v16) = v16
  /\ ntoh32 be (hton32 be v32) = v32 /\ hton32 be (ntoh32 be v32) = v32
  /\ ntoh64 be (hton64 be v64) = v64 /\ hton64 be (ntoh64 be v64) = v64.
Proof.
  intros H16 H32 H64.
  destruct (halves v64 H64) as (Hhi & Hlo & Hv).
  unfold ntoh16, hton16, ntoh64, hton64, ntoh32, hton32, ntohs, htons, htonl,
    InAddr.ntohl, v32_0, v32_1, of_v32.
  remember (u32 (Z.shiftr v64 32)) as hi eqn:Ehi.
  remember (u32 v64) as lo eqn:Elo.
  clear Ehi Elo H64. subst v64.
  destruct (split_halves hi lo Hhi Hlo) as [E1 E2].
  destruct (split_halves (InAddr.bswap32 lo) (InAddr.bswap32 hi)
              (bswap32_range _) (bswap32_range _)) as [E3 E4].
  destruct be.
  - split; [reflexivity | split; [reflexivity | split; [reflexivity |
      split; [reflexivity | split]]]].
    + rewrite E1, E2, lor_halves by assumption. reflexivity.
    + rewrite lor_halves, E1, E2 by assumption. reflexivity.
  - split; [apply bswap16_involutive, H16 |
      split; [apply bswap16_involutive, H16 |
      split; [apply bswap32_involutive, H32 |
      split; [apply bswap32_involutive, H32 | split]]]].
    + rewrite E3, E4, !bswap32_involutive, lor_halves by assumption.
      reflexivity.
    + rewrite lor_halves, E3, E4, !bswap32_involutive
        by (assumption || apply bswap32_range).
      reflexivity.
Qed.

(** X19: the bytes that [hton] leaves in the memory of the host are those
    of the value, most significant first, on a little- and on a big-endian
    host alike: what goes on the wire does not depend on the host. *)
Theorem hton_is_big_endian_in_memory (be : bool) (v16 v32 v64 : Z) :
  0 <= v16 < 2 ^ 16 -> 0 <= v32 < 2 ^ 32 -> 0 <= v64 < 2 ^ 64 ->
  in_memory be 2 (hton16 be v16) = big_endian 2 v16
  /\ in_memory be 4 (hton32 be v32) = big_endian 4 v32
  /\ in_memory be 8 (hton64 be v64) = big_endian 8 v64.
Proof.
  intros H16 H32 H64.
  destruct (halves v64 H64) as (Hhi & Hlo & Hv).
  unfold in_memory, big_endian, hton16, hton64, hton32, htons, htonl, of_v32.
  destruct be; [split; [reflexivity | split; [reflexivity |]] |
                split; [| split]].
  - rewrite <- Hv. reflexivity.
  - apply little_endian_bswap16, H16.
  - apply little_endian_bswap32, H32.
  - rewrite Hv at 3.
    rewrite !little_endian_halves by (assumption || apply bswap32_range).
    rewrite rev_app_distr, !little_endian_bswap32 by assumption. reflexivity.
Qed.

End NetworkByteOrder.

Section NetworkByteOrderSamples.
Import InetSock.

Lemma ntoh_hton_round_trip_witness :
  ntoh16 false (hton16 false 4660) = 4660
  /\ hton16 false (ntoh16 false 4660) = 4660
  /\ ntoh32 false (hton32 false 305419896) = 305419896
  /\ hton32 false (ntoh32 false 305419896) = 305419896
  /\ ntoh64 false (hton64 false 72623859790382856) = 72623859790382856
  /\ hton64 false (ntoh64 false 72623859790382856) = 72623859790382856.
Proof.
  apply (ntoh_hton_round_trip false 4660 305419896 72623859790382856); lia.
Defined.

Lemma hton_is_big_endian_in_memory_witness :
  in_memory false 2 (hton16 false 4660) = [18; 52]
  /\ in_memory false 4 (hton32 false 305419896) = [18; 52; 86; 120]
  /\ in_memory false 8 (hton64 false 72623859790382856)
     = [1; 2; 3; 4; 5; 6; 7; 8].
Proof.
  apply (hton_is_big_endian_in_memory false 4660 305419896 72623859790382856);
    lia.
Defined.

End NetworkByteOrderSamples.

(** ** The addresses a subscriber knows *)

Section ServerAddresses.
Import HycastProto P2pMgr.
Context {SockAddr : Type} `{Countable SockAddr} {U : Type} `{P2pSub U}.
Implicit Types s : Impl SockAddr U.

Lemma addresses_ret {A} (a : A) :
  keeps_addresses (SockAddr := SockAddr) (U := U) (ret a).
Proof. intros s. reflexivity. Qed.

Lemma addresses_throw {A} (e : Exception) :
  keeps_addresses (SockAddr := SockAddr) (U := U) (A := A) (throw e).
Proof. intros s. reflexivity. Qed.

Lemma addresses_modify (f : Impl SockAddr U -> Impl SockAddr U) :
  (forall s, addresses (f s) = addresses s) -> keeps_addresses (modify f).
Proof. intros Hf s. apply Hf. Qed.

Lemma addresses_bind {A B} (m : M A) (k : A -> M B) :
  keeps_addresses (SockAddr := SockAddr) (U := U) m ->
  (forall a, keeps_addresses (k a)) ->
  keeps_addresses (bind m k).
Proof.
  intros Hm Hk s. unfold bind. specialize (Hm s).
  destruct (m s) as [a s'|e s'|]; [| exact Hm | exact I].
  specialize (Hk a s'). destruct (k a s'); [congruence | congruence | exact I].
Qed.

Lemma addresses_try_catch {A} (m : M A) (h : Exception -> M A) :
  keeps_addresses (SockAddr := SockAddr) (U := U) m ->
  (forall e, keeps_addresses (h e)) ->
  keeps_addresses (try_catch m h).
Proof.
  intros Hm Hh s. unfold try_catch. specialize (Hm s).
  destruct (m s) as [a s'|e s'|]; [exact Hm | | exact I].
  specialize (Hh e s'). destruct (h e s'); [congruence | congruence | exact I].
Qed.

Lemma addresses_after {A} (m : M A) s :
  keeps_addresses m -> addresses (after (m s) s) = addresses s.
Proof. intros Hm. specialize (Hm s). destruct (m s); simpl; auto. Qed.

Lemma addresses_startAccepter :
  keeps_addresses (SockAddr := SockAddr) (U := U) startAccepter.
Proof. intros s. unfold startAccepter. destruct (acceptThread s); simpl; auto. Qed.

Lemma addresses_startImprover :
  keeps_addresses (SockAddr := SockAddr) (U := U) startImprover.
Proof. intros s. unfold startImprover. destruct (improveThread s); simpl; auto. Qed.

Lemma addresses_startConnector :
  keeps_addresses (SockAddr := SockAddr) (U := U) startConnector.
Proof. intros s. unfold startConnector. destruct (connectThread s); simpl; auto. Qed.

Lemma addresses_stopAccepter :
  keeps_addresses (SockAddr := SockAddr) (U := U) stopAccepter.
Proof. intros s. unfold stopAccepter. destruct (acceptThread s); simpl; auto. Qed.

Lemma addresses_stopImprover (env : Env) :
  keeps_addresses (SockAddr := SockAddr) (U := U) (stopImprover env).
Proof.
  intros s. unfold stopImprover.
  destruct (improveThread s); [| reflexivity].
  destruct (negb (cancelImprover env =? 0)); reflexivity.
Qed.

Lemma addresses_stopConnector (env : Env) :
  keeps_addresses (SockAddr := SockAddr) (U := U) (stopConnector env).
Proof.
  intros s. unfold stopConnector.
  destruct (connectThread s); [| reflexivity].
  destruct (negb (cancelConnector env =? 0)); reflexivity.
Qed.

Lemma addresses_startTasks (env : Env) :
  keeps_addresses (SockAddr := SockAddr) (U := U) (startTasks env).
Proof.
  unfold startTasks.
  apply addresses_bind; [apply addresses_startAccepter |]. intros _.
  apply addresses_try_catch.
  - intros s. unfold startTasks2. destruct (kind s).
    + destruct (maxPeers s >? 1); [apply addresses_startImprover | reflexivity].
    + apply addresses_bind; [apply addresses_startConnector |]. intros _.
      apply addresses_try_catch.
      * intros s'. destruct (maxPeers s' >? 1);
          [apply addresses_startImprover | reflexivity].
      * intros e. apply addresses_bind;
          [apply addresses_stopConnector | intros; apply addresses_throw].
  - intros e. apply addresses_bind;
      [apply addresses_stopAccepter | intros; apply addresses_throw].
Qed.

Lemma addresses_shutdown (env : Env) :
  keeps_addresses (SockAddr := SockAddr) (U := U) (shutdown env).
Proof.
  unfold shutdown, stopTasks.
  apply addresses_bind.
  - apply addresses_try_catch; [| intros; apply addresses_throw].
    apply addresses_bind; [| intros; apply addresses_stopAccepter].
    intros s. unfold stopTasks2. destruct (kind s).
    + apply addresses_try_catch;
        [apply addresses_stopImprover | intros; apply addresses_throw].
    + apply addresses_bind;
        [apply addresses_stopImprover | intros; apply addresses_stopConnector].
  - intros _. apply addresses_bind; intros; apply addresses_modify; reflexivity.
Qed.

Lemma addresses_enter (env : Env) :
  keeps_addresses (SockAddr := SockAddr) (U := U) (enter env).
Proof.
  intros s. unfold enter.
  destruct (executing s); [reflexivity |].
  destruct (negb (done s)); [| reflexivity].
  apply addresses_bind; [apply addresses_startTasks | intros; apply addresses_ret].
Qed.

Lemma addresses_leave (env : Env) s r :
  leave env s = Some r -> addresses (after r s) = addresses s.
Proof.
  unfold leave. intros E.
  destruct (waitUntilDone s) as [w|] eqn:W; [| discriminate].
  injection E as <-.
  assert (Hw : match w with
               | Ok _ s' => s' = s
               | Throw _ s' => s' = s
               | Terminate => False
               end).
  { unfold waitUntilDone in W.
    destruct (done s), (taskException s); inversion W; reflexivity. }
  pose proof (addresses_shutdown env) as Hs.
  unfold try_catch, bind.
  destruct w as [[] s1|ex s1|]; [| | contradiction]; subst s1.
  - specialize (Hs s). destruct (shutdown env s) as [[] s2|e2 s2|] eqn:S2;
      simpl; auto.
    specialize (addresses_shutdown env s2). rewrite <- Hs.
    destruct (shutdown env s2); simpl; auto.
  - specialize (Hs s). destruct (shutdown env s); simpl; auto.
Qed.

Lemma addresses_improve (timedOut : bool) s :
  addresses (improve timedOut s) = addresses s.
Proof.
  unfold improve. destruct (_ || _); [reflexivity |].
  destruct (Bookkeeper.getWorstPeer _); reflexivity.
Qed.

Lemma addresses_shouldRequest (a : SockAddr) (item : NoteReq) :
  keeps_addresses (SockAddr := SockAddr) (U := U) (P2pMgr.shouldRequest a item).
Proof.
  intros s. unfold P2pMgr.shouldRequest.
  destruct (peers s !! a); [| reflexivity].
  destruct (Bookkeeper.shouldRequest _ _ _) as [[] bk]; reflexivity.
Qed.

Lemma addresses_hereIs (a : SockAddr) (data : Data) :
  keeps_addresses (SockAddr := SockAddr) (U := U) (hereIs a data).
Proof.
  intros s. unfold hereIs.
  destruct (peers s !! a); [| reflexivity].
  destruct (Bookkeeper.received _ _ _) as [[] bk]; simpl; [| reflexivity].
  destruct (sub_hereIsP2p _ _) as [[] u]; reflexivity.
Qed.

Lemma addresses_served (a : SockAddr) :
  keeps_addresses (SockAddr := SockAddr) (U := U) (P2pMgr.served a).
Proof.
  intros s. unfold P2pMgr.served. destruct (peers s !! a); reflexivity.
Qed.

Lemma known_addresses (a : SockAddr) s s' :
  addresses s' = addresses s -> known a s -> known a s'.
Proof. unfold known. intros E. injection E as -> ->. auto. Qed.

Lemma known_consider (a b : SockAddr) s : known a s -> known a (consider b s).
Proof.
  unfold known, consider. simpl. intros [Hp | Hp]; [left | right; exact Hp].
  apply elem_of_app. left. exact Hp.
Qed.

Lemma known_consider_self (a : SockAddr) s : known a (consider a s).
Proof.
  unfold known, consider. simpl. left. apply elem_of_app. right.
  apply list_elem_of_singleton. reflexivity.
Qed.

(** What [add] and [tryAdd] do to the addresses: a subscriber that answers
    true holds the peer; otherwise nothing changes. *)
Lemma add_addresses (peer : Peer SockAddr) s :
  match add peer s with
  | Ok _ s' => serverPool s' = serverPool s
               /\ peers s' = <[rmtAddr peer := peer]> (peers s)
  | Throw _ s' => addresses s' = addresses s
  | Terminate => True
  end.
Proof.
  unfold add. destruct (PeerSet.activate _ _) as [ex|[b ps]]; simpl; auto.
Qed.

Lemma tryAdd_addresses (peer : Peer SockAddr) s :
  kind s = SubP2pMgr ->
  match tryAdd peer s with
  | Ok true s' => serverPool s' = serverPool s
                  /\ peers s' = <[rmtAddr peer := peer]> (peers s)
  | Ok false s' => addresses s' = addresses s
  | Throw _ s' => addresses s' = addresses s
  | Terminate => True
  end.
Proof.
  intros K. unfold tryAdd.
  destruct (_ <? _).
  - unfold bind, ret. pose proof (add_addresses peer s) as A.
    destruct (add peer s); auto.
  - destruct (_ >? _); [reflexivity |].
    unfold tryAdd2. rewrite K.
    destruct (Bookkeeper.getPubPathCounts _) as [numPath numNoPath].
    destruct (Bool.eqb _ _); [| reflexivity].
    destruct (Bookkeeper.getWorstPeerWith _ _) as [worst|]; [| reflexivity].
    unfold bind, ret. pose proof (add_addresses peer (halt_peer worst s)) as A.
    destruct (add peer (halt_peer worst s)); auto.
Qed.

Lemma known_tryAdd (a : SockAddr) (peer : Peer SockAddr) s :
  kind s = SubP2pMgr -> known a s -> known a (after (tryAdd peer s) s).
Proof.
  intros K Ha. pose proof (tryAdd_addresses peer s K) as T.
  destruct (tryAdd peer s) as [[] s'|e s'|]; simpl;
    try (eapply known_addresses; eassumption); [| exact Ha].
  destruct T as [Tp Tm]. unfold known in *. rewrite Tp, Tm.
  destruct Ha as [Ha | Ha]; [left; exact Ha | right].
  destruct (decide (rmtAddr peer = a)) as [->|Hne].
  - rewrite lookup_insert_eq. eauto.
  - rewrite lookup_insert_ne by exact Hne. exact Ha.
Qed.

Lemma known_setException (a : SockAddr) (ex : Exception) s :
  known a s -> known a (setException ex s).
Proof. unfold setException. destruct (taskException s); auto. Qed.

Lemma known_accept (a : SockAddr) (peer : Peer SockAddr) s :
  kind s = SubP2pMgr -> known a s -> known a (accept peer s).
Proof.
  intros K Ha. pose proof (known_tryAdd a peer s K Ha) as T.
  unfold accept. rewrite K.
  destruct (tryAdd peer s) as [[] s'|e s'|]; simpl in T; auto.
  - apply known_consider, T.
  - apply known_setException, T.
Qed.

Lemma addresses_reassignPending (peer : Peer SockAddr) s :
  addresses (reassignPending peer s) = addresses s.
Proof.
  unfold reassignPending.
  generalize (Bookkeeper.getRequested peer (bookkeeper s)) as l.
  intros l. revert s. induction l as [|x l IH]; intros s; simpl; [reflexivity |].
  rewrite IH. unfold reassignOne.
  destruct (Bookkeeper.popBestAlt _ _) as [[altPeer|] bk]; reflexivity.
Qed.

Lemma known_peerStopped (a : SockAddr) (peer : Peer SockAddr) s :
  kind s = SubP2pMgr -> known a s -> known a (peerStopped peer s).
Proof.
  intros K Ha. unfold peerStopped, stopped, stopped2. simpl. rewrite K.
  destruct (done s); [exact Ha |].
  pose proof (addresses_reassignPending peer
                (consider (rmtAddr peer)
                   (set_peerSet (PeerSet.remove peer (peerSet s)) s))) as R.
  injection R as Rp Rm. unfold known in *. simpl. rewrite Rp, Rm. simpl.
  destruct (decide (a = rmtAddr peer)) as [->|Hne].
  - left. apply elem_of_app. right. apply list_elem_of_singleton. reflexivity.
  - destruct Ha as [Ha | Ha].
    + left. apply elem_of_app. left. exact Ha.
    + right. rewrite lookup_delete_ne by congruence. exact Ha.
Qed.

Lemma known_connect (a : SockAddr) (outcome : Connected) s :
  kind s = SubP2pMgr -> taskException (connect outcome s) = None ->
  known a s -> known a (connect outcome s).
Proof.
  intros K. unfold connect. destruct (_ >=? _); [auto |].
  destruct (serverPool s) as [|srvrAddr pool] eqn:P; [auto |].
  intros Hnone Ha.
  assert (Ha1 : a = srvrAddr \/ known a (set_serverPool pool s)).
  { destruct Ha as [Ha | Ha]; [| right; right; exact Ha].
    rewrite P in Ha. apply elem_of_cons in Ha as [-> | Ha];
      [left; reflexivity | right; left; exact Ha]. }
  destruct outcome as [pathToPub|[] ex].
  - pose proof (tryAdd_addresses (mkPeer srvrAddr pathToPub)
                  (set_serverPool pool s) K) as T.
    destruct Ha1 as [-> | Ha1].
    + destruct (tryAdd _ _) as [[] s2|e s2|]; try apply known_consider_self.
      * destruct T as [_ Tm]. right. rewrite Tm. simpl.
        rewrite lookup_insert_eq. eauto.
      * left. rewrite P. apply elem_of_cons. left. reflexivity.
    + pose proof (known_tryAdd a (mkPeer srvrAddr pathToPub)
                    (set_serverPool pool s) K Ha1) as T2.
      destruct (tryAdd _ _) as [[] s2|e s2|]; simpl in T2;
        try (apply known_consider; exact T2); [exact T2 | exact Ha].
  - exfalso. revert Hnone. unfold setException. simpl.
    destruct (taskException s) eqn:T; simpl; rewrite ?T; discriminate.
  - destruct Ha1 as [-> | Ha1];
      [apply known_consider_self | apply known_consider, Ha1].
Qed.

Lemma step_known (env : Env) (a : SockAddr) s s' :
  step env s s' -> kind s = SubP2pMgr -> taskException s' = None ->
  known a s -> known a s'.
Proof.
  intros St K Hnone Ha. destruct St.
  - eapply known_addresses; [apply addresses_after, addresses_enter | exact Ha].
  - eapply known_addresses; [eapply addresses_leave; eassumption | exact Ha].
  - exact Ha.
  - apply known_setException, Ha.
  - apply known_accept; assumption.
  - apply known_connect; assumption.
  - eapply known_addresses; [apply addresses_improve | exact Ha].
  - apply known_peerStopped; assumption.
  - eapply known_addresses;
      [apply addresses_after, addresses_shouldRequest | exact Ha].
  - eapply known_addresses; [apply addresses_after, addresses_hereIs | exact Ha].
  - eapply known_addresses; [apply addresses_after, addresses_served | exact Ha].
Qed.

End ServerAddresses.

(** ** From admission to the stop of a peer *)

Section PeerLifetime.
Import HycastProto P2pMgr.
Context {SockAddr : Type} `{Countable SockAddr} {U : Type} `{P2pSub U}.
Implicit Types s : Impl SockAddr U.

Lemma peers_peerStopped (peer : Peer SockAddr) s :
  peers (peerStopped peer s)
  = if done s then peers s else delete (rmtAddr peer) (peers s).
Proof.
  unfold peerStopped, stopped, stopped2. simpl.
  destruct (done s); [reflexivity |]. simpl.
  destruct (kind s); [reflexivity |].
  pose proof (addresses_reassignPending peer
                (consider (rmtAddr peer)
                   (set_peerSet (PeerSet.remove peer (peerSet s)) s))) as R.
  injection R as _ ->. reflexivity.
Qed.

(** X21: a subscriber holds a peer from the [tryAdd] that answers true until
    the peer set reports it stopped.  After that its address is unknown:
    a notice or data that still arrives from it makes [shouldRequest] and
    [hereIs] throw [std::out_of_range], with nothing changed.  Once
    [halt()] was called, [stopped] erases nothing. *)
Theorem peer_is_held_from_tryAdd_until_stopped (peer : Peer SockAddr) s s'
    (item : NoteReq) (data : Data) :
  kind s = SubP2pMgr ->
  tryAdd peer s = Ok true s' ->
  peers s' !! rmtAddr peer = Some peer
  /\ (done s' = false ->
      peers (peerStopped peer s') !! rmtAddr peer = None
      /\ P2pMgr.shouldRequest (rmtAddr peer) item (peerStopped peer s')
         = Throw OUT_OF_RANGE (peerStopped peer s')
      /\ hereIs (rmtAddr peer) data (peerStopped peer s')
         = Throw OUT_OF_RANGE (peerStopped peer s'))
  /\ (done s' = true -> peers (peerStopped peer s') = peers s').
Proof.
  intros K T. pose proof (tryAdd_addresses peer s K) as A. rewrite T in A.
  destruct A as [_ A]. split; [| split].
  - rewrite A. apply lookup_insert_eq.
  - intros D.
    assert (L : peers (peerStopped peer s') !! rmtAddr peer = None).
    { rewrite peers_peerStopped, D. apply lookup_delete_eq. }
    split; [exact L |].
    unfold P2pMgr.shouldRequest, hereIs. rewrite L. split; reflexivity.
  - intros D. rewrite peers_peerStopped, D. reflexivity.
Qed.

End PeerLifetime.

Section PeerLifetimeSamples.
Import HycastProto P2pMgr Sample.

Lemma peer_is_held_from_tryAdd_until_stopped_witness :
  peers subA !! 1%nat = Some peerA
  /\ P2pMgr.shouldRequest 1%nat item1 (peerStopped peerA subA)
     = Throw OUT_OF_RANGE (peerStopped peerA subA).
Proof.
  destruct (peer_is_held_from_tryAdd_until_stopped peerA sub2 subA item1 dataSeg5)
    as (Hheld & Hstopped & _); [reflexivity | reflexivity |].
  split; [exact Hheld |].
  destruct (Hstopped eq_refl) as (_ & Hthrow & _). exact Hthrow.
Defined.

End PeerLifetimeSamples.

(** ** A subscriber loses no server address *)

Section ConnectThread.
Import HycastProto P2pMgr.
Context {SockAddr : Type} `{Countable SockAddr} {U : Type} `{P2pSub U}.
Implicit Types s : Impl SockAddr U.

(** The calls that do not start or stop threads leave [connectThread]. *)
Lemma connectThread_tryAdd (peer : Peer SockAddr) s :
  connectThread (after (tryAdd peer s) s) = connectThread s.
Proof.
  assert (A : forall t : Impl SockAddr U,
             connectThread (after (bind (add peer) (fun _ => ret true) t) t)
             = connectThread t).
  { intros t. unfold bind, ret, add.
    destruct (PeerSet.activate _ _) as [ex|[b ps]]; reflexivity. }
  unfold tryAdd. destruct (_ <? _); [apply A |].
  destruct (_ >? _); [reflexivity |].
  unfold tryAdd2. destruct (kind s); [reflexivity |].
  destruct (Bookkeeper.getPubPathCounts _) as [numPath numNoPath].
  destruct (Bool.eqb _ _); [| reflexivity].
  destruct (Bookkeeper.getWorstPeerWith _ _) as [worst|]; [| reflexivity].
  pose proof (A (halt_peer worst s)) as Aw.
  destruct (bind _ _ (halt_peer worst s)); simpl in *; auto.
Qed.

Lemma connectThread_setException (ex : Exception) s :
  connectThread (setException ex s) = connectThread s.
Proof. unfold setException. destruct (taskException s); reflexivity. Qed.

Lemma connectThread_accept (peer : Peer SockAddr) s :
  connectThread (accept peer s) = connectThread s.
Proof.
  pose proof (connectThread_tryAdd peer s) as T. unfold accept.
  destruct (tryAdd peer s) as [[] s1|ex s1|]; simpl in T;
    [destruct (kind s); exact T | destruct (kind s); exact T | | reflexivity].
  rewrite connectThread_setException. exact T.
Qed.

Lemma connectThread_connect (outcome : Connected) s :
  connectThread (connect outcome s) = connectThread s.
Proof.
  unfold connect. destruct (_ >=? _); [reflexivity |].
  destruct (serverPool s) as [|srvrAddr pool]; [reflexivity |].
  destruct outcome as [pathToPub|[] ex].
  - pose proof (connectThread_tryAdd (mkPeer srvrAddr pathToPub)
                  (set_serverPool pool s)) as T.
    destruct (tryAdd _ _) as [[] s2|e s2|]; simpl in T; auto.
  - apply (connectThread_setException ex (set_serverPool pool s)).
  - reflexivity.
Qed.

Lemma connectThread_reassignPending (peer : Peer SockAddr) s :
  connectThread (reassignPending peer s) = connectThread s.
Proof.
  unfold reassignPending.
  generalize (Bookkeeper.getRequested peer (bookkeeper s)) as l.
  intros l. revert s. induction l as [|x l IH]; intros s; simpl; [reflexivity |].
  rewrite IH. unfold reassignOne.
  destruct (Bookkeeper.popBestAlt _ _) as [[altPeer|] bk]; reflexivity.
Qed.

Lemma connectThread_peerStopped (peer : Peer SockAddr) s :
  connectThread (peerStopped peer s) = connectThread s.
Proof.
  unfold peerStopped, stopped, stopped2. simpl.
  destruct (done s); [reflexivity |]. simpl.
  destruct (kind s); [reflexivity |].
  apply (connectThread_reassignPending peer
           (consider (rmtAddr peer)
              (set_peerSet (PeerSet.remove peer (peerSet s)) s))).
Qed.

(** A second [operator()()] leaves a running connect thread of a subscriber
    running: it ends in [std::terminate] before it stops anything. *)
Lemma connectThread_enter (env : Env) s :
  kind s = SubP2pMgr -> connectThread s = true ->
  connectThread (after (enter env s) s) = true.
Proof.
  intros K C. unfold enter.
  destruct (executing s); [exact C |].
  destruct (negb (done s)); [| exact C].
  unfold startTasks, startTasks2, startAccepter, startConnector, bind,
    try_catch, ret.
  destruct (acceptThread s); [exact C |]. simpl. rewrite K, C. exact C.
Qed.

(** A step of a subscriber that is not halted and holds no task exception
    afterwards leaves a running connect thread running. *)
Lemma step_connectThread (env : Env) s s' :
  step env s s' -> kind s = SubP2pMgr ->
  done s' = false -> taskException s' = None ->
  connectThread s = true -> connectThread s' = true.
Proof.
  intros St K D T C.
  assert (D0 : done s = false).
  { destruct (done s) eqn:E; [| reflexivity].
    rewrite (proj1 (step_latches env s s' St) E) in D. discriminate. }
  assert (T0 : taskException s = None).
  { destruct (taskException s) as [e|] eqn:E; [| reflexivity].
    rewrite (proj2 (step_latches env s s' St) e E) in T. discriminate. }
  destruct St.
  - apply connectThread_enter; assumption.
  - unfold leave, waitUntilDone in H1. rewrite D0, T0 in H1. discriminate.
  - exact C.
  - rewrite connectThread_setException. exact C.
  - rewrite connectThread_accept. exact C.
  - rewrite connectThread_connect. exact C.
  - unfold improve. destruct (_ || _); [exact C |].
    destruct (Bookkeeper.getWorstPeer _); exact C.
  - rewrite connectThread_peerStopped. exact C.
  - unfold P2pMgr.shouldRequest. destruct (peers s !! a); [| exact C].
    destruct (Bookkeeper.shouldRequest _ _ _) as [[] bk]; exact C.
  - unfold hereIs. destruct (peers s !! a); [| exact C].
    destruct (Bookkeeper.received _ _ _) as [[] bk]; simpl; [| exact C].
    destruct (sub_hereIsP2p _ _) as [[] u]; exact C.
  - unfold P2pMgr.served. destruct (peers s !! a); exact C.
Qed.

(** The invariant of the finer executions of a subscriber built with
    [maxPeers = m] and the pool [pool]. *)
Lemma connect_step_inv (env : Env) (m : Z) s d s' d' :
  0 <= m < 2 ^ 31 ->
  connect_step env (s, d) (s', d') ->
  inv SubP2pMgr m s -> inv SubP2pMgr m s'.
Proof.
  intros Hm St Hinv. inversion St; subst.
  - eapply step_inv; eassumption.
  - apply (inv_core SubP2pMgr m s); [reflexivity | exact Hinv].
  - pose proof (tryAdd_inv SubP2pMgr m (mkPeer a pathToPub) s Hm Hinv) as T.
    destruct (tryAdd (mkPeer a pathToPub) s) as [[] s1|e s1|];
      simpl in *; congruence.
  - apply (inv_core SubP2pMgr m s); [reflexivity | exact Hinv].
  - apply (inv_core SubP2pMgr m s); [apply setException_core | exact Hinv].
Qed.

Lemma connect_step_latches (env : Env) s d s' d' :
  connect_step env (s, d) (s', d') ->
  (done s = true -> done s' = true)
  /\ (forall e, taskException s = Some e -> taskException s' = Some e).
Proof.
  intros St. inversion St; subst.
  - eapply step_latches; eassumption.
  - auto.
  - pose proof (latched_after (tryAdd (mkPeer a pathToPub)) s
                  (latched_tryAdd (mkPeer a pathToPub))) as L.
    assert (Es : s' = after (tryAdd (mkPeer a pathToPub) s) s)
      by (destruct (tryAdd (mkPeer a pathToPub) s) as [[] s1|e s1|];
          simplify_eq/=; reflexivity).
    rewrite <- Es in L. injection L as LD LT. rewrite LD, LT. auto.
  - auto.
  - destruct (latches_setException ex s) as [D T]. rewrite D. auto.
Qed.

(** Where the address in the hands of the connect thread and the addresses
    the manager knows go in one step. *)
Lemma connect_step_known (env : Env) (a : SockAddr) s d s' d' :
  connect_step env (s, d) (s', d') ->
  kind s = SubP2pMgr ->
  done s' = false -> taskException s' = None ->
  (d <> None -> connectThread s = true) ->
  known a s \/ d = Some a ->
  (known a s' \/ d' = Some a) /\ (d' <> None -> connectThread s' = true).
Proof.
  intros St K D T Hrun Ha. inversion St; subst.
  - split.
    + destruct Ha as [Ha | ->].
      * left. eapply step_known; eassumption.
      * right.
        assert (C : connectThread s' = true).
        { apply (step_connectThread env s s'); auto. }
        rewrite C. reflexivity.
    + destruct (connectThread s'); [reflexivity | congruence].
  - split; [| intros _; assumption].
    destruct Ha as [[Ha | Ha] | Ha]; [| left; right; exact Ha | discriminate].
    rewrite H7 in Ha. apply elem_of_cons in Ha as [-> | Ha];
      [right; reflexivity | left; left; exact Ha].
  - pose proof (tryAdd_addresses (mkPeer a0 pathToPub) s K) as A.
    pose proof (connectThread_tryAdd (mkPeer a0 pathToPub) s) as C.
    assert (Hk : known a s -> known a (after (tryAdd (mkPeer a0 pathToPub) s) s))
      by apply known_tryAdd, K.
    destruct (tryAdd (mkPeer a0 pathToPub) s) as [[] s1|e s1|];
      simplify_eq/=.
    + split; [| congruence]. left.
      destruct Ha as [Ha | [= ->]]; [auto |].
      destruct A as [_ A]. right. rewrite A, lookup_insert_eq. eauto.
    + split; [| intros _; congruence].
      destruct Ha as [Ha | Ha]; [left; auto | right; exact Ha].
    + split; [| intros _; congruence].
      destruct Ha as [Ha | Ha]; [left; auto | right; exact Ha].
    + split; [exact Ha | intros _; assumption].
  - split; [| congruence]. left.
    destruct Ha as [Ha | [= ->]];
      [apply known_consider, Ha | apply known_consider_self].
  - exfalso. revert T. unfold setException.
    destruct (taskException s) eqn:E; simpl; rewrite ?E; discriminate.
Qed.

(** X20: a subscriber that has not been halted and has captured no task
    exception has lost no server address.  In every execution, with the
    connect thread followed call by call, every address of the pool the
    subscriber was built with is in the pool, or the address of a peer the
    manager holds, or in the hands of the connect thread between its [pop]
    and the end of the turn. *)
Theorem subscriber_loses_no_server_address (env : Env) (m : Z)
    (pool : list SockAddr) (u : U) s (d : option SockAddr) (a : SockAddr) :
  0 <= m < 2 ^ 31 ->
  connect_reachable env (new SubP2pMgr m pool u, None) (s, d) ->
  done s = false ->
  taskException s = None ->
  a ∈ pool ->
  a ∈ serverPool s \/ is_Some (peers s !! a) \/ d = Some a.
Proof.
  intros Hm Hreach.
  enough (J : inv SubP2pMgr m s
              /\ (done s = false -> taskException s = None -> a ∈ pool ->
                  (known a s \/ d = Some a)
                  /\ (d <> None -> connectThread s = true))).
  { intros D T Ha. destruct J as [_ J].
    destruct (J D T Ha) as [[[Hp | Hp] | Hd] _]; auto. }
  remember (new SubP2pMgr m pool u, None) as c0 eqn:E0.
  remember (s, d) as c eqn:Ec. revert s d Ec.
  induction Hreach as [|[s1 d1] c' Hreach IH St]; intros s d Ec; subst.
  - injection Ec as <- <-. split.
    + unfold inv, bounded. simpl. repeat split; auto. lia.
    + intros _ _ Ha. split; [left; left; exact Ha | congruence].
  - destruct (IH s1 d1 eq_refl) as [Hinv J].
    split; [exact (connect_step_inv env m s1 d1 s d Hm St Hinv) |].
    intros D T Ha. destruct Hinv as (K & _).
    destruct (connect_step_latches env s1 d1 s d St) as [LD LT].
    assert (D1 : done s1 = false).
    { apply not_true_is_false. intros E. rewrite (LD E) in D. discriminate. }
    assert (T1 : taskException s1 = None).
    { apply eq_None_not_Some. intros [e E]. rewrite (LT e E) in T.
      discriminate. }
    destruct (J D1 T1 Ha) as [Hk Hrun].
    exact (connect_step_known env a s1 d1 s d St K D T Hrun Hk).
Qed.

End ConnectThread.

Section ConnectThreadSamples.
Import HycastProto P2pMgr Sample.

Lemma subscriber_loses_no_server_address_witness :
  serverPool subConnected7 = []
  /\ (7%nat ∈ serverPool subConnected7
      \/ is_Some (peers subConnected7 !! 7%nat)
      \/ None = Some 7%nat).
Proof.
  split; [reflexivity |].
  apply (subscriber_loses_no_server_address env0 2 [7%nat] [] subConnected7
           None 7%nat).
  - lia.
  - exact (cr_step env0 _ _ _
             (cr_step env0 _ _ _
                (cr_step env0 _ _
                   (after (enter env0 subPool7) subPool7, None)
                   (cr_refl env0 _)
                   (cs_step env0 subPool7 _ None (step_enter env0 subPool7)))
                (cs_pop env0 (after (enter env0 subPool7) subPool7) 7%nat []
                   eq_refl eq_refl eq_refl))
             (cs_tryAdd env0
                (set_serverPool [] (after (enter env0 subPool7) subPool7))
                7%nat true eq_refl)).
  - reflexivity.
  - reflexivity.
  - apply list_elem_of_singleton. reflexivity.
Defined.

End ConnectThreadSamples.
